(** * Babi-Tulips: the falling-block engine (types.ts, utils.ts, shapes.ts,
      states.ts, observables.ts, main.ts) as a shallow embedding, and the
      properties of its reducer.

    Conventions of the embedding.
    - A JavaScript [number] that the engine only ever uses as an integer
      (coordinates, sizes, angles, scores, indices) is a [Z]; the values that
      travel through the random stream (the scaled hashes in [-1, 1]) and the
      grid positions [x / Block.WIDTH] are exact rationals [Q].  Doubles are
      exact on integers below 2^53, which covers every integer the engine
      computes except the product inside [RNG.hash]; the module [RNG64]
      gives the generator in binary64 arithmetic as well.
    - A thrown [TypeError] (reading a property of [undefined]) is the
      [TypeError] constructor of [Result]; the value [undefined] stored in a
      matrix cell is the [Undef] constructor of [Cell].
    - [Infinity] and [-Infinity], the seeds of the two [reduce] calls of the
      wall kicks, are constructors of [ExtNum].
    - [Shape | null] is [option Shape].
    - An observable of observables.ts is the function from what its source
      emits (the code of a key press, a tick of an interval, the index of a
      pair of the random streams) to the actions it emits; the [$] that ends
      its name is written [_].  The reducer receives the random values, which
      are doubles, as the rationals they stand for ([valueOf]); on the values
      the streams deliver the rational [RNG.scaleToRange] returns what the
      binary64 one returns.
    - The fields [x], [y], [width], [height] of [SingleBlock] are [bx], [by_],
      [bwidth], [bheight] (a [Shape] has fields of the same names), and the
      field [fix] of [Shape] is [fix_]. *)

From Stdlib Require Import String ZArith QArith Qround List Bool Lia Lqa.
From Stdlib Require Import Sorted FinFun.
From Stdlib Require Import PrimFloat SpecFloat FloatOps Uint63.
Import ListNotations.
Local Open Scope Z_scope.

Set Implicit Arguments.

(* ================================================================== *)
(** ** Results of fallible code *)

(** [TypeError] is the exception the source throws when it reads a property
    of [undefined].  [NotNumeric] marks the one place where the source goes on
    with a non-numeric value in a numeric field ([createShape] storing
    [undefined] as the angle); the embedding stops there. *)
Inductive Result (A : Type) : Type :=
| Ok (a : A)
| TypeError
| NotNumeric.
Arguments Ok {A} a.
Arguments TypeError {A}.
Arguments NotNumeric {A}.

Definition bind {A B} (r : Result A) (k : A -> Result B) : Result B :=
  match r with
  | Ok a => k a
  | TypeError => TypeError
  | NotNumeric => NotNumeric
  end.

Notation "x <- r ;; k" := (bind r (fun x => k))
  (at level 61, r at next level, right associativity).

(** [Array.prototype.map] with a callback that may throw: the callbacks run
    in index order and the first exception aborts the whole map. *)
Fixpoint mapi_res {A B} (f : nat -> A -> Result B) (i : nat) (l : list A)
  : Result (list B) :=
  match l with
  | [] => Ok []
  | a :: l' =>
      b <- f i a ;;
      bs <- mapi_res f (S i) l' ;;
      Ok (b :: bs)
  end.

(** [map] with the index, for callbacks that cannot throw. *)
Fixpoint mapi {A B} (f : nat -> A -> B) (i : nat) (l : list A) : list B :=
  match l with
  | [] => []
  | a :: l' => f i a :: mapi f (S i) l'
  end.

(** [arr[k]] for an integer [k]: [None] is JavaScript's [undefined]. *)
Definition index {A} (arr : list A) (k : Z) : option A :=
  if k <? 0 then None else nth_error arr (Z.to_nat k).

(* ================================================================== *)
(** ** types.ts: constants *)

Module Seed.
Definition RNG_SEED_1 : Z := 16012004.
Definition RNG_SEED_2 : Z := 19082004.
End Seed.

Module Viewport.
Definition CANVAS_WIDTH : Z := 200.
Definition CANVAS_HEIGHT : Z := 400.
Definition PREVIEW_WIDTH : Z := 160.
Definition PREVIEW_HEIGHT : Z := 80.
End Viewport.

Module Constants.
Definition TICK_RATE_MS : Z := 200.
Definition GRID_WIDTH : Z := 10.
Definition GRID_HEIGHT : Z := 20.
End Constants.

Module Block.
Definition WIDTH : Z := Viewport.CANVAS_WIDTH / Constants.GRID_WIDTH.
Definition HEIGHT : Z := Viewport.CANVAS_HEIGHT / Constants.GRID_HEIGHT.
End Block.

Module Spawn.
Definition SPAWN_CANVAS_X : Z := Viewport.CANVAS_WIDTH / 2 - 2 * Block.WIDTH.
Definition SPAWN_CANVAS_Y : Z := 0.
Definition SPAWN_PREVIEW_X : Z := Viewport.PREVIEW_WIDTH / 2 - 2 * Block.WIDTH.
Definition SPAWN_PREVIEW_Y : Z := 0.
End Spawn.

(* ================================================================== *)
(** ** types.ts: data *)

(** A cell of a [NumbersMatrix] at run time: a number, or the [undefined]
    that an out-of-range column read produces inside [rotateMatrix]. *)
Inductive Cell : Type :=
| Num (n : Z)
| Undef.

Definition NumbersMatrix : Type := list (list Cell).

(** Literal matrices of the source are written with integers. *)
Definition numbers (m : list (list Z)) : NumbersMatrix := map (map Num) m.

Inductive ShapeName : Type :=
| NameL | NameO | NameJ | NameZ | NameS | NameI | NameT | NameObstacle.

Inductive Color : Type :=
| green | red | blue | yellow | pink | purple | orange | grey.

Record ShapeType : Type := mkShapeType {
  name : ShapeName;
  matrix : NumbersMatrix;
  color : Color
}.

Record SingleBlock : Type := mkBlock {
  bx : Z;
  by_ : Z;
  bwidth : Z;
  bheight : Z
}.

(** [id] holds the number [n] of the template string [`shape${n}`]. *)
Record Shape : Type := mkShape {
  id : Z;
  x : Z;
  y : Z;
  angle : Z;
  type : ShapeType;
  blocks : list SingleBlock;
  width : Z;
  height : Z;
  fix_ : bool
}.

Record Statistics : Type := mkStats {
  level : Z;
  highScore : Z;
  score : Z
}.

(** The [tulips] field of the [State] type is never written or read by the
    engine ([INITIAL_STATE] does not set it) and is left out. *)
Record State : Type := mkState {
  gameEnd : bool;
  currentShape : option Shape;
  nextShape : Shape;
  fixedShapes : list Shape;
  stats : Statistics;
  dropRate : Z;
  obstacles : list Shape;
  levelUp : bool
}.

Record Movement : Type := mkMovement {
  deltaX : Z;
  deltaY : Z
}.

Record GridPosition : Type := mkGridPosition {
  gx : Q;
  gy : Q
}.

(* ================================================================== *)
(** ** utils.ts: the random number generator *)

Module RNG.
Definition m : Z := 0x80000000.
Definition a : Z := 1103515245.
Definition c : Z := 12345.

(** [(a * seed + c) % m] on integers.  JavaScript's [%] takes the sign of
    the dividend ([Z.rem]).  The source computes the product in double
    precision, so this is the source's value whenever
    [|a * seed + c| < 2^53]; beyond that the double product is rounded
    before the remainder is taken (see [RNG64.hash]). *)
Definition hash (seed : Z) : Z := Z.rem (a * seed + c) m.

(** [(2 * hash) / (m - 1) - 1] *)
Definition scale (hash : Z) : Q := inject_Z (2 * hash) / inject_Z (m - 1) - 1.

(** [Math.floor((hash + 1) / 2 * (to - from + 1) + from)] in exact
    arithmetic.  The source rounds every operation in binary64
    ([RNG64.scaleToRange] below); the two return the same number on the
    values the random streams deliver, and differ on doubles next to 1,
    where [hash + 1] is rounded to 2. *)
Definition scaleToRange (hash : Q) (from to : Z) : Z :=
  Qfloor ((hash + 1) / 2 * inject_Z (to - from + 1) + inject_Z from).
End RNG.

(** The generator in the arithmetic of the source: every [number] is a
    binary64 float and every operation rounds as IEEE 754 prescribes. *)
Module RNG64.
Definition m : float := 0x80000000%float.
Definition a : float := 1103515245%float.
Definition c : float := 12345%float.

(** An integer below 2^53 in magnitude, as a float. *)
Definition ofInteger (n : Z) : float :=
  if n <? 0 then (- of_uint63 (Uint63.of_Z (- n)))%float
  else of_uint63 (Uint63.of_Z n).

(** [x % m] for the modulus [m = 2^31]: the remainder of the truncated
    division, which has the sign of the dividend and is exact. *)
Definition remM (x : float) : float :=
  match Prim2SF x with
  | S754_finite s mant e =>
      let r := if 0 <=? e
               then Z.rem (Zpos mant * 2 ^ e) (2 ^ 31)
               else Z.rem (Zpos mant) (2 ^ 31 * 2 ^ (- e)) in
      match r with
      | Zpos p => SF2Prim (S754_finite s p (Z.min e 0))
      | _ => if s then neg_zero else zero
      end
  | S754_zero _ => x
  | _ => nan
  end.

(** [Math.floor] *)
Definition floor (x : float) : float :=
  match Prim2SF x with
  | S754_finite s mant e =>
      if 0 <=? e then x
      else ofInteger ((if s then Zneg mant else Zpos mant) / 2 ^ (- e))
  | _ => x
  end.

Definition hash (seed : float) : float := remM (a * seed + c)%float.

Definition scale (hash : float) : float := ((2 * hash) / (m - 1) - 1)%float.

Definition scaleToRange (hash from to : float) : float :=
  floor ((hash + 1) / 2 * (to - from + 1) + from)%float.
End RNG64.

(* ================================================================== *)
(** ** Number operations of the host language on rationals *)

(** Truncation towards zero, the conversion applied to array lengths and to
    the arguments of [slice]. *)
Definition toInteger (q : Q) : Z := Z.quot (Qnum q) (Zpos (Qden q)).

(** [a % b] for a non-zero integer [b]: [a - b * trunc(a / b)], with the sign
    of the dividend. *)
Definition jsRem (a : Q) (b : Z) : Q :=
  a - inject_Z (b * toInteger (a / inject_Z b)).

(** Whether a number is an integer. *)
Definition isInteger (q : Q) : bool :=
  Z.rem (Qnum q) (Zpos (Qden q)) =? 0.

(** [arr[q]] for a number [q]: defined only at an integer index in range. *)
Definition indexQ {A} (arr : list A) (q : Q) : option A :=
  if isInteger q then index arr (toInteger q) else None.

(** The index computation of [slice]: a negative relative index counts from
    the end, and the result is clamped to [0, len]. *)
Definition clampIndex (len rel : Z) : Z :=
  if rel <? 0 then Z.max (len + rel) 0 else Z.min rel len.

(** [arr.slice(start, end)]; [None] for an omitted [end]. *)
Definition slice {A} (arr : list A) (start : Q) (end_ : option Q) : list A :=
  let len := Z.of_nat (length arr) in
  let k := clampIndex len (toInteger start) in
  let final := match end_ with
               | Some e => clampIndex len (toInteger e)
               | None => len
               end in
  firstn (Z.to_nat (final - k)) (skipn (Z.to_nat k) arr).

Inductive ExtNum : Type :=
| NegInfinity
| Finite (z : Z)
| PosInfinity.

(** [Math.min] and [Math.max] of an accumulated extended number and a
    finite one. *)
Definition ext_min (e : ExtNum) (z : Z) : ExtNum :=
  match e with
  | NegInfinity => NegInfinity
  | Finite w => Finite (Z.min w z)
  | PosInfinity => Finite z
  end.

Definition ext_max (e : ExtNum) (z : Z) : ExtNum :=
  match e with
  | NegInfinity => Finite z
  | Finite w => Finite (Z.max w z)
  | PosInfinity => PosInfinity
  end.

(** [e <= z] and [e >= z] *)
Definition ext_leb (e : ExtNum) (z : Z) : bool :=
  match e with
  | NegInfinity => true
  | Finite w => w <=? z
  | PosInfinity => false
  end.

Definition ext_geb (e : ExtNum) (z : Z) : bool :=
  match e with
  | NegInfinity => false
  | Finite w => w >=? z
  | PosInfinity => true
  end.

(* ================================================================== *)
(** ** utils.ts: matrices *)

(** [matrix.map((row, i) => row.map((_, j) => matrix[n - j - 1][i]))].
    [matrix[n - j - 1]] is [undefined] when [j >= n], and reading [[i]] from
    it throws; a row that exists but is shorter than [i + 1] yields the value
    [undefined]. *)
Definition rotateMatrix (matrix : NumbersMatrix) : Result NumbersMatrix :=
  let n := Z.of_nat (length matrix) in
  mapi_res (fun i row =>
    mapi_res (fun j (_ : Cell) =>
      match index matrix (n - Z.of_nat j - 1) with
      | Some r => Ok (nth i r Undef)
      | None => TypeError
      end) 0%nat row) 0%nat matrix.

(** [reduce] of [rotateMatrix] over an array of the given length. *)
Fixpoint rotateTimes (k : nat) (matrix : NumbersMatrix) : Result NumbersMatrix :=
  match k with
  | O => Ok matrix
  | S k' => m' <- rotateMatrix matrix ;; rotateTimes k' m'
  end.

(** [Array.from({ length: times % 4 }).reduce(...)]: the length of the array
    is [times % 4] truncated to an integer, and a negative length is an empty
    array. *)
Definition rotateMatrixNTimes (times : Q) (matrix : NumbersMatrix)
  : Result NumbersMatrix :=
  rotateTimes (Z.to_nat (toInteger (jsRem times 4))) matrix.

(* ================================================================== *)
(** ** utils.ts: the occupancy grid *)

(** [concat(array.slice(0, index), [newItem], array.slice(index + 1))] *)
Definition replace {A} (array : list A) (newItem : A) (index : Q) : list A :=
  slice array 0 (Some index) ++ [newItem] ++ slice array (index + 1) None.

(** One step of the [reduce] of [updateGrid].  [accGrid[y]] is [undefined]
    unless [y] is an integer row index in range, and [replace] then throws on
    [array.slice]. *)
Definition updateGridStep (accGrid : NumbersMatrix) (p : GridPosition)
  : Result NumbersMatrix :=
  match indexQ accGrid (gy p) with
  | Some rowToUpdate =>
      let updatedRow := replace rowToUpdate (Num 1) (gx p) in
      Ok (replace accGrid updatedRow (gy p))
  | None => TypeError
  end.

Fixpoint updateGrid (oldGrid : NumbersMatrix) (positions : list GridPosition)
  : Result NumbersMatrix :=
  match positions with
  | [] => Ok oldGrid
  | p :: ps => g <- updateGridStep oldGrid p ;; updateGrid g ps
  end.

(** The only call site passes the width 10 and the height 20.  The source
    throws a [RangeError] where [Array(width)] is given a negative width or
    one of at least 2^32, and where [Array.from] is given a height of at
    least 2^32; these arguments are outside the embedding, which is stated
    for the others. *)
Definition constructGrid (width height : Z)
  (positions : option (list GridPosition)) : Result NumbersMatrix :=
  let emptyGrid := repeat (repeat (Num 0) (Z.to_nat width)) (Z.to_nat height) in
  match positions with
  | None => Ok emptyGrid
  | Some ps => updateGrid emptyGrid ps
  end.

(** [cell === 1] *)
Definition is_one (cell : Cell) : bool :=
  match cell with
  | Num 1 => true
  | _ => false
  end.

(** The [reduce] of [findFullRowsOfGrid], from row index [rowIndex] on. *)
Fixpoint fullRowsFrom (rowIndex : Z) (grid : NumbersMatrix) : list Z :=
  match grid with
  | [] => []
  | row :: rest =>
      let isFull := forallb is_one row in
      if isFull then rowIndex :: fullRowsFrom (rowIndex + 1) rest
      else fullRowsFrom (rowIndex + 1) rest
  end.

Definition findFullRowsOfGrid (grid : NumbersMatrix) : list Z :=
  fullRowsFrom 0 grid.

(* ================================================================== *)
(** ** shapes.ts *)

Import Viewport.

Definition ALL_SHAPE_TYPES : list ShapeType :=
  [ mkShapeType NameO (numbers [[0; 0; 0; 0];
                                [0; 1; 1; 0];
                                [0; 1; 1; 0];
                                [0; 0; 0; 0]]) green;
    mkShapeType NameL (numbers [[1; 0; 0];
                                [1; 1; 1];
                                [0; 0; 0]]) blue;
    mkShapeType NameJ (numbers [[0; 0; 1];
                                [1; 1; 1];
                                [0; 0; 0]]) pink;
    mkShapeType NameS (numbers [[0; 0; 0];
                                [0; 1; 1];
                                [1; 1; 0]]) red;
    mkShapeType NameZ (numbers [[0; 0; 0];
                                [1; 1; 0];
                                [0; 1; 1]]) purple;
    mkShapeType NameI (numbers [[0; 0; 1; 0];
                                [0; 0; 1; 0];
                                [0; 0; 1; 0];
                                [0; 0; 1; 0]]) orange;
    mkShapeType NameT (numbers [[0; 0; 0];
                                [1; 1; 1];
                                [0; 1; 0]]) yellow ].

Definition ALL_SHAPE_ANGLES : list Z := [0; 90; 180; 270].

(** [.filter(block => block !== null)] *)
Fixpoint dropNulls {A} (l : list (option A)) : list A :=
  match l with
  | [] => []
  | Some a :: l' => a :: dropNulls l'
  | None :: l' => dropNulls l'
  end.

(** The cells of one rotated row, as blocks or [null]. *)
Definition renderRow (shape : Shape) (rowIndex : nat) (row : list Cell)
  : list (option SingleBlock) :=
  mapi (fun colIndex value =>
          if is_one value
          then Some (mkBlock (x shape + Z.of_nat colIndex * Block.WIDTH)
                             (y shape + Z.of_nat rowIndex * Block.HEIGHT)
                             Block.WIDTH
                             Block.HEIGHT)
          else None) 0%nat row.

Definition renderBlocksFromShape (shape : Shape) : Result (list SingleBlock) :=
  let matrix := matrix (type shape) in
  let rotateCount := jsRem (inject_Z (angle shape) / 90) 4 in
  rotatedMatrix <- rotateMatrixNTimes rotateCount matrix ;;
  Ok (dropNulls (concat (mapi (renderRow shape) 0%nat rotatedMatrix))).

(** [ALL_SHAPE_TYPES[i]] is [undefined] for an index out of range, and
    reading [randomType.matrix] then throws.  [ALL_SHAPE_ANGLES[i]] out of
    range leaves [undefined] in the [angle] field without throwing: this is
    the [NotNumeric] outcome.  [randomType.matrix[0]] exists for every
    catalog entry. *)
Definition createShape (randomPair : Q * Q) (id : Z) : Result Shape :=
  match index ALL_SHAPE_TYPES
          (RNG.scaleToRange (fst randomPair) 0
             (Z.of_nat (length ALL_SHAPE_TYPES) - 1)) with
  | None => TypeError
  | Some randomType =>
      match index ALL_SHAPE_ANGLES
              (RNG.scaleToRange (snd randomPair) 0
                 (Z.of_nat (length ALL_SHAPE_ANGLES) - 1)) with
      | None => NotNumeric
      | Some randomAngle =>
          match matrix randomType with
          | [] => TypeError
          | row0 :: _ =>
              Ok {| id := id;
                    x := 0;
                    y := 0;
                    angle := randomAngle;
                    type := randomType;
                    blocks := [];
                    width := Block.WIDTH * Z.of_nat (length row0);
                    height := Block.HEIGHT
                              * Z.of_nat (length (matrix randomType));
                    fix_ := false |}
          end
      end
  end.

Definition createObstacle (id x y : Z) : Shape :=
  {| id := id;
     x := x;
     y := y;
     angle := 0;
     type := mkShapeType NameObstacle (numbers [[1]]) grey;
     blocks := [];
     width := Block.WIDTH;
     height := Block.HEIGHT;
     fix_ := true |}.

(** All the blocks of the fixed shapes of a state. *)
Definition allBlocks (s : State) : list SingleBlock :=
  flat_map blocks (fixedShapes s).

(** The local function [canUpdate] of [updateShape]. *)
Definition canUpdate (allBlocks newBlocks : list SingleBlock) : bool :=
  let insideGrid :=
    forallb (fun b => (bx b >=? 0) && (bx b <? CANVAS_WIDTH)
                      && (by_ b <? CANVAS_HEIGHT)) newBlocks in
  let noOverlapBlocks :=
    negb (existsb (fun block1 =>
            existsb (fun block2 =>
              (bx block1 =? bx block2) && (by_ block1 =? by_ block2))
              allBlocks) newBlocks) in
  noOverlapBlocks && insideGrid.

(** The local function [isFix] of [updateShape]. *)
Definition isFix (allBlocks newBlocks : list SingleBlock) : bool :=
  let hasCollisions :=
    existsb (fun block1 =>
      existsb (fun block2 =>
        (bx block1 =? bx block2) && (by_ block1 =? by_ block2 - Block.HEIGHT))
        allBlocks) newBlocks in
  let hitGround :=
    existsb (fun block => by_ block =? CANVAS_HEIGHT - Block.HEIGHT)
      newBlocks in
  hasCollisions || hitGround.

(** [{ ...newShape, blocks: newBlocks, fix: isFix() }] *)
Definition withBlocksFix (newShape : Shape) (newBlocks : list SingleBlock)
  (f : bool) : Shape :=
  {| id := id newShape; x := x newShape; y := y newShape;
     angle := angle newShape; type := type newShape;
     blocks := newBlocks;
     width := width newShape; height := height newShape;
     fix_ := f |}.

Definition updateShape (s : State) (newShape : Shape) : Result (option Shape) :=
  if fix_ newShape then Ok (currentShape s)
  else
    let allBlocks := allBlocks s in
    newBlocks <- renderBlocksFromShape newShape ;;
    Ok (if canUpdate allBlocks newBlocks
        then Some (withBlocksFix newShape newBlocks (isFix allBlocks newBlocks))
        else currentShape s).

(** The guard [s.gameEnd || !updatedShape] is the [None] branch. *)
Definition updateStateWithNewShape (s : State) (newShape : Shape)
  : Result State :=
  updatedShape <- updateShape s newShape ;;
  match (if gameEnd s then None else updatedShape) with
  | None => Ok s
  | Some updatedShape =>
      if fix_ updatedShape then
        Ok {| gameEnd := gameEnd s;
              currentShape := None;
              nextShape := nextShape s;
              fixedShapes := fixedShapes s ++ [updatedShape];
              stats := stats s;
              dropRate := dropRate s;
              obstacles := obstacles s;
              levelUp := levelUp s |}
      else
        Ok {| gameEnd := gameEnd s;
              currentShape := Some updatedShape;
              nextShape := nextShape s;
              fixedShapes := fixedShapes s;
              stats := stats s;
              dropRate := dropRate s;
              obstacles := obstacles s;
              levelUp := levelUp s |}
  end.

(** [{ ...shape, x: newX }] *)
Definition withX (shape : Shape) (newX : Z) : Shape :=
  {| id := id shape; x := newX; y := y shape; angle := angle shape;
     type := type shape; blocks := blocks shape;
     width := width shape; height := height shape; fix_ := fix_ shape |}.

Definition kickShapeLeftWall (shape : Shape) : Shape :=
  let leftMostBlockX :=
    fold_left (fun smallestX b => ext_min smallestX (bx b))
      (blocks shape) PosInfinity in
  let offset := - x shape in
  if ext_leb leftMostBlockX Block.WIDTH
  then withX shape (x shape + offset)
  else shape.

Definition kickShapeRightWall (shape : Shape) : Shape :=
  let rightMostBlockX :=
    fold_left (fun largestX b => ext_max largestX (bx b))
      (blocks shape) NegInfinity in
  let offset := CANVAS_WIDTH - (x shape + width shape) in
  if ext_geb rightMostBlockX (CANVAS_WIDTH - 2 * Block.WIDTH)
  then withX shape (x shape + offset)
  else shape.

Definition rotateKickShape (shape : Shape) : Shape :=
  fold_left (fun accShape func => func accShape)
    [kickShapeLeftWall; kickShapeRightWall] shape.

(* ================================================================== *)
(** ** states.ts *)

Import Constants Spawn.

Definition getGridPositionsFromState (s : State) : list GridPosition :=
  map (fun b => {| gx := inject_Z (bx b) / inject_Z Block.WIDTH;
                   gy := inject_Z (by_ b) / inject_Z Block.HEIGHT |})
      (flat_map blocks (fixedShapes s)).

(** [{ ...shape, x: newX, y: newY }] *)
Definition withXY (shape : Shape) (newX newY : Z) : Shape :=
  {| id := id shape; x := newX; y := newY; angle := angle shape;
     type := type shape; blocks := blocks shape;
     width := width shape; height := height shape; fix_ := fix_ shape |}.

(** [{ ...shape, angle: newAngle }] *)
Definition withAngle (shape : Shape) (newAngle : Z) : Shape :=
  {| id := id shape; x := x shape; y := y shape; angle := newAngle;
     type := type shape; blocks := blocks shape;
     width := width shape; height := height shape; fix_ := fix_ shape |}.

(** [{ ...shape, blocks: newBlocks }] *)
Definition withBlocks (shape : Shape) (newBlocks : list SingleBlock) : Shape :=
  {| id := id shape; x := x shape; y := y shape; angle := angle shape;
     type := type shape; blocks := newBlocks;
     width := width shape; height := height shape; fix_ := fix_ shape |}.

(** [{ ...block, y: newY }] *)
Definition withBlockY (block : SingleBlock) (newY : Z) : SingleBlock :=
  {| bx := bx block; by_ := newY;
     bwidth := bwidth block; bheight := bheight block |}.

(** The value of a [Result] that is known to be [Ok]. *)
Definition fromOk {A : Type} (r : Result A)
  : match r return Type with Ok _ => A | _ => unit end :=
  match r with
  | Ok a => a
  | TypeError => tt
  | NotNumeric => tt
  end.

(** [{ ...createShape([0, 0], 1), x: SPAWN_PREVIEW_X, y: SPAWN_PREVIEW_Y }] *)
Definition initialShapeResult : Result Shape :=
  sh <- createShape (0, 0)%Q 1 ;;
  Ok (withXY sh SPAWN_PREVIEW_X SPAWN_PREVIEW_Y).

Definition initialShape : Shape := Eval vm_compute in fromOk initialShapeResult.

Definition INITIAL_STATE : State :=
  {| gameEnd := false;
     currentShape := None;
     nextShape := initialShape;
     fixedShapes := [];
     stats := {| level := 1; highScore := 0; score := 0 |};
     dropRate := Block.HEIGHT;
     obstacles := [];
     levelUp := false |}.

Definition AddShapeAction_apply (randomPair : Q * Q) (s : State)
  : Result State :=
  newShape <- createShape randomPair
                (Z.of_nat (length (fixedShapes s))
                 - Z.of_nat (length (obstacles s)) + 2) ;;
  Ok {| gameEnd := gameEnd s;
        currentShape := Some (withXY (nextShape s) SPAWN_CANVAS_X SPAWN_CANVAS_Y);
        nextShape := withXY newShape SPAWN_PREVIEW_X SPAWN_PREVIEW_Y;
        fixedShapes := fixedShapes s;
        stats := stats s;
        dropRate := dropRate s;
        obstacles := obstacles s;
        levelUp := levelUp s |}.

Definition MoveAction_apply (movement : Movement) (s : State) : Result State :=
  match currentShape s with
  | None => Ok s
  | Some oldShape =>
      let newShape := withXY oldShape (x oldShape + deltaX movement)
                                      (y oldShape + deltaY movement) in
      updateStateWithNewShape s newShape
  end.

Definition RotateAction_apply (s : State) : Result State :=
  match currentShape s with
  | None => Ok s
  | Some cur =>
      let newShape := rotateKickShape
                        (withAngle cur (Z.rem (angle cur + 90) 360)) in
      updateStateWithNewShape s newShape
  end.

(** The blocks of one fixed shape after the rows at [fullRowsYCoordinates]
    are cleared. *)
Definition adjustBlocks (fullRowsYCoordinates : list Z)
  (blocks : list SingleBlock) : list SingleBlock :=
  map (fun block =>
         let countClearRowsBelowBlock :=
           Z.of_nat (length (filter (fun clearRow => clearRow >? by_ block)
                               fullRowsYCoordinates)) in
         withBlockY block
           (by_ block + bheight block * countClearRowsBelowBlock))
      (filter (fun b => negb (existsb (Z.eqb (by_ b)) fullRowsYCoordinates))
         blocks).

Definition ScoreAction_apply (s : State) : Result State :=
  currentGrid <- constructGrid GRID_WIDTH GRID_HEIGHT
                   (Some (getGridPositionsFromState s)) ;;
  let fullRowsYCoordinates :=
    map (fun index => index * Block.HEIGHT) (findFullRowsOfGrid currentGrid) in
  let newFixedShapes :=
    map (fun shape =>
           withBlocks shape (adjustBlocks fullRowsYCoordinates (blocks shape)))
        (fixedShapes s) in
  let newScore := score (stats s)
                  + Z.of_nat (length fullRowsYCoordinates) * level (stats s) in
  Ok {| gameEnd := gameEnd s;
        currentShape := currentShape s;
        nextShape := nextShape s;
        fixedShapes := newFixedShapes;
        stats := {| level := level (stats s);
                    highScore := highScore (stats s);
                    score := newScore |};
        dropRate := dropRate s;
        obstacles := obstacles s;
        levelUp := levelUp s |}.

(** [{ ...s, gameEnd: g }] *)
Definition withGameEnd (s : State) (g : bool) : State :=
  {| gameEnd := g; currentShape := currentShape s; nextShape := nextShape s;
     fixedShapes := fixedShapes s; stats := stats s; dropRate := dropRate s;
     obstacles := obstacles s; levelUp := levelUp s |}.

(** [{ ...s, levelUp: l }] *)
Definition withLevelUp (s : State) (l : bool) : State :=
  {| gameEnd := gameEnd s; currentShape := currentShape s;
     nextShape := nextShape s; fixedShapes := fixedShapes s; stats := stats s;
     dropRate := dropRate s; obstacles := obstacles s; levelUp := l |}.

Definition EndGameAction_apply (s : State) : State :=
  match currentShape s with
  | None => s
  | Some cur =>
      let gameEnd := forallb (fun block => by_ block - bheight block <? 0)
                       (blocks cur) in
      withGameEnd s gameEnd
  end.

Definition RestartGameAction_apply (s : State) : State :=
  let score := score (stats s) in
  let highScore := highScore (stats s) in
  if gameEnd s then
    {| gameEnd := false;
       currentShape := currentShape INITIAL_STATE;
       nextShape := nextShape INITIAL_STATE;
       fixedShapes := fixedShapes INITIAL_STATE;
       stats := {| level := 1;
                   highScore := if highScore >? score then highScore else score;
                   score := 0 |};
       dropRate := dropRate INITIAL_STATE;
       obstacles := obstacles INITIAL_STATE;
       levelUp := levelUp INITIAL_STATE |}
  else s.

Definition CheckLevelUpAction_apply (s : State) : State :=
  let level := level (stats s) in
  let score := score (stats s) in
  let isLevelUp := score >=? level * 10 in
  withLevelUp s isLevelUp.

Definition addObstacle (randomPair : Q * Q) (s : State) : Result State :=
  let level := level (stats s) in
  let scaleX := RNG.scaleToRange (fst randomPair) 0 (GRID_WIDTH - 1) in
  let scaleY := RNG.scaleToRange (snd randomPair)
                  (GRID_HEIGHT / 2) (GRID_HEIGHT - 1) in
  let actualX := scaleX * Block.WIDTH in
  let actualY := scaleY * Block.HEIGHT in
  let newObstacle :=
    createObstacle (- (Z.of_nat (length (obstacles s)) + 1)) actualX actualY in
  newBlocks <- renderBlocksFromShape newObstacle ;;
  let newObstaclesArray := obstacles s ++ [withBlocks newObstacle newBlocks] in
  Ok {| gameEnd := gameEnd INITIAL_STATE;
        currentShape := currentShape INITIAL_STATE;
        nextShape := nextShape INITIAL_STATE;
        fixedShapes := newObstaclesArray;
        stats := {| level := level + 1;
                    highScore := highScore (stats s);
                    score := score (stats s) |};
        dropRate := dropRate INITIAL_STATE;
        obstacles := newObstaclesArray;
        levelUp := levelUp INITIAL_STATE |}.

Definition NextLevelAction_apply (randomPair : Q * Q) (s : State)
  : Result State :=
  if levelUp s then addObstacle randomPair s else Ok s.

(** The closed set of actions; [apply] is the method each class implements
    and [reduceState] the reducer folded over the action stream. *)
Inductive Action : Type :=
| AddShapeAction (randomPair : Q * Q)
| MoveAction (movement : Movement)
| RotateAction
| ScoreAction
| EndGameAction
| RestartGameAction
| CheckLevelUpAction
| NextLevelAction (randomPair : Q * Q)
| TickAction
| GameCycleAction (randomPair : Q * Q).

(** The four actions [TickAction] folds over the state, in order. *)
Definition TickAction_apply (s : State) : Result State :=
  if gameEnd s || levelUp s then Ok s
  else
    s1 <- Ok (CheckLevelUpAction_apply s) ;;
    s2 <- MoveAction_apply {| deltaX := 0; deltaY := dropRate s |} s1 ;;
    s3 <- ScoreAction_apply s2 ;;
    Ok (EndGameAction_apply s3).

Definition GameCycleAction_apply (randomPair : Q * Q) (s : State)
  : Result State :=
  if levelUp s then NextLevelAction_apply randomPair s
  else if gameEnd s then Ok (RestartGameAction_apply s)
  else AddShapeAction_apply randomPair s.

Definition apply (action : Action) (s : State) : Result State :=
  match action with
  | AddShapeAction randomPair => AddShapeAction_apply randomPair s
  | MoveAction movement => MoveAction_apply movement s
  | RotateAction => RotateAction_apply s
  | ScoreAction => ScoreAction_apply s
  | EndGameAction => Ok (EndGameAction_apply s)
  | RestartGameAction => Ok (RestartGameAction_apply s)
  | CheckLevelUpAction => Ok (CheckLevelUpAction_apply s)
  | NextLevelAction randomPair => NextLevelAction_apply randomPair s
  | TickAction => TickAction_apply s
  | GameCycleAction randomPair => GameCycleAction_apply randomPair s
  end.

Definition reduceState (s : State) (action : Action) : Result State :=
  apply action s.

(** The states the reducer can reach from [INITIAL_STATE] by actions that
    return. *)
Inductive reachable : State -> Prop :=
| reach_init : reachable INITIAL_STATE
| reach_step : forall s action s',
    reachable s -> reduceState s action = Ok s' -> reachable s'.

(* ================================================================== *)
(** ** observables.ts and main.ts *)

(** The [n]-th value of the stream [rng$(seed)]:
    [scan(RNG.hash, seed)] yields [hash seed], [hash (hash seed)], ..., and
    [map(RNG.scale)] scales each of them. *)
Definition rng_ (seed : float) (n : nat) : float :=
  RNG64.scale (Nat.iter (S n) RNG64.hash seed).

(** The [n]-th pair of [zip(rng$(16012004), rng$(19082004))], which
    [gameCycle$] wraps into a [GameCycleAction]. *)
Definition gameCyclePair (n : nat) : float * float :=
  (rng_ 16012004 n, rng_ 19082004 n).

(** The number a finite double stands for: sign, mantissa and exponent give
    [+/- mantissa * 2 ^ exponent]. *)
Definition valueOf (f : float) : Q :=
  match Prim2SF f with
  | S754_finite s mant e =>
      let z := if s then Zneg mant else Zpos mant in
      if 0 <=? e then inject_Z (z * 2 ^ e)
      else Qmake z (Z.to_pos (2 ^ (- e)))
  | _ => 0%Q
  end.

(** The pair the [n]-th [GameCycleAction] carries, as the reducer of the
    embedding receives it. *)
Definition pairValue (n : nat) : Q * Q :=
  (valueOf (fst (gameCyclePair n)), valueOf (snd (gameCyclePair n))).

(** [fromKey(keyCode, result)]: what the stream emits on a key press with
    the given code. *)
Definition fromKey (keyCode : string) (result : Action) (code : string)
  : list Action :=
  if String.eqb code keyCode then [result] else [].

(** The streams [left$], [right$], [down$] and [rotate$]. *)
Definition left_ : string -> list Action :=
  fromKey "KeyA" (MoveAction {| deltaX := - Block.WIDTH; deltaY := 0 |}).

Definition right_ : string -> list Action :=
  fromKey "KeyD" (MoveAction {| deltaX := Block.WIDTH; deltaY := 0 |}).

Definition down_ : string -> list Action :=
  fromKey "KeyS" (MoveAction {| deltaX := 0; deltaY := Block.HEIGHT |}).

Definition rotate_ : string -> list Action :=
  fromKey "Space" RotateAction.

(** [movement$ = merge(left$, right$, down$, rotate$)] *)
Definition movement_ (code : string) : list Action :=
  left_ code ++ right_ code ++ down_ code ++ rotate_ code.

(** What the sources of [action$] emit: a key press with its code, a tick of
    the interval, and the [n]-th pair of the two random streams. *)
Inductive Emission : Type :=
| KeyPress (code : string)
| Interval
| GameCycle (n : nat).

(** [action$ = merge(movement$, tick$, gameCycle$)] *)
Definition action_ (e : Emission) : list Action :=
  match e with
  | KeyPress code => movement_ code
  | Interval => [TickAction]
  | GameCycle n => [GameCycleAction (pairValue n)]
  end.

(** [scan(reduceState, s)]: the states emitted for a sequence of actions. *)
Fixpoint scan (s : State) (actions : list Action) : Result (list State) :=
  match actions with
  | [] => Ok []
  | action :: rest =>
      s' <- reduceState s action ;;
      states <- scan s' rest ;;
      Ok (s' :: states)
  end.

(** The states [main] passes to [render]. *)
Definition main (emissions : list Emission) : Result (list State) :=
  scan INITIAL_STATE (flat_map action_ emissions).

(* ================================================================== *)
(** ** Vocabulary of the properties and sample boards *)

(** A matrix none of whose rows is longer than the matrix is high:
    [rotateMatrix] reads no row that does not exist. *)
Definition rows_fit (mx : NumbersMatrix) : Prop :=
  Forall (fun row => (length row <= length mx)%nat) mx.

Definition square (n : nat) (mx : NumbersMatrix) : Prop :=
  length mx = n /\ Forall (fun row => length row = n) mx.

(** [mx[i][j]] *)
Definition cell (mx : NumbersMatrix) (i j : nat) : Cell :=
  nth j (nth i mx []) Undef.

(** What [rotateMatrix] returns when it returns. *)
Definition rotated (mx : NumbersMatrix) : NumbersMatrix :=
  mapi (fun i row =>
          mapi (fun j (_ : Cell) => cell mx (length mx - 1 - j) i) 0%nat row)
       0%nat mx.

(** A block inside the canvas, as [canUpdate] requires it. *)
Definition in_canvas (b : SingleBlock) : Prop :=
  0 <= bx b /\ bx b < CANVAS_WIDTH /\ by_ b < CANVAS_HEIGHT.

(** Two blocks at the same position. *)
Definition coincide (b1 b2 : SingleBlock) : Prop :=
  bx b1 = bx b2 /\ by_ b1 = by_ b2.



(** The obstacle [NextLevelAction] adds to a state. *)
Definition newObstacleOf (randomPair : Q * Q) (s : State) : Shape :=
  let ox := RNG.scaleToRange (fst randomPair) 0 (GRID_WIDTH - 1) * Block.WIDTH in
  let oy := RNG.scaleToRange (snd randomPair) (GRID_HEIGHT / 2) (GRID_HEIGHT - 1)
            * Block.HEIGHT in
  withBlocks (createObstacle (- (Z.of_nat (length (obstacles s)) + 1)) ox oy)
    [ {| bx := ox; by_ := oy;
         bwidth := Block.WIDTH; bheight := Block.HEIGHT |} ].

(** A board at level 2 that asks for the next level: one obstacle, placed by
    the first level-up, is on it. *)
Definition levelTwoBoard : State :=
  {| gameEnd := false;
     currentShape := None;
     nextShape := initialShape;
     fixedShapes := [newObstacleOf (0, 0)%Q INITIAL_STATE];
     stats := {| level := 2; highScore := 0; score := 20 |};
     dropRate := Block.HEIGHT;
     obstacles := [newObstacleOf (0, 0)%Q INITIAL_STATE];
     levelUp := true |}.

(** Same column and size: what [ScoreAction] leaves of a block it shifts. *)
Definition sameFootprint (b b' : SingleBlock) : Prop :=
  bx b = bx b' /\ bwidth b = bwidth b' /\ bheight b = bheight b'.

(** What the reducer maintains about the [blocks] fields of a state. *)
Definition blocks_invariant (s : State) : Prop :=
  (blocks (nextShape s) = [] /\ fix_ (nextShape s) = false)
  /\ (forall cur, currentShape s = Some cur ->
        fix_ cur = false /\
        (blocks cur = [] \/ renderBlocksFromShape cur = Ok (blocks cur)))
  /\ (forall ob, In ob (obstacles s) ->
        renderBlocksFromShape ob = Ok (blocks ob))
  /\ (forall sh, In sh (fixedShapes s) ->
        exists rendered,
          renderBlocksFromShape sh = Ok rendered /\
          forall b, In b (blocks sh) ->
            exists b', In b' rendered /\ sameFootprint b b').

(** What [replace] returns for an index in range. *)
Definition setNth {A} (k : nat) (item : A) (arr : list A) : list A :=
  firstn k arr ++ item :: skipn (S k) arr.

(** A grid of the given height and width. *)
Definition dims (h w : nat) (g : NumbersMatrix) : Prop :=
  length g = h /\ Forall (fun row => length row = w) g.

(** What one step of [updateGrid] returns for a position in range. *)
Definition mark (col row : nat) (g : NumbersMatrix) : NumbersMatrix :=
  setNth row (setNth col (Num 1) (nth row g [])) g.

Definition markAll (cs : list (nat * nat)) (g : NumbersMatrix) : NumbersMatrix :=
  fold_left (fun acc c => mark (fst c) (snd c) acc) cs g.

(** A grid position at the integer cell [c] of an [h] by [w] grid. *)
Definition atCell (h w : nat) (p : GridPosition) (c : nat * nat) : Prop :=
  gx p == inject_Z (Z.of_nat (fst c)) /\ gy p == inject_Z (Z.of_nat (snd c))
  /\ (fst c < w)%nat /\ (snd c < h)%nat.

(** A block that sits on a cell of the grid. *)
Definition on_grid (b : SingleBlock) : Prop :=
  (0 <= bx b < CANVAS_WIDTH /\ bx b mod Block.WIDTH = 0)
  /\ (0 <= by_ b < CANVAS_HEIGHT /\ by_ b mod Block.HEIGHT = 0).

(** The column and the row of the cell of a block. *)
Definition cellOf (b : SingleBlock) : nat * nat :=
  (Z.to_nat (bx b / Block.WIDTH), Z.to_nat (by_ b / Block.HEIGHT)).

(** Whether some block is at the given column and row. *)
Definition occupied (bs : list SingleBlock) (col row : Z) : bool :=
  existsb (fun b => (bx b =? col * Block.WIDTH) && (by_ b =? row * Block.HEIGHT))
    bs.

(** Whether every column of a row is occupied. *)
Definition rowFull (bs : list SingleBlock) (row : Z) : bool :=
  forallb (fun col => occupied bs col row)
    (map Z.of_nat (seq 0 (Z.to_nat GRID_WIDTH))).

(** The fully occupied rows, from the top of the grid down. *)
Definition fullRows (bs : list SingleBlock) : list Z :=
  filter (rowFull bs) (map Z.of_nat (seq 0 (Z.to_nat GRID_HEIGHT))).

(** The state [ScoreAction] returns when the rows [rows] are full. *)
Definition afterClearing (rows : list Z) (s : State) : State :=
  {| gameEnd := gameEnd s;
     currentShape := currentShape s;
     nextShape := nextShape s;
     fixedShapes :=
       map (fun shape =>
              withBlocks shape
                (adjustBlocks (map (fun index => index * Block.HEIGHT) rows)
                   (blocks shape)))
           (fixedShapes s);
     stats := {| level := level (stats s);
                 highScore := highScore (stats s);
                 score := score (stats s)
                          + Z.of_nat (length rows) * level (stats s) |};
     dropRate := dropRate s;
     obstacles := obstacles s;
     levelUp := levelUp s |}.

(** The position of a block. *)
Definition positionOf (b : SingleBlock) : Z * Z := (bx b, by_ b).

(** The positions of the cells of a row. *)
Definition rowPositions (r : Z) : list (Z * Z) :=
  map (fun col => (20 * Z.of_nat col, r * 20)) (seq 0 10).

(** Deciders for the two conditions on a board, to check sample boards by
    computation. *)
Definition on_gridb (b : SingleBlock) : bool :=
  (0 <=? bx b) && (bx b <? CANVAS_WIDTH) && (bx b mod Block.WIDTH =? 0)
  && (0 <=? by_ b) && (by_ b <? CANVAS_HEIGHT) && (by_ b mod Block.HEIGHT =? 0).

Fixpoint distinctb (l : list (Z * Z)) : bool :=
  match l with
  | [] => true
  | p :: l' =>
      negb (existsb (fun q => (fst p =? fst q) && (snd p =? snd q)) l')
      && distinctb l'
  end.

(** An obstacle with its block, on the cell at the given column and row. *)
Definition obstacleAt (n col row : Z) : Shape :=
  withBlocks (createObstacle n (col * Block.WIDTH) (row * Block.HEIGHT))
    [ {| bx := col * Block.WIDTH; by_ := row * Block.HEIGHT;
         bwidth := Block.WIDTH; bheight := Block.HEIGHT |} ].

(** A board at level 2 whose bottom row is full, with one more block on the
    row above it. *)
Definition bottomRowBoard : State :=
  {| gameEnd := false;
     currentShape := None;
     nextShape := initialShape;
     fixedShapes :=
       map (fun col => obstacleAt (- (col + 1)) col 19)
           (map Z.of_nat (seq 0 10))
       ++ [obstacleAt (-11) 0 18];
     stats := {| level := 2; highScore := 0; score := 3 |};
     dropRate := Block.HEIGHT;
     obstacles := [];
     levelUp := false |}.

(** The state after the first game cycle and the first tick: the initial
    shape has been spawned and has come down by one row. *)
Definition spawnedState : State :=
  Eval vm_compute in
    fromOk (s1 <- apply (GameCycleAction (0, 0)%Q) INITIAL_STATE ;;
            apply TickAction s1).

Definition spawnedShape : Shape :=
  Eval vm_compute in
    fromOk (match currentShape spawnedState with
            | Some cur => Ok cur
            | None => TypeError
            end).



(** A finished game with the spawned shape still on the board. *)
Definition gameOverState : State :=
  {| gameEnd := true;
     currentShape := Some spawnedShape;
     nextShape := nextShape spawnedState;
     fixedShapes := [];
     stats := {| level := 3; highScore := 5; score := 12 |};
     dropRate := Block.HEIGHT;
     obstacles := [];
     levelUp := false |}.

(** The catalog matrix of the L shape. *)
Definition matrixL : NumbersMatrix :=
  numbers [[1; 0; 0];
           [1; 1; 1];
           [0; 0; 0]].

(** Every shape a state holds has a matrix [rotateMatrix] can read. *)
Definition shapes_fit (s : State) : Prop :=
  rows_fit (matrix (type (nextShape s)))
  /\ (forall cur, currentShape s = Some cur -> rows_fit (matrix (type cur)))
  /\ (forall sh, In sh (fixedShapes s) -> rows_fit (matrix (type sh)))
  /\ (forall ob, In ob (obstacles s) -> rows_fit (matrix (type ob))).

(** The first [n] values of the sequence [x, f x, f (f x), ...]. *)
Fixpoint orbit {A} (f : A -> A) (n : nat) (x : A) : list A :=
  match n with
  | O => []
  | S n' => x :: orbit f n' (f x)
  end.

(** [lo <= v <= hi] and [-1 <= v < 1] on floats. *)
Definition within (lo hi v : float) : bool :=
  (PrimFloat.leb lo v && PrimFloat.leb v hi)%bool.

Definition inHalfOpenUnit (v : float) : bool :=
  (PrimFloat.leb (-1) v && PrimFloat.ltb v 1)%bool.

(** What the engine needs of a hash whose scaled value becomes the first
    entry of a pair (a catalog index and a grid column) and the second entry
    (an angle index and a grid row of the lower half). *)
Definition firstEntryFits (hash : float) : bool :=
  let v := RNG64.scale hash in
  (inHalfOpenUnit v
   && within 0 6 (RNG64.scaleToRange v 0 6)
   && within 0 9 (RNG64.scaleToRange v 0 9))%bool.

Definition secondEntryFits (hash : float) : bool :=
  let v := RNG64.scale hash in
  (inHalfOpenUnit v
   && within 0 3 (RNG64.scaleToRange v 0 3)
   && within 10 19 (RNG64.scaleToRange v 10 19))%bool.


(** Whether a double is a number (neither [NaN] nor an infinity), and the
    integer an integer-valued double stands for. *)
Definition isFinite (f : float) : bool :=
  match Prim2SF f with
  | S754_finite _ _ _ => true
  | S754_zero _ => true
  | _ => false
  end.


(** Whether the double [v] is a number of [-1, 1), and whether the rational
    [RNG.scaleToRange] at the value of [v] is the number the binary64
    [RNG64.scaleToRange] returns at [v]. *)
Definition inUnitValue (v : float) : bool :=
  isFinite v && Qle_bool (-1) (valueOf v) && negb (Qle_bool 1 (valueOf v)).

Definition scalesAlike (v : float) (from to : Z) : bool :=
  PrimFloat.eqb
    (RNG64.scaleToRange v (RNG64.ofInteger from) (RNG64.ofInteger to))
    (RNG64.ofInteger (RNG.scaleToRange (valueOf v) from to)).

(** The two conditions on a hash whose scaled value becomes the first entry
    of a pair (scaled to a catalog index and to a grid column) and the second
    entry (scaled to an angle index and to a grid row). *)
Definition firstEntryExact (hash : float) : bool :=
  let v := RNG64.scale hash in
  inUnitValue v && scalesAlike v 0 6 && scalesAlike v 0 9.

Definition secondEntryExact (hash : float) : bool :=
  let v := RNG64.scale hash in
  inUnitValue v && scalesAlike v 0 3 && scalesAlike v 10 19.


(** The block [renderBlocksFromShape] makes of the cell at a row and a column
    of the rotated matrix. *)
Definition blockAt (shape : Shape) (rowIndex colIndex : nat) : SingleBlock :=
  {| bx := x shape + Z.of_nat colIndex * Block.WIDTH;
     by_ := y shape + Z.of_nat rowIndex * Block.HEIGHT;
     bwidth := Block.WIDTH;
     bheight := Block.HEIGHT |}.

(** A block moved by an offset. *)
Definition shifted (dx dy : Z) (b : SingleBlock) : SingleBlock :=
  {| bx := bx b + dx; by_ := by_ b + dy;
     bwidth := bwidth b; bheight := bheight b |}.

(** A block whose row [ScoreAction] can mark in its grid. *)
Definition on_row (b : SingleBlock) : Prop :=
  0 <= by_ b < CANVAS_HEIGHT /\ by_ b mod Block.HEIGHT = 0.

(** A block that is a cell of the grid: on a cell and of its size. *)
Definition gridCell (b : SingleBlock) : Prop :=
  on_grid b /\ bwidth b = Block.WIDTH /\ bheight b = Block.HEIGHT.

Definition gridCellb (b : SingleBlock) : bool :=
  on_gridb b && (bwidth b =? Block.WIDTH) && (bheight b =? Block.HEIGHT).

(** Rows to clear, given by their [y] coordinates: distinct rows of the
    grid. *)
Definition rowsOfGrid (rows : list Z) : Prop :=
  NoDup rows
  /\ Forall (fun r => 0 <= r < CANVAS_HEIGHT /\ r mod Block.HEIGHT = 0) rows.

(** The [y] coordinate [ScoreAction] gives a block of the height of a row at
    [y] when the rows [rows] are cleared. *)
Definition droppedTo (rows : list Z) (y : Z) : Z :=
  y + Block.HEIGHT
      * Z.of_nat (length (filter (fun clearRow => clearRow >? y) rows)).

(** The ids of the first obstacles: -1, -2, ... in the order of their
    creation. *)
Definition obstacleIds (count : nat) : list Z :=
  map (fun i => - Z.of_nat (S i)) (seq 0 count).

(** What the reducer maintains about the statistics, the drop rate, the
    level-up signal and the ids of the shapes of a state. *)
Definition bookkeeping (s : State) : Prop :=
  (1 <= level (stats s) /\ 0 <= score (stats s) /\ 0 <= highScore (stats s))
  /\ dropRate s = Block.HEIGHT
  /\ (levelUp s = true -> level (stats s) * 10 <= score (stats s))
  /\ Z.of_nat (length (obstacles s)) = level (stats s) - 1
  /\ map id (obstacles s) = obstacleIds (length (obstacles s))
  /\ (exists landed,
        map id (fixedShapes s) = map id (obstacles s) ++ landed
        /\ Forall (fun n => 1 <= n) landed)
  /\ 1 <= id (nextShape s)
  /\ (forall cur, currentShape s = Some cur -> 1 <= id cur).

(** A new block is directly above a fixed block, or on the bottom row: the
    test of [isFix]. *)
Definition rests (fixedBlocks newBlocks : list SingleBlock) : Prop :=
  (exists b fb, In b newBlocks /\ In fb fixedBlocks
                /\ bx b = bx fb /\ by_ b = by_ fb - Block.HEIGHT)
  \/ (exists b, In b newBlocks /\ by_ b = CANVAS_HEIGHT - Block.HEIGHT).

(** A pair of rationals in [-1, 1) by [-1, 1). *)
Definition inUnitRange (randomPair : Q * Q) : Prop :=
  (-1 <= fst randomPair < 1)%Q /\ (-1 <= snd randomPair < 1)%Q.

(** The actions the streams emit. *)
Inductive emitted : Action -> Prop :=
| emitted_left :
    emitted (MoveAction {| deltaX := - Block.WIDTH; deltaY := 0 |})
| emitted_right :
    emitted (MoveAction {| deltaX := Block.WIDTH; deltaY := 0 |})
| emitted_down :
    emitted (MoveAction {| deltaX := 0; deltaY := Block.HEIGHT |})
| emitted_rotate : emitted RotateAction
| emitted_tick : emitted TickAction
| emitted_gameCycle : forall n, emitted (GameCycleAction (pairValue n)).

(** A shape the reducer can rasterize and kick: its matrix can be rotated,
    its width is a whole number of columns and it is not fixed. *)
Definition fits (sh : Shape) : Prop :=
  rows_fit (matrix (type sh))
  /\ width sh mod Block.WIDTH = 0
  /\ fix_ sh = false.

(** What the reducer maintains along the actions of the streams: the next
    shape waits without blocks, the current shape is aligned with the grid
    at or below the top row, and the blocks of the current shape, of the
    fixed shapes and of the obstacles are cells of the grid. *)
Definition wellPlaced (s : State) : Prop :=
  (fits (nextShape s) /\ blocks (nextShape s) = [])
  /\ (forall cur, currentShape s = Some cur ->
        fits cur
        /\ x cur mod Block.WIDTH = 0
        /\ 0 <= y cur /\ y cur mod Block.HEIGHT = 0
        /\ Forall gridCell (blocks cur))
  /\ Forall gridCell (allBlocks s)
  /\ Forall gridCell (flat_map blocks (obstacles s))
  /\ dropRate s = Block.HEIGHT.

(** The spawned state after a move to the left, and after a tick. *)
Definition steppedState : State :=
  Eval vm_compute in
    fromOk (apply (MoveAction {| deltaX := -20; deltaY := 0 |}) spawnedState).

Definition tickedState : State :=
  Eval vm_compute in fromOk (apply TickAction spawnedState).

(** A short run of the game: a game cycle, a tick, two key presses and a
    tick, and the states it produces. *)
Definition sampleEmissions : list Emission :=
  [GameCycle 0; Interval; KeyPress "KeyA"; KeyPress "Space"; Interval].

Definition sampleStates : list State :=
  Eval vm_compute in fromOk (main sampleEmissions).

(** The spawned shape lifted by two rows: its blocks are on the row above
    the canvas and on row 0. *)
Definition raisedState : State :=
  Eval vm_compute in
    fromOk (apply (MoveAction {| deltaX := 0; deltaY := -40 |}) spawnedState).

(* ================================================================== *)
(** * Properties *)

(** The layout constants as numerals, for linear arithmetic. *)
Ltac layout :=
  change CANVAS_WIDTH with 200 in *;
  change CANVAS_HEIGHT with 400 in *;
  change Block.WIDTH with 20 in *;
  change Block.HEIGHT with 20 in *;
  change GRID_WIDTH with 10 in *;
  change GRID_HEIGHT with 20 in *.

(** ** Indexed maps *)

Section IndexedMaps.
Context {A B : Type}.

Lemma mapi_length (g : nat -> A -> B) (l : list A) :
  forall k, length (mapi g k l) = length l.
Proof. induction l as [|a l IH]; intros k; simpl; [reflexivity | now rewrite IH]. Qed.

Lemma nth_mapi (g : nat -> A -> B) (da : A) (db : B) (l : list A) :
  forall k i, (i < length l)%nat ->
    nth i (mapi g k l) db = g (k + i)%nat (nth i l da).
Proof.
  induction l as [|a l IH]; intros k i Hi; simpl in *; [lia|].
  destruct i as [|i].
  - now rewrite Nat.add_0_r.
  - rewrite IH by lia. f_equal. lia.
Qed.

Lemma mapi_res_ok (f : nat -> A -> Result B) (g : nat -> A -> B)
  (l : list A) :
  forall k,
    (forall i a, nth_error l i = Some a -> f (k + i)%nat a = Ok (g (k + i)%nat a)) ->
    mapi_res f k l = Ok (mapi g k l).
Proof.
  induction l as [|a l IH]; intros k H; simpl; [reflexivity|].
  rewrite <- (Nat.add_0_r k) at 1.
  rewrite (H 0%nat a eq_refl). simpl.
  rewrite IH.
  - simpl. now rewrite Nat.add_0_r.
  - intros i b Hb. specialize (H (S i) b Hb).
    now replace (S k + i)%nat with (k + S i)%nat by lia.
Qed.

End IndexedMaps.

(** ** Rotation of matrices *)

Lemma index_in_range {A} (l : list A) (d : A) (k : nat) :
  (k < length l)%nat -> index l (Z.of_nat k) = Some (nth k l d).
Proof.
  intros Hk. unfold index.
  destruct (Z.ltb_spec (Z.of_nat k) 0); [lia|].
  rewrite Nat2Z.id. now apply nth_error_nth'.
Qed.

Lemma rotateMatrix_rows_fit (mx : NumbersMatrix) :
  rows_fit mx -> rotateMatrix mx = Ok (rotated mx).
Proof.
  intros Hfit. unfold rotateMatrix, rotated.
  apply mapi_res_ok. intros i row Hrow.
  apply mapi_res_ok. intros j c Hc. simpl.
  assert (Hlen : (length row <= length mx)%nat).
  { unfold rows_fit in Hfit. rewrite Forall_forall in Hfit.
    apply Hfit. eapply nth_error_In; eauto. }
  assert (Hj : (j < length row)%nat).
  { apply nth_error_Some. congruence. }
  replace (Z.of_nat (length mx) - Z.of_nat j - 1)
    with (Z.of_nat (length mx - 1 - j)) by lia.
  rewrite (index_in_range mx []) by lia.
  reflexivity.
Qed.

Lemma rotated_length (mx : NumbersMatrix) : length (rotated mx) = length mx.
Proof. apply mapi_length. Qed.

Lemma rotated_row_length (mx : NumbersMatrix) (i : nat) :
  length (nth i (rotated mx) []) = length (nth i mx []).
Proof.
  destruct (Nat.lt_ge_cases i (length mx)) as [Hi|Hi].
  - unfold rotated. rewrite (nth_mapi _ [] []) by assumption.
    apply mapi_length.
  - rewrite !nth_overflow; [reflexivity | assumption |].
    now rewrite rotated_length.
Qed.

Lemma Forall_rows_nth (P : nat -> Prop) (mx : NumbersMatrix) :
  Forall (fun row => P (length row)) mx <->
  (forall i, (i < length mx)%nat -> P (length (nth i mx []))).
Proof.
  rewrite Forall_forall. split.
  - intros H i Hi. apply H. now apply nth_In.
  - intros H row Hin. destruct (In_nth _ _ [] Hin) as (i & Hi & <-). now apply H.
Qed.

Lemma rotated_rows_fit (mx : NumbersMatrix) :
  rows_fit mx -> rows_fit (rotated mx).
Proof.
  unfold rows_fit. intros H.
  apply (Forall_rows_nth (fun l => (l <= length (rotated mx))%nat)).
  intros i Hi. rewrite rotated_length in *. rewrite rotated_row_length.
  now apply (Forall_rows_nth (fun l => (l <= length mx)%nat)).
Qed.

Lemma rotated_square (n : nat) (mx : NumbersMatrix) :
  square n mx -> square n (rotated mx).
Proof.
  intros [Hn Hrows]. split; [now rewrite rotated_length|].
  apply (Forall_rows_nth (fun l => l = n)).
  intros i Hi. rewrite rotated_length in Hi. rewrite rotated_row_length.
  now apply (Forall_rows_nth (fun l => l = n)).
Qed.

Lemma square_rows_fit (n : nat) (mx : NumbersMatrix) :
  square n mx -> rows_fit mx.
Proof.
  intros [Hn Hrows]. unfold rows_fit.
  eapply Forall_impl; [|exact Hrows]. simpl. intros row ->. lia.
Qed.

Lemma cell_rotated (n : nat) (mx : NumbersMatrix) (i j : nat) :
  square n mx -> (i < n)%nat -> (j < n)%nat ->
  cell (rotated mx) i j = cell mx (n - 1 - j) i.
Proof.
  intros [Hn Hrows] Hi Hj. unfold cell at 1. unfold rotated.
  rewrite (nth_mapi _ [] []) by lia.
  assert (Hrow : length (nth i mx []) = n).
  { apply (Forall_rows_nth (fun l => l = n)); [assumption | lia]. }
  rewrite (nth_mapi _ Undef Undef) by lia.
  simpl. now rewrite Hn.
Qed.

Lemma square_ext (n : nat) (m1 m2 : NumbersMatrix) :
  square n m1 -> square n m2 ->
  (forall i j, (i < n)%nat -> (j < n)%nat -> cell m1 i j = cell m2 i j) ->
  m1 = m2.
Proof.
  intros [H1 R1] [H2 R2] Hcell.
  apply (nth_ext m1 m2 [] []); [congruence|].
  intros i Hi.
  assert (L1 : length (nth i m1 []) = n).
  { apply (Forall_rows_nth (fun l => l = n)); assumption. }
  assert (L2 : length (nth i m2 []) = n).
  { apply (Forall_rows_nth (fun l => l = n)); [assumption | lia]. }
  apply (nth_ext _ _ Undef Undef); [congruence|].
  intros j Hj. apply Hcell; lia.
Qed.

Lemma rotated_four_times (n : nat) (mx : NumbersMatrix) :
  square n mx -> rotated (rotated (rotated (rotated mx))) = mx.
Proof.
  intros Hsq.
  pose proof (rotated_square Hsq) as S1.
  pose proof (rotated_square S1) as S2.
  pose proof (rotated_square S2) as S3.
  pose proof (rotated_square S3) as S4.
  apply (square_ext S4 Hsq). intros i j Hi Hj.
  rewrite (cell_rotated S3), (cell_rotated S2), (cell_rotated S1),
    (cell_rotated Hsq) by lia.
  f_equal; lia.
Qed.

Lemma rotateTimes_rows_fit (k : nat) :
  forall mx, rows_fit mx ->
    rotateTimes k mx = Ok (Nat.iter k rotated mx) /\
    rows_fit (Nat.iter k rotated mx).
Proof.
  induction k as [|k IH]; intros mx Hfit; simpl.
  - now split.
  - rewrite rotateMatrix_rows_fit by assumption. simpl.
    destruct (IH (rotated mx) (rotated_rows_fit Hfit)) as [E F].
    rewrite E. rewrite <- !Nat.iter_succ_r. simpl. rewrite <- Nat.iter_succ_r in F. now split.
Qed.

(** C9. A square matrix (every catalog matrix is one) is returned unchanged
    by four successive calls of [rotateMatrix], none of which throws, and
    [rotateMatrixNTimes(4)] returns its argument. *)
Theorem rotate_four_times_identity (n : nat) (mx : NumbersMatrix)
  (Hsq : square n mx) :
  (m1 <- rotateMatrix mx ;; m2 <- rotateMatrix m1 ;;
   m3 <- rotateMatrix m2 ;; rotateMatrix m3) = Ok mx
  /\ rotateMatrixNTimes 4 mx = Ok mx.
Proof.
  split; [|reflexivity].
  pose proof (rotated_square Hsq) as S1.
  pose proof (rotated_square S1) as S2.
  pose proof (rotated_square S2) as S3.
  rewrite (rotateMatrix_rows_fit (square_rows_fit Hsq)). simpl.
  rewrite (rotateMatrix_rows_fit (square_rows_fit S1)). simpl.
  rewrite (rotateMatrix_rows_fit (square_rows_fit S2)). simpl.
  rewrite (rotateMatrix_rows_fit (square_rows_fit S3)).
  f_equal. now apply rotated_four_times with (n := n).
Qed.

(** ** The random number generator *)

(** The exact generator and the binary64 generator on the first seed of
    the source: the product exceeds 2^53 and is rounded. *)
Lemma hash_of_first_seed :
  RNG.hash Seed.RNG_SEED_1 = 1503720269
  /\ RNG64.hash 16012004%float = 1503720268%float
  /\ RNG64.hash 230538014%float = 0%float.
Proof. repeat split; vm_compute; reflexivity. Qed.

Lemma orbit_iter {A} (f : A -> A) (n : nat) :
  forall k x, (k < n)%nat -> In (Nat.iter k f x) (orbit f n x).
Proof.
  induction n as [|n IH]; intros k x Hk; [lia|].
  destruct k as [|k]; [now left|].
  right. rewrite Nat.iter_succ_r. apply IH. lia.
Qed.

Lemma eventually_periodic {A} (f : A -> A) (x : A) (p q : nat) :
  (q < p)%nat -> Nat.iter p f x = Nat.iter q f x ->
  forall n, exists k, (k < p)%nat /\ Nat.iter n f x = Nat.iter k f x.
Proof.
  intros Hqp Hloop n. induction n as [n IH] using lt_wf_ind.
  destruct (Nat.lt_ge_cases n p) as [Hn|Hn]; [now exists n|].
  replace n with ((n - p) + p)%nat by lia.
  rewrite Nat.iter_add, Hloop, <- Nat.iter_add.
  apply IH. lia.
Qed.

(** The two streams of the source, in binary64 arithmetic: each becomes
    periodic, so every hash it ever yields is among its first ones. *)
Lemma first_stream_hash (n : nat) :
  In (Nat.iter n RNG64.hash 16012004%float)
     (orbit RNG64.hash (Z.to_nat 18845) 16012004%float).
Proof.
  destruct (@eventually_periodic _ RNG64.hash 16012004%float
              (Z.to_nat 18845) (Z.to_nat 8379))
    with (n := n) as (k & Hk & ->);
    [lia | vm_compute; reflexivity |].
  now apply orbit_iter.
Qed.

Lemma second_stream_hash (n : nat) :
  In (Nat.iter n RNG64.hash 19082004%float)
     (orbit RNG64.hash (Z.to_nat 13597) 19082004%float).
Proof.
  destruct (@eventually_periodic _ RNG64.hash 19082004%float
              (Z.to_nat 13597) (Z.to_nat 3131))
    with (n := n) as (k & Hk & ->);
    [lia | vm_compute; reflexivity |].
  now apply orbit_iter.
Qed.



(** ** Rasterization *)

Lemma rotateMatrixNTimes_rows_fit (times : Q) (mx : NumbersMatrix) :
  rows_fit mx -> exists mx', rotateMatrixNTimes times mx = Ok mx'.
Proof.
  intros Hfit. unfold rotateMatrixNTimes.
  destruct (rotateTimes_rows_fit (Z.to_nat (toInteger (jsRem times 4))) Hfit)
    as [E _].
  eauto.
Qed.

Lemma renderBlocksFromShape_rows_fit (shape : Shape) :
  rows_fit (matrix (type shape)) ->
  exists newBlocks, renderBlocksFromShape shape = Ok newBlocks.
Proof.
  intros Hfit. unfold renderBlocksFromShape.
  destruct (rotateMatrixNTimes_rows_fit
              (jsRem (inject_Z (angle shape) / 90) 4) Hfit) as [mx' E].
  rewrite E. simpl. eauto.
Qed.

Lemma catalog_square :
  Forall (fun t => exists n, square n (matrix t)) ALL_SHAPE_TYPES.
Proof.
  repeat constructor;
    first [ exists 4%nat; split; [reflexivity | repeat constructor]
          | exists 3%nat; split; [reflexivity | repeat constructor] ].
Qed.

(** ** updateShape *)

Lemma canUpdate_true (fixedBlocks newBlocks : list SingleBlock) :
  canUpdate fixedBlocks newBlocks = true ->
  Forall in_canvas newBlocks /\
  (forall b fb, In b newBlocks -> In fb fixedBlocks -> ~ coincide b fb).
Proof.
  unfold canUpdate. intros H.
  apply andb_true_iff in H. destruct H as [Hno Hin]. split.
  - apply Forall_forall. intros b Hb.
    rewrite forallb_forall in Hin. specialize (Hin b Hb).
    apply andb_true_iff in Hin. destruct Hin as [Hin Hy].
    apply andb_true_iff in Hin. destruct Hin as [Hx0 Hx1].
    unfold in_canvas. lia.
  - intros b fb Hb Hfb [Ex Ey].
    apply negb_true_iff in Hno.
    assert (Hex : existsb (fun block1 =>
                    existsb (fun block2 =>
                      (bx block1 =? bx block2) && (by_ block1 =? by_ block2))
                      fixedBlocks) newBlocks = true).
    { apply existsb_exists. exists b. split; [assumption|].
      apply existsb_exists. exists fb. split; [assumption|].
      apply andb_true_iff. split; lia. }
    congruence.
Qed.

(** C1. For a candidate whose matrix [rotateMatrix] can read (every catalog
    shape and every obstacle), [updateShape] returns without an error.  When
    it accepts the candidate (the candidate is not fixed and [canUpdate]
    holds) the returned shape carries the freshly rendered blocks, each of
    them has [0 <= x < CANVAS_WIDTH] and [y < CANVAS_HEIGHT], and none is at
    the position of a block of [s.fixedShapes]; when it rejects it, the
    result is [s.currentShape]. *)
Theorem updateShape_accepts_or_keeps (s : State) (c : Shape)
  (Hfit : rows_fit (matrix (type c))) :
  exists newBlocks,
    renderBlocksFromShape c = Ok newBlocks /\
    let accepted := negb (fix_ c) && canUpdate (allBlocks s) newBlocks in
    (accepted = true ->
       exists r, updateShape s c = Ok (Some r) /\
         r = withBlocksFix c newBlocks (isFix (allBlocks s) newBlocks) /\
         Forall in_canvas (blocks r) /\
         (forall b fb, In b (blocks r) -> In fb (allBlocks s) ->
                       ~ coincide b fb)) /\
    (accepted = false -> updateShape s c = Ok (currentShape s)).
Proof.
  destruct (renderBlocksFromShape_rows_fit c Hfit) as [newBlocks E].
  exists newBlocks. split; [assumption|]. simpl. split.
  - intros Hacc. apply andb_true_iff in Hacc. destruct Hacc as [Hfix Hcan].
    apply negb_true_iff in Hfix.
    eexists. split.
    + unfold updateShape. rewrite Hfix, E. simpl. rewrite Hcan. reflexivity.
    + split; [reflexivity|]. simpl. now apply canUpdate_true.
  - intros Hrej. unfold updateShape.
    destruct (fix_ c); [reflexivity|].
    rewrite E. simpl. simpl in Hrej. now rewrite Hrej.
Qed.

(** ** Wall kicks *)






(** ** The reducer after the end of the game *)

Lemma updateShape_rows_fit (s : State) (c : Shape) :
  rows_fit (matrix (type c)) -> exists r, updateShape s c = Ok r.
Proof.
  intros Hfit. unfold updateShape.
  destruct (fix_ c); [eauto|].
  destruct (renderBlocksFromShape_rows_fit c Hfit) as [newBlocks E].
  rewrite E. simpl. eauto.
Qed.

Lemma updateStateWithNewShape_gameEnd (s : State) (c : Shape) :
  gameEnd s = true ->
  (forall s', updateStateWithNewShape s c = Ok s' -> s' = s)
  /\ (rows_fit (matrix (type c)) -> updateStateWithNewShape s c = Ok s).
Proof.
  intros Hend. unfold updateStateWithNewShape. rewrite Hend. split.
  - intros s'. destruct (updateShape s c); simpl; congruence.
  - intros Hfit. destruct (updateShape_rows_fit s c Hfit) as [r ->].
    reflexivity.
Qed.

Lemma rotateKickShape_type (shape : Shape) :
  type (rotateKickShape shape) = type shape.
Proof.
  unfold rotateKickShape. simpl.
  unfold kickShapeRightWall, kickShapeLeftWall.
  repeat match goal with
         | |- context [if ?b then _ else _] => destruct b
         end; reflexivity.
Qed.

(** C10. Once [gameEnd] is set, [MoveAction] (for any movement) and
    [RotateAction] return the state they were given: with a current shape
    whose matrix [rotateMatrix] can read (every catalog shape) they return,
    and whatever they return is the input state. *)
Theorem move_and_rotate_ignored_after_game_end (s : State) (movement : Movement)
  (Hend : gameEnd s = true)
  (Hfit : forall cur, currentShape s = Some cur -> rows_fit (matrix (type cur))) :
  MoveAction_apply movement s = Ok s
  /\ RotateAction_apply s = Ok s
  /\ (forall c, rows_fit (matrix (type c)) -> updateStateWithNewShape s c = Ok s).
Proof.
  unfold MoveAction_apply, RotateAction_apply.
  destruct (currentShape s) as [cur|] eqn:Ecur.
  - specialize (Hfit cur eq_refl). repeat split.
    + apply updateStateWithNewShape_gameEnd; assumption.
    + apply updateStateWithNewShape_gameEnd; [assumption|].
      now rewrite rotateKickShape_type.
    + intros c Hc. now apply updateStateWithNewShape_gameEnd.
  - repeat split. intros c Hc. now apply updateStateWithNewShape_gameEnd.
Qed.

(** ** End of the game and restart *)

(** C7 (as the code has it). Without a current shape [EndGameAction]
    returns its input.  With one, it touches the [gameEnd] flag only, and
    the flag is set exactly when every block of the current shape has
    [y - height < 0], that is a top edge [y] less than one block height below
    the top of the canvas: for blocks aligned with the grid, when every block
    is on row 0 or above it.  A current shape without blocks sets the
    flag. *)
Theorem end_game_sets_flag (s : State) :
  match currentShape s with
  | None => EndGameAction_apply s = s
  | Some cur =>
      (gameEnd (EndGameAction_apply s) = true <->
       forall b, In b (blocks cur) -> by_ b < bheight b)
      /\ (Forall (fun b => by_ b mod Block.HEIGHT = 0
                           /\ bheight b = Block.HEIGHT) (blocks cur) ->
          (gameEnd (EndGameAction_apply s) = true <->
           forall b, In b (blocks cur) -> by_ b <= 0))
      /\ (blocks cur = [] -> gameEnd (EndGameAction_apply s) = true)
      /\ currentShape (EndGameAction_apply s) = currentShape s
      /\ nextShape (EndGameAction_apply s) = nextShape s
      /\ fixedShapes (EndGameAction_apply s) = fixedShapes s
      /\ stats (EndGameAction_apply s) = stats s
      /\ dropRate (EndGameAction_apply s) = dropRate s
      /\ obstacles (EndGameAction_apply s) = obstacles s
      /\ levelUp (EndGameAction_apply s) = levelUp s
  end.
Proof.
  unfold EndGameAction_apply.
  destruct (currentShape s) as [cur|] eqn:Hcur; [|reflexivity].
  cbn [withGameEnd gameEnd currentShape nextShape fixedShapes stats dropRate
       obstacles levelUp].
  assert (Hflag : forallb (fun block => by_ block - bheight block <? 0)
                    (blocks cur) = true
                  <-> forall b, In b (blocks cur) -> by_ b < bheight b).
  { rewrite forallb_forall.
    split; intros H b Hb; specialize (H b Hb); lia. }
  split; [exact Hflag|]. split; [|split].
  - intros Hgrid. rewrite Hflag. rewrite Forall_forall in Hgrid.
    split; intros H b Hb; specialize (H b Hb);
      destruct (Hgrid b Hb) as [Hm Hh]; rewrite Hh in *;
      change Block.HEIGHT with 20 in *.
    + assert (E : by_ b = 20 * (by_ b / 20))
        by (apply Z_div_exact_full_2; [discriminate | assumption]).
      lia.
    + lia.
  - intros Hnone. apply Hflag. rewrite Hnone. intros b [].
  - repeat split; auto.
Qed.

(** The claim of C7 as worded, "every block has its top edge above row 0",
    fails on a state of the reducer: the spawned shape lifted by two rows
    has two blocks above the canvas and two blocks with their top edge on
    row 0 ([y = 0]), and [EndGameAction] sets [gameEnd]. *)
Lemma end_game_with_blocks_on_row_zero :
  exists cur,
    currentShape raisedState = Some cur
    /\ blocks cur
       = [ {| bx := 80; by_ := -20; bwidth := 20; bheight := 20 |};
           {| bx := 100; by_ := -20; bwidth := 20; bheight := 20 |};
           {| bx := 60; by_ := 0; bwidth := 20; bheight := 20 |};
           {| bx := 80; by_ := 0; bwidth := 20; bheight := 20 |} ]
    /\ gameEnd (EndGameAction_apply raisedState) = true
    /\ ~ (forall b, In b (blocks cur) -> by_ b < 0).
Proof.
  eexists. split; [reflexivity|]. split; [reflexivity|].
  split; [reflexivity|].
  intros H.
  specialize (H {| bx := 60; by_ := 0; bwidth := 20; bheight := 20 |}).
  cbn in H. assert (0 < 0) by (apply H; auto). lia.
Qed.

Lemma highScore_is_max (h sc : Z) :
  (if h >? sc then h else sc) = Z.max h sc.
Proof. destruct (Z.gtb_spec h sc); lia. Qed.

(** C8. With [gameEnd] set and [levelUp] clear, [GameCycleAction] runs
    [RestartGameAction]: the result is [INITIAL_STATE] in every field but the
    statistics, which are score 0, level 1 and the larger of the previous
    high score and the previous score; [gameEnd] is false. *)
Theorem game_cycle_restarts (randomPair : Q * Q) (s : State)
  (Hend : gameEnd s = true) (Hlvl : levelUp s = false) :
  GameCycleAction_apply randomPair s = Ok (RestartGameAction_apply s)
  /\ RestartGameAction_apply s =
     {| gameEnd := false;
        currentShape := currentShape INITIAL_STATE;
        nextShape := nextShape INITIAL_STATE;
        fixedShapes := fixedShapes INITIAL_STATE;
        stats := {| level := 1;
                    highScore := Z.max (highScore (stats s)) (score (stats s));
                    score := 0 |};
        dropRate := dropRate INITIAL_STATE;
        obstacles := obstacles INITIAL_STATE;
        levelUp := levelUp INITIAL_STATE |}.
Proof.
  unfold GameCycleAction_apply, RestartGameAction_apply.
  rewrite Hlvl, Hend. split; [reflexivity|].
  now rewrite highScore_is_max.
Qed.

(** ** Level up *)

Lemma renderBlocksFromShape_obstacle (n ox oy : Z) :
  renderBlocksFromShape (createObstacle n ox oy)
  = Ok [ {| bx := ox; by_ := oy;
            bwidth := Block.WIDTH; bheight := Block.HEIGHT |} ].
Proof.
  unfold renderBlocksFromShape, createObstacle. cbn.
  now rewrite !Z.add_0_r.
Qed.

(** C4, as the code has it.  With [levelUp] set, [GameCycleAction] runs
    [NextLevelAction], which returns [INITIAL_STATE] with the level
    incremented, score and high score kept, and exactly one new obstacle
    appended to the previous obstacles; [fixedShapes] is set to that same
    array of obstacles. *)
Theorem next_level_adds_one_obstacle (randomPair : Q * Q) (s : State)
  (Hlvl : levelUp s = true) :
  GameCycleAction_apply randomPair s = NextLevelAction_apply randomPair s
  /\ NextLevelAction_apply randomPair s =
     Ok {| gameEnd := gameEnd INITIAL_STATE;
           currentShape := currentShape INITIAL_STATE;
           nextShape := nextShape INITIAL_STATE;
           fixedShapes := obstacles s ++ [newObstacleOf randomPair s];
           stats := {| level := level (stats s) + 1;
                       highScore := highScore (stats s);
                       score := score (stats s) |};
           dropRate := dropRate INITIAL_STATE;
           obstacles := obstacles s ++ [newObstacleOf randomPair s];
           levelUp := levelUp INITIAL_STATE |}.
Proof.
  unfold GameCycleAction_apply, NextLevelAction_apply. rewrite Hlvl.
  split; [reflexivity|].
  unfold addObstacle. rewrite renderBlocksFromShape_obstacle. reflexivity.
Qed.

(** C4 fails as stated: at level 2 [NextLevelAction] places one new
    obstacle, not two. *)
Lemma next_level_places_one_obstacle_at_level_two :
  levelUp levelTwoBoard = true
  /\ level (stats levelTwoBoard) = 2
  /\ exists s', NextLevelAction_apply (0, 0)%Q levelTwoBoard = Ok s'
       /\ obstacles s' = obstacles levelTwoBoard
                         ++ [newObstacleOf (0, 0)%Q levelTwoBoard]
       /\ fixedShapes s' = obstacles s'
       /\ Z.of_nat (length (obstacles s'))
          <> Z.of_nat (length (obstacles levelTwoBoard))
             + level (stats levelTwoBoard).
Proof.
  split; [reflexivity|]. split; [reflexivity|].
  eexists. split; [vm_compute; reflexivity|].
  split; [reflexivity|]. split; [reflexivity|]. simpl. lia.
Qed.

(** ** The blocks of the shapes a state holds *)

Lemma sameFootprint_refl (b : SingleBlock) : sameFootprint b b.
Proof. repeat split. Qed.

Lemma createShape_blocks (randomPair : Q * Q) (n : Z) (sh : Shape) :
  createShape randomPair n = Ok sh -> blocks sh = [] /\ fix_ sh = false.
Proof.
  unfold createShape. intros H.
  repeat match type of H with
         | match ?e with _ => _ end = _ => destruct e; try discriminate
         end.
  injection H as <-. now split.
Qed.

(** The four parts of [blocks_invariant]. *)
Ltac invariant_parts := split; [|split; [|split]].

Lemma blocks_invariant_initial : blocks_invariant INITIAL_STATE.
Proof.
  invariant_parts; simpl.
  - now split.
  - discriminate.
  - intros ? [].
  - intros ? [].
Qed.

Lemma blocks_invariant_addShape (randomPair : Q * Q) (s s' : State) :
  blocks_invariant s -> AddShapeAction_apply randomPair s = Ok s' ->
  blocks_invariant s'.
Proof.
  intros ([Hn Hnf] & Hc & Ho & Hf). unfold AddShapeAction_apply.
  destruct (createShape _ _) as [newShape| |] eqn:E; try discriminate.
  simpl. intros H. injection H as <-.
  destruct (createShape_blocks _ _ E) as [B F].
  split; [now split|]. split; [|now split].
  simpl. intros cur Hcur. injection Hcur as <-. simpl. split; [assumption|].
  now left.
Qed.

Lemma blocks_invariant_update (s s' : State) (c : Shape) :
  blocks_invariant s -> updateStateWithNewShape s c = Ok s' ->
  blocks_invariant s'.
Proof.
  intros Hinv. pose proof Hinv as (Hn & Hc & Ho & Hf).
  unfold updateStateWithNewShape.
  destruct (updateShape s c) as [r| |] eqn:E; try discriminate. simpl.
  destruct (gameEnd s); [intros H; injection H as <-; assumption|].
  destruct r as [r|]; [|intros H; injection H as <-; assumption].
  assert (Hr : (currentShape s = Some r) \/
               (exists newBlocks, renderBlocksFromShape c = Ok newBlocks /\
                  r = withBlocksFix c newBlocks (isFix (allBlocks s) newBlocks))).
  { unfold updateShape in E. destruct (fix_ c).
    - left. congruence.
    - destruct (renderBlocksFromShape c) as [newBlocks| |] eqn:R;
        try discriminate.
      simpl in E. destruct (canUpdate (allBlocks s) newBlocks).
      + right. exists newBlocks. split; [reflexivity | congruence].
      + left. congruence. }
  destruct Hr as [Hold | (newBlocks & R & ->)].
  - destruct (Hc r Hold) as [Fr _]. rewrite Fr.
    intros H. injection H as <-.
    invariant_parts; simpl; try assumption.
    intros cur Hcur. injection Hcur as <-. now apply Hc.
  - cbn [fix_ withBlocksFix].
    destruct (isFix (allBlocks s) newBlocks); intros H; injection H as <-.
    + invariant_parts; simpl; try assumption; [discriminate|].
      intros sh Hsh. apply in_app_or in Hsh. destruct Hsh as [Hsh|[<-|[]]].
      * now apply Hf.
      * exists newBlocks. split; [exact R|]. simpl.
        intros b Hb. exists b. split; [assumption | apply sameFootprint_refl].
    + invariant_parts; simpl; try assumption.
      intros cur Hcur. injection Hcur as <-. simpl. split; [reflexivity|].
      right. exact R.
Qed.

Lemma blocks_invariant_move (movement : Movement) (s s' : State) :
  blocks_invariant s -> MoveAction_apply movement s = Ok s' ->
  blocks_invariant s'.
Proof.
  intros Hinv. unfold MoveAction_apply.
  destruct (currentShape s).
  - now apply blocks_invariant_update.
  - intros H. now injection H as <-.
Qed.

Lemma blocks_invariant_rotate (s s' : State) :
  blocks_invariant s -> RotateAction_apply s = Ok s' -> blocks_invariant s'.
Proof.
  intros Hinv. unfold RotateAction_apply.
  destruct (currentShape s).
  - now apply blocks_invariant_update.
  - intros H. now injection H as <-.
Qed.

Lemma adjustBlocks_footprint (rows : list Z) (bs : list SingleBlock)
  (b : SingleBlock) :
  In b (adjustBlocks rows bs) ->
  exists b0, In b0 bs /\ sameFootprint b b0.
Proof.
  unfold adjustBlocks. intros Hb.
  apply in_map_iff in Hb. destruct Hb as (b0 & <- & Hb0).
  apply filter_In in Hb0. destruct Hb0 as [Hb0 _].
  exists b0. split; [assumption | repeat split].
Qed.

Lemma blocks_invariant_score (s s' : State) :
  blocks_invariant s -> ScoreAction_apply s = Ok s' -> blocks_invariant s'.
Proof.
  intros (Hn & Hc & Ho & Hf). unfold ScoreAction_apply.
  destruct (constructGrid _ _ _) as [grid| |]; try discriminate. simpl.
  intros H. injection H as <-.
  invariant_parts; simpl; try assumption.
  intros sh' Hsh'. apply in_map_iff in Hsh'. destruct Hsh' as (sh & <- & Hsh).
  destruct (Hf sh Hsh) as (rendered & R & Hfoot).
  exists rendered. split; [exact R|]. simpl.
  intros b Hb. apply adjustBlocks_footprint in Hb.
  destruct Hb as (b0 & Hb0 & (E1 & E2 & E3)).
  destruct (Hfoot b0 Hb0) as (b' & Hb' & (F1 & F2 & F3)).
  exists b'. split; [assumption|]. repeat split; congruence.
Qed.

Lemma blocks_invariant_endGame (s : State) :
  blocks_invariant s -> blocks_invariant (EndGameAction_apply s).
Proof.
  intros Hinv. unfold EndGameAction_apply.
  destruct (currentShape s) eqn:E; [|assumption].
  destruct Hinv as (Hn & Hc & Ho & Hf).
  invariant_parts; simpl; assumption.
Qed.

Lemma blocks_invariant_restart (s : State) :
  blocks_invariant s -> blocks_invariant (RestartGameAction_apply s).
Proof.
  intros Hinv. unfold RestartGameAction_apply.
  destruct (gameEnd s); [|assumption].
  apply blocks_invariant_initial.
Qed.

Lemma blocks_invariant_checkLevelUp (s : State) :
  blocks_invariant s -> blocks_invariant (CheckLevelUpAction_apply s).
Proof.
  intros (Hn & Hc & Ho & Hf). invariant_parts; simpl; assumption.
Qed.

Lemma blocks_invariant_nextLevel (randomPair : Q * Q) (s s' : State) :
  blocks_invariant s -> NextLevelAction_apply randomPair s = Ok s' ->
  blocks_invariant s'.
Proof.
  intros Hinv. unfold NextLevelAction_apply.
  destruct (levelUp s); [|intros H; now injection H as <-].
  destruct Hinv as (Hn & Hc & Ho & Hf).
  unfold addObstacle. rewrite renderBlocksFromShape_obstacle. simpl.
  intros H. injection H as <-.
  assert (Hobs : forall ob,
            In ob (obstacles s ++
                   [withBlocks
                      (createObstacle (- (Z.of_nat (length (obstacles s)) + 1))
                         (RNG.scaleToRange (fst randomPair) 0 (GRID_WIDTH - 1)
                          * Block.WIDTH)
                         (RNG.scaleToRange (snd randomPair) (GRID_HEIGHT / 2)
                            (GRID_HEIGHT - 1) * Block.HEIGHT))
                      [ {| bx := RNG.scaleToRange (fst randomPair) 0
                                   (GRID_WIDTH - 1) * Block.WIDTH;
                           by_ := RNG.scaleToRange (snd randomPair)
                                    (GRID_HEIGHT / 2) (GRID_HEIGHT - 1)
                                  * Block.HEIGHT;
                           bwidth := Block.WIDTH;
                           bheight := Block.HEIGHT |} ]]) ->
            renderBlocksFromShape ob = Ok (blocks ob)).
  { intros ob Hob. apply in_app_or in Hob. destruct Hob as [Hob|[<-|[]]].
    - now apply Ho.
    - apply renderBlocksFromShape_obstacle. }
  invariant_parts; simpl; try assumption; [now split | discriminate |].
  intros sh Hsh. exists (blocks sh). split; [now apply Hobs|].
  intros b Hb. exists b. split; [assumption | apply sameFootprint_refl].
Qed.

Lemma blocks_invariant_tick (s s' : State) :
  blocks_invariant s -> TickAction_apply s = Ok s' -> blocks_invariant s'.
Proof.
  intros Hinv. unfold TickAction_apply.
  destruct (gameEnd s || levelUp s); [intros H; now injection H as <-|].
  simpl.
  destruct (MoveAction_apply _ _) as [s2| |] eqn:E2; try discriminate. simpl.
  destruct (ScoreAction_apply s2) as [s3| |] eqn:E3; try discriminate. simpl.
  intros H. injection H as <-.
  apply blocks_invariant_endGame.
  eapply blocks_invariant_score; [|eassumption].
  eapply blocks_invariant_move; [|eassumption].
  now apply blocks_invariant_checkLevelUp.
Qed.

Lemma blocks_invariant_gameCycle (randomPair : Q * Q) (s s' : State) :
  blocks_invariant s -> GameCycleAction_apply randomPair s = Ok s' ->
  blocks_invariant s'.
Proof.
  intros Hinv. unfold GameCycleAction_apply.
  destruct (levelUp s); [now apply blocks_invariant_nextLevel|].
  destruct (gameEnd s).
  - intros H. injection H as <-. now apply blocks_invariant_restart.
  - now apply blocks_invariant_addShape.
Qed.

Lemma blocks_invariant_step (action : Action) (s s' : State) :
  blocks_invariant s -> reduceState s action = Ok s' -> blocks_invariant s'.
Proof.
  intros Hinv. unfold reduceState, apply. destruct action.
  - now apply blocks_invariant_addShape.
  - now apply blocks_invariant_move.
  - now apply blocks_invariant_rotate.
  - now apply blocks_invariant_score.
  - intros H. injection H as <-. now apply blocks_invariant_endGame.
  - intros H. injection H as <-. now apply blocks_invariant_restart.
  - intros H. injection H as <-. now apply blocks_invariant_checkLevelUp.
  - now apply blocks_invariant_nextLevel.
  - now apply blocks_invariant_tick.
  - now apply blocks_invariant_gameCycle.
Qed.

(** C5, as the code has it.  In every reachable state the next shape has no
    blocks; a current shape has either no blocks (it was just spawned) or
    exactly the blocks of its rasterization; every obstacle has exactly the
    blocks of its rasterization; and every block of a fixed shape has the
    column and size of a block of the shape's rasterization. *)
Theorem reachable_blocks_invariant (s : State) :
  reachable s -> blocks_invariant s.
Proof.
  induction 1 as [|s action s' Hreach IH Hstep].
  - apply blocks_invariant_initial.
  - eapply blocks_invariant_step; eassumption.
Qed.

(** C5 fails as stated: the next shape of the initial state has no blocks,
    while its rasterization has four. *)
Lemma initial_next_shape_not_rasterized :
  reachable INITIAL_STATE
  /\ blocks (nextShape INITIAL_STATE) = []
  /\ renderBlocksFromShape (nextShape INITIAL_STATE)
     = Ok [ {| bx := 60; by_ := 0; bwidth := 20; bheight := 20 |};
            {| bx := 80; by_ := 0; bwidth := 20; bheight := 20 |};
            {| bx := 40; by_ := 20; bwidth := 20; bheight := 20 |};
            {| bx := 60; by_ := 20; bwidth := 20; bheight := 20 |} ]
  /\ renderBlocksFromShape (nextShape INITIAL_STATE)
     <> Ok (blocks (nextShape INITIAL_STATE)).
Proof.
  split; [constructor|]. split; [reflexivity|].
  split; [vm_compute; reflexivity|].
  vm_compute. discriminate.
Qed.

(** ** The matrices of the shapes a state holds *)

Lemma createShape_rows_fit (randomPair : Q * Q) (n : Z) (sh : Shape) :
  createShape randomPair n = Ok sh -> rows_fit (matrix (type sh)).
Proof.
  unfold createShape. intros H.
  destruct (index ALL_SHAPE_TYPES _) as [randomType|] eqn:Et; try discriminate.
  destruct (index ALL_SHAPE_ANGLES _); try discriminate.
  destruct (matrix randomType) eqn:Em; try discriminate.
  injection H as <-. cbn [type].
  assert (Hin : In randomType ALL_SHAPE_TYPES).
  { unfold index in Et. destruct (_ <? 0); [discriminate|].
    eapply nth_error_In; eauto. }
  pose proof catalog_square as Hcat. rewrite Forall_forall in Hcat.
  destruct (Hcat randomType Hin) as [k Hk]. exact (square_rows_fit Hk).
Qed.

Lemma obstacle_rows_fit : rows_fit (numbers [[1]]).
Proof. repeat constructor. Qed.

Lemma shapes_fit_initial : shapes_fit INITIAL_STATE.
Proof.
  split; [|split; [|split]]; simpl.
  - repeat constructor.
  - discriminate.
  - intros ? [].
  - intros ? [].
Qed.

Lemma updateShape_type (s : State) (c r : Shape) :
  updateShape s c = Ok (Some r) ->
  currentShape s = Some r \/ type r = type c.
Proof.
  unfold updateShape. destruct (fix_ c).
  - intros H. left. congruence.
  - destruct (renderBlocksFromShape c) as [newBlocks| |]; try discriminate.
    simpl. destruct (canUpdate (allBlocks s) newBlocks); intros H.
    + right. injection H as <-. reflexivity.
    + left. congruence.
Qed.

Lemma shapes_fit_update (s s' : State) (c : Shape) :
  shapes_fit s -> rows_fit (matrix (type c)) ->
  updateStateWithNewShape s c = Ok s' -> shapes_fit s'.
Proof.
  intros Hfit Hc. pose proof Hfit as (Hn & Hcur & Hfx & Hob).
  unfold updateStateWithNewShape.
  destruct (updateShape s c) as [r| |] eqn:E; try discriminate. simpl.
  destruct (gameEnd s); [intros H; injection H as <-; assumption|].
  destruct r as [r|]; [|intros H; injection H as <-; assumption].
  assert (Hr : rows_fit (matrix (type r))).
  { destruct (updateShape_type _ _ E) as [Hold | ->]; [now apply Hcur | assumption]. }
  destruct (fix_ r); intros H; injection H as <-.
  - split; [|split; [|split]]; simpl; try assumption; [discriminate|].
    intros sh Hsh. apply in_app_or in Hsh. destruct Hsh as [Hsh|[<-|[]]];
      [now apply Hfx | assumption].
  - split; [|split; [|split]]; simpl; try assumption.
    intros cur Ecur. injection Ecur as <-. assumption.
Qed.

Lemma shapes_fit_move (movement : Movement) (s s' : State) :
  shapes_fit s -> MoveAction_apply movement s = Ok s' -> shapes_fit s'.
Proof.
  intros Hfit. pose proof Hfit as (_ & Hcur & _ & _).
  unfold MoveAction_apply.
  destruct (currentShape s) as [cur|] eqn:E.
  - apply shapes_fit_update; [assumption|]. cbn [type withXY].
    now apply Hcur.
  - intros H. now injection H as <-.
Qed.

Lemma shapes_fit_rotate (s s' : State) :
  shapes_fit s -> RotateAction_apply s = Ok s' -> shapes_fit s'.
Proof.
  intros Hfit. pose proof Hfit as (_ & Hcur & _ & _).
  unfold RotateAction_apply.
  destruct (currentShape s) as [cur|] eqn:E.
  - apply shapes_fit_update; [assumption|].
    rewrite rotateKickShape_type. cbn [type withAngle]. now apply Hcur.
  - intros H. now injection H as <-.
Qed.

Lemma shapes_fit_score (s s' : State) :
  shapes_fit s -> ScoreAction_apply s = Ok s' -> shapes_fit s'.
Proof.
  intros (Hn & Hcur & Hfx & Hob). unfold ScoreAction_apply.
  destruct (constructGrid _ _ _) as [grid| |]; try discriminate. simpl.
  intros H. injection H as <-.
  split; [|split; [|split]]; simpl; try assumption.
  intros sh' Hsh'. apply in_map_iff in Hsh'. destruct Hsh' as (sh & <- & Hsh).
  cbn [type withBlocks]. now apply Hfx.
Qed.

Lemma shapes_fit_endGame (s : State) :
  shapes_fit s -> shapes_fit (EndGameAction_apply s).
Proof.
  intros Hfit. unfold EndGameAction_apply.
  destruct (currentShape s) eqn:E; [|assumption].
  destruct Hfit as (Hn & Hcur & Hfx & Hob).
  split; [|split; [|split]]; simpl; assumption.
Qed.

Lemma shapes_fit_restart (s : State) :
  shapes_fit s -> shapes_fit (RestartGameAction_apply s).
Proof.
  intros Hfit. unfold RestartGameAction_apply.
  destruct (gameEnd s); [|assumption]. apply shapes_fit_initial.
Qed.

Lemma shapes_fit_checkLevelUp (s : State) :
  shapes_fit s -> shapes_fit (CheckLevelUpAction_apply s).
Proof.
  intros (Hn & Hcur & Hfx & Hob). split; [|split; [|split]]; simpl; assumption.
Qed.

Lemma shapes_fit_nextLevel (randomPair : Q * Q) (s s' : State) :
  shapes_fit s -> NextLevelAction_apply randomPair s = Ok s' -> shapes_fit s'.
Proof.
  intros Hfit. unfold NextLevelAction_apply.
  destruct (levelUp s); [|intros H; now injection H as <-].
  destruct Hfit as (Hn & Hcur & Hfx & Hob).
  unfold addObstacle. rewrite renderBlocksFromShape_obstacle. simpl.
  intros H. injection H as <-.
  assert (Hnew : forall sh,
            In sh (obstacles s ++
                   [withBlocks
                      (createObstacle (- (Z.of_nat (length (obstacles s)) + 1))
                         (RNG.scaleToRange (fst randomPair) 0 (GRID_WIDTH - 1)
                          * Block.WIDTH)
                         (RNG.scaleToRange (snd randomPair) (GRID_HEIGHT / 2)
                            (GRID_HEIGHT - 1) * Block.HEIGHT))
                      [ {| bx := RNG.scaleToRange (fst randomPair) 0
                                   (GRID_WIDTH - 1) * Block.WIDTH;
                           by_ := RNG.scaleToRange (snd randomPair)
                                    (GRID_HEIGHT / 2) (GRID_HEIGHT - 1)
                                  * Block.HEIGHT;
                           bwidth := Block.WIDTH;
                           bheight := Block.HEIGHT |} ]]) ->
            rows_fit (matrix (type sh))).
  { intros sh Hsh. apply in_app_or in Hsh. destruct Hsh as [Hsh|[<-|[]]].
    - now apply Hob.
    - apply obstacle_rows_fit. }
  split; [|split; [|split]]; simpl; try assumption.
  - repeat constructor.
  - discriminate.
Qed.

Lemma shapes_fit_addShape (randomPair : Q * Q) (s s' : State) :
  shapes_fit s -> AddShapeAction_apply randomPair s = Ok s' -> shapes_fit s'.
Proof.
  intros (Hn & Hcur & Hfx & Hob). unfold AddShapeAction_apply.
  destruct (createShape _ _) as [newShape| |] eqn:E; try discriminate.
  simpl. intros H. injection H as <-.
  split; [|split; [|split]]; simpl; try assumption.
  - exact (createShape_rows_fit _ _ E).
  - intros cur Ecur. injection Ecur as <-. assumption.
Qed.

Lemma shapes_fit_step (action : Action) (s s' : State) :
  shapes_fit s -> reduceState s action = Ok s' -> shapes_fit s'.
Proof.
  intros Hfit. unfold reduceState, apply. destruct action.
  - now apply shapes_fit_addShape.
  - now apply shapes_fit_move.
  - now apply shapes_fit_rotate.
  - now apply shapes_fit_score.
  - intros H. injection H as <-. now apply shapes_fit_endGame.
  - intros H. injection H as <-. now apply shapes_fit_restart.
  - intros H. injection H as <-. now apply shapes_fit_checkLevelUp.
  - now apply shapes_fit_nextLevel.
  - unfold TickAction_apply.
    destruct (gameEnd s || levelUp s); [intros H; now injection H as <-|].
    simpl.
    destruct (MoveAction_apply _ _) as [s2| |] eqn:E2; try discriminate. simpl.
    destruct (ScoreAction_apply s2) as [s3| |] eqn:E3; try discriminate. simpl.
    intros H. injection H as <-.
    apply shapes_fit_endGame.
    eapply shapes_fit_score; [|eassumption].
    eapply shapes_fit_move; [|eassumption].
    now apply shapes_fit_checkLevelUp.
  - unfold GameCycleAction_apply.
    destruct (levelUp s); [now apply shapes_fit_nextLevel|].
    destruct (gameEnd s).
    + intros H. injection H as <-. now apply shapes_fit_restart.
    + now apply shapes_fit_addShape.
Qed.

(** Every reachable state holds shapes that [rotateMatrix] can read, so that
    in a reachable state a move or a rotation never throws. *)
Lemma reachable_shapes_fit (s : State) : reachable s -> shapes_fit s.
Proof.
  induction 1 as [|s action s' Hreach IH Hstep].
  - apply shapes_fit_initial.
  - eapply shapes_fit_step; eassumption.
Qed.

Lemma reachable_move_rotate_return (s : State) (movement : Movement) :
  reachable s ->
  (exists s', MoveAction_apply movement s = Ok s')
  /\ (exists s', RotateAction_apply s = Ok s').
Proof.
  intros Hreach. destruct (reachable_shapes_fit Hreach) as (_ & Hcur & _ & _).
  unfold MoveAction_apply, RotateAction_apply.
  destruct (currentShape s) as [cur|]; [|split; eauto].
  assert (Hupd : forall c, type c = type cur ->
                           exists s', updateStateWithNewShape s c = Ok s').
  { intros c Ec. unfold updateStateWithNewShape.
    destruct (updateShape_rows_fit s c) as [r ->].
    - rewrite Ec. now apply Hcur.
    - simpl. destruct (if gameEnd s then None else r) as [u|]; [|eauto].
      destruct (fix_ u); eauto. }
  split; apply Hupd; [reflexivity|].
  now rewrite rotateKickShape_type.
Qed.

(** ** The occupancy grid *)

Lemma toInteger_inject (q : Q) (z : Z) :
  q == inject_Z z -> toInteger q = z.
Proof.
  unfold Qeq, toInteger. simpl. rewrite Z.mul_1_r. intros ->.
  now apply Z.quot_mul.
Qed.

Lemma isInteger_inject (q : Q) (z : Z) :
  q == inject_Z z -> isInteger q = true.
Proof.
  unfold Qeq, isInteger. simpl. rewrite Z.mul_1_r. intros ->.
  rewrite Z.rem_mul by discriminate. reflexivity.
Qed.

Lemma indexQ_in_range {A} (arr : list A) (d : A) (q : Q) (k : nat) :
  q == inject_Z (Z.of_nat k) -> (k < length arr)%nat ->
  indexQ arr q = Some (nth k arr d).
Proof.
  intros Hq Hk. unfold indexQ.
  rewrite (isInteger_inject Hq), (toInteger_inject Hq).
  now apply index_in_range.
Qed.

Lemma replace_in_range {A} (arr : list A) (item : A) (q : Q) (k : nat) :
  q == inject_Z (Z.of_nat k) -> (k < length arr)%nat ->
  replace arr item q = setNth k item arr.
Proof.
  intros Hq Hk. unfold replace, setNth, slice.
  assert (Hq1 : q + 1 == inject_Z (Z.of_nat (S k))).
  { rewrite Hq, Nat2Z.inj_succ. unfold Z.succ. now rewrite inject_Z_plus. }
  rewrite (toInteger_inject Hq), (toInteger_inject Hq1).
  change (toInteger 0) with 0.
  unfold clampIndex.
  destruct (Z.ltb_spec 0 0); [lia|].
  destruct (Z.ltb_spec (Z.of_nat k) 0); [lia|].
  destruct (Z.ltb_spec (Z.of_nat (S k)) 0); [lia|].
  rewrite !Z.min_l by lia.
  rewrite Z.sub_0_r, !Nat2Z.id. change (Z.to_nat 0) with 0%nat.
  rewrite skipn_O. f_equal. cbn [app]. f_equal.
  apply firstn_all2. rewrite length_skipn. lia.
Qed.

Lemma setNth_length {A} (item : A) :
  forall (k : nat) (arr : list A),
    (k < length arr)%nat -> length (setNth k item arr) = length arr.
Proof.
  unfold setNth. intros k arr Hk.
  rewrite length_app, length_firstn. cbn [length]. rewrite length_skipn. lia.
Qed.

Lemma nth_setNth {A} (item d : A) :
  forall (k : nat) (arr : list A) (i : nat),
    (k < length arr)%nat ->
    nth i (setNth k item arr) d = if (i =? k)%nat then item else nth i arr d.
Proof.
  unfold setNth. induction k as [|k IH]; intros [|a arr] i Hk; simpl in *;
    try lia.
  - destruct i; reflexivity.
  - destruct i; [reflexivity|]. apply IH. lia.
Qed.

Lemma dims_row (h w : nat) (g : NumbersMatrix) (i : nat) :
  dims h w g -> (i < h)%nat -> length (nth i g []) = w.
Proof.
  intros [Hh Hw] Hi.
  apply (Forall_rows_nth (fun l => l = w)); [assumption | lia].
Qed.

Lemma mark_dims (h w col row : nat) (g : NumbersMatrix) :
  dims h w g -> (row < h)%nat -> (col < w)%nat -> dims h w (mark col row g).
Proof.
  intros Hd Hr Hc. pose proof Hd as [Hh Hw]. unfold mark. split.
  - rewrite setNth_length; lia.
  - apply (Forall_rows_nth (fun l => l = w)).
    intros i Hi. rewrite setNth_length in Hi by lia.
    rewrite nth_setNth by lia.
    destruct (Nat.eqb_spec i row).
    + rewrite setNth_length; rewrite (dims_row Hd); lia.
    + apply (dims_row Hd). lia.
Qed.

Lemma cell_mark (h w col row : nat) (g : NumbersMatrix) (i j : nat) :
  dims h w g -> (row < h)%nat -> (col < w)%nat ->
  cell (mark col row g) i j
  = if ((i =? row) && (j =? col))%nat then Num 1 else cell g i j.
Proof.
  intros Hd Hr Hc. pose proof Hd as [Hh Hw]. unfold cell, mark.
  rewrite nth_setNth by lia.
  destruct (Nat.eqb_spec i row) as [->|]; [|reflexivity].
  rewrite nth_setNth by (rewrite (dims_row Hd); lia).
  destruct (Nat.eqb_spec j col); reflexivity.
Qed.

Lemma updateGridStep_mark (h w col row : nat) (g : NumbersMatrix)
  (p : GridPosition) :
  dims h w g -> (row < h)%nat -> (col < w)%nat ->
  gx p == inject_Z (Z.of_nat col) -> gy p == inject_Z (Z.of_nat row) ->
  updateGridStep g p = Ok (mark col row g).
Proof.
  intros Hd Hr Hc Hx Hy. pose proof Hd as [Hh Hw]. unfold updateGridStep.
  rewrite (indexQ_in_range g [] Hy) by lia.
  rewrite (replace_in_range _ _ Hx) by (rewrite (dims_row Hd); lia).
  rewrite (replace_in_range _ _ Hy) by lia.
  reflexivity.
Qed.

Lemma updateGrid_markAll (h w : nat) (ps : list GridPosition)
  (cs : list (nat * nat)) :
  Forall2 (atCell h w) ps cs ->
  forall g, dims h w g ->
    updateGrid g ps = Ok (markAll cs g) /\ dims h w (markAll cs g).
Proof.
  induction 1 as [|p c ps cs (Hx & Hy & Hc & Hr) _ IH]; intros g Hd.
  - now split.
  - simpl. rewrite (updateGridStep_mark p Hd Hr Hc Hx Hy). simpl.
    apply IH. now apply mark_dims.
Qed.

Lemma is_one_cell_markAll (h w : nat) (cs : list (nat * nat)) (i j : nat) :
  Forall (fun c => (fst c < w)%nat /\ (snd c < h)%nat) cs ->
  forall g, dims h w g ->
    is_one (cell (markAll cs g) i j)
    = is_one (cell g i j)
      || existsb (fun c => ((i =? snd c) && (j =? fst c))%nat) cs.
Proof.
  induction 1 as [|c cs [Hc Hr] _ IH]; intros g Hd; simpl.
  - now rewrite orb_false_r.
  - rewrite IH by now apply mark_dims.
    rewrite (cell_mark _ _ Hd Hr Hc).
    destruct ((i =? snd c) && (j =? fst c))%nat; simpl.
    + now rewrite orb_true_r.
    + reflexivity.
Qed.

Lemma emptyGrid_dims (h w : nat) : dims h w (repeat (repeat (Num 0) w) h).
Proof.
  split; [apply repeat_length|].
  apply Forall_forall. intros row Hrow.
  apply repeat_spec in Hrow. subst. apply repeat_length.
Qed.

Lemma emptyGrid_cell (h w i j : nat) :
  (i < h)%nat -> (j < w)%nat ->
  cell (repeat (repeat (Num 0) w) h) i j = Num 0.
Proof.
  intros Hi Hj. unfold cell.
  rewrite (nth_repeat_lt _ [] Hi). now apply nth_repeat_lt.
Qed.

Lemma fullRowsFrom_filter (g : NumbersMatrix) :
  forall k,
    fullRowsFrom k g
    = map (fun i => k + Z.of_nat i)
        (filter (fun i => forallb is_one (nth i g [])) (seq 0 (length g))).
Proof.
  induction g as [|row rest IH]; intros k; [reflexivity|].
  cbn [fullRowsFrom length seq]. rewrite <- seq_shift.
  cbn [filter nth]. rewrite filter_map_swap. cbn [nth].
  assert (Htail : fullRowsFrom (k + 1) rest
                  = map (fun i => k + Z.of_nat i)
                      (map S (filter (fun a => forallb is_one (nth a rest []))
                                (seq 0 (length rest))))).
  { rewrite IH, map_map. apply map_ext. intros i. lia. }
  destruct (forallb is_one row); cbn [map]; rewrite Htail;
    [f_equal; lia | reflexivity].
Qed.

Lemma forallb_nth_seq (row : list Cell) :
  forallb is_one row
  = forallb (fun j => is_one (nth j row Undef)) (seq 0 (length row)).
Proof.
  apply eq_iff_eq_true. rewrite !forallb_forall. split.
  - intros H j Hj. apply in_seq in Hj. apply H. apply nth_In. lia.
  - intros H c Hc. destruct (In_nth _ _ Undef Hc) as (j & Hj & <-).
    apply H. apply in_seq. lia.
Qed.

Lemma forallb_map_in {A B} (f : B -> bool) (g : A -> B) (f' : A -> bool)
  (l : list A) :
  (forall a, In a l -> f (g a) = f' a) ->
  forallb f (map g l) = forallb f' l.
Proof.
  induction l as [|a l IH]; intros H; simpl; [reflexivity|].
  rewrite H by now left. rewrite IH; [reflexivity|].
  intros b Hb. apply H. now right.
Qed.

Lemma existsb_map_in {A B} (f : B -> bool) (g : A -> B) (f' : A -> bool)
  (l : list A) :
  (forall a, In a l -> f (g a) = f' a) ->
  existsb f (map g l) = existsb f' l.
Proof.
  induction l as [|a l IH]; intros H; simpl; [reflexivity|].
  rewrite H by now left. rewrite IH; [reflexivity|].
  intros b Hb. apply H. now right.
Qed.

Lemma scaled_position (z k : Z) :
  z = 20 * k -> inject_Z z / inject_Z 20 == inject_Z k.
Proof.
  intros ->. rewrite inject_Z_mult. field.
Qed.

Lemma multiple_of_20 (z bound : Z) :
  0 <= z < 20 * bound -> z mod 20 = 0 ->
  exists k, (k < Z.to_nat bound)%nat /\ Z.to_nat (z / 20) = k
            /\ z = 20 * Z.of_nat k.
Proof.
  intros Hz Hm.
  assert (E : z = 20 * (z / 20)) by (apply Z_div_exact_full_2; [discriminate | assumption]).
  assert (0 <= z / 20 < bound).
  { split; [apply Z.div_pos; lia | apply Z.div_lt_upper_bound; lia]. }
  exists (Z.to_nat (z / 20)). repeat split; lia.
Qed.

Lemma on_grid_cell (b : SingleBlock) :
  on_grid b ->
  exists col row,
    (col < 10)%nat /\ (row < 20)%nat /\ cellOf b = (col, row)
    /\ bx b = 20 * Z.of_nat col /\ by_ b = 20 * Z.of_nat row.
Proof.
  unfold on_grid, cellOf. layout. intros [[Hx Hxm] [Hy Hym]].
  destruct (multiple_of_20 10 Hx Hxm) as (col & Hc & Ec & Ex).
  destruct (multiple_of_20 20 Hy Hym) as (row & Hr & Er & Ey).
  exists col, row. rewrite Ec, Er. repeat split; assumption.
Qed.

Lemma position_atCell (b : SingleBlock) :
  on_grid b ->
  atCell 20 10 {| gx := inject_Z (bx b) / inject_Z Block.WIDTH;
                  gy := inject_Z (by_ b) / inject_Z Block.HEIGHT |}
         (cellOf b).
Proof.
  intros Hb. destruct (on_grid_cell Hb) as (col & row & Hc & Hr & -> & Ex & Ey).
  unfold atCell. layout. cbn [gx gy fst snd].
  repeat split; try assumption; now apply scaled_position.
Qed.

Lemma positions_atCell (s : State) :
  Forall on_grid (allBlocks s) ->
  Forall2 (atCell 20 10) (getGridPositionsFromState s)
    (map cellOf (allBlocks s)).
Proof.
  unfold getGridPositionsFromState, allBlocks.
  induction (flat_map blocks (fixedShapes s)) as [|b bs IH]; intros H; simpl.
  - constructor.
  - inversion H; subst. constructor.
    + now apply position_atCell.
    + now apply IH.
Qed.

Lemma cellOf_in_range (bs : list SingleBlock) :
  Forall on_grid bs ->
  Forall (fun c => (fst c < 10)%nat /\ (snd c < 20)%nat) (map cellOf bs).
Proof.
  intros H. apply Forall_map. eapply Forall_impl; [|exact H].
  intros b Hb. destruct (on_grid_cell Hb) as (col & row & Hc & Hr & -> & _).
  now split.
Qed.

Lemma occupied_cell (bs : list SingleBlock) (i j : nat) :
  Forall on_grid bs ->
  existsb (fun c => ((i =? snd c) && (j =? fst c))%nat) (map cellOf bs)
  = occupied bs (Z.of_nat j) (Z.of_nat i).
Proof.
  intros H. unfold occupied. apply existsb_map_in.
  intros b Hb. rewrite Forall_forall in H.
  destruct (on_grid_cell (H b Hb)) as (col & row & Hc & Hr & -> & Ex & Ey).
  cbn [fst snd]. layout.
  destruct (Nat.eqb_spec i row), (Nat.eqb_spec j col),
    (Z.eqb_spec (bx b) (Z.of_nat j * 20)),
    (Z.eqb_spec (by_ b) (Z.of_nat i * 20)); simpl; try reflexivity; lia.
Qed.

(** On a board whose fixed blocks sit on grid cells, the grid is built
    without an error and its full rows are the fully occupied rows. *)
Lemma findFullRows_fullRows (s : State) :
  Forall on_grid (allBlocks s) ->
  exists grid,
    constructGrid GRID_WIDTH GRID_HEIGHT (Some (getGridPositionsFromState s))
    = Ok grid
    /\ findFullRowsOfGrid grid = fullRows (allBlocks s).
Proof.
  intros Hgrid. unfold constructGrid.
  change (Z.to_nat GRID_WIDTH) with 10%nat.
  change (Z.to_nat GRID_HEIGHT) with 20%nat.
  destruct (updateGrid_markAll (positions_atCell s Hgrid) (emptyGrid_dims 20 10))
    as [E D].
  eexists. split; [exact E|].
  unfold findFullRowsOfGrid, fullRows. rewrite fullRowsFrom_filter.
  change (Z.to_nat GRID_HEIGHT) with 20%nat.
  rewrite filter_map_swap. destruct D as [Dh Dw] eqn:ED. rewrite Dh.
  rewrite (map_ext (fun i => 0 + Z.of_nat i) Z.of_nat) by (intros; lia).
  f_equal. apply filter_ext_in. intros i Hi. apply in_seq in Hi.
  rewrite forallb_nth_seq, (dims_row D) by lia.
  unfold rowFull. change (Z.to_nat GRID_WIDTH) with 10%nat.
  symmetry. apply forallb_map_in. intros j Hj. apply in_seq in Hj.
  change (nth j (nth i (markAll (map cellOf (allBlocks s))
                          (repeat (repeat (Num 0) 10) 20)) []) Undef)
    with (cell (markAll (map cellOf (allBlocks s))
                  (repeat (repeat (Num 0) 10) 20)) i j).
  rewrite (is_one_cell_markAll i j (cellOf_in_range Hgrid) (emptyGrid_dims 20 10)).
  rewrite emptyGrid_cell by lia. simpl.
  symmetry. now apply occupied_cell.
Qed.

(** ** Clearing rows *)

Lemma ScoreAction_fullRows (s : State) :
  Forall on_grid (allBlocks s) ->
  ScoreAction_apply s = Ok (afterClearing (fullRows (allBlocks s)) s).
Proof.
  intros Hgrid. unfold ScoreAction_apply.
  destruct (findFullRows_fullRows s Hgrid) as (grid & -> & E).
  simpl. rewrite E. unfold afterClearing. now rewrite length_map.
Qed.

Lemma adjustBlocks_app (rows : list Z) (bs1 bs2 : list SingleBlock) :
  adjustBlocks rows (bs1 ++ bs2)
  = adjustBlocks rows bs1 ++ adjustBlocks rows bs2.
Proof. unfold adjustBlocks. now rewrite filter_app, map_app. Qed.

Lemma allBlocks_afterClearing (rows : list Z) (s : State) :
  allBlocks (afterClearing rows s)
  = adjustBlocks (map (fun index => index * Block.HEIGHT) rows) (allBlocks s).
Proof.
  unfold allBlocks, afterClearing. cbn [fixedShapes].
  induction (fixedShapes s) as [|sh fs IH]; [reflexivity|].
  cbn [map flat_map]. rewrite IH, adjustBlocks_app. reflexivity.
Qed.

Lemma withBlockY_same (b : SingleBlock) : withBlockY b (by_ b) = b.
Proof. now destruct b. Qed.

(** Clearing the single row at [rowY]: the blocks of that row go, the blocks
    above it come down by their height, the blocks below it stay. *)
Lemma adjustBlocks_single (rowY : Z) (bs : list SingleBlock) :
  adjustBlocks [rowY] bs
  = map (fun b => if by_ b <? rowY
                  then withBlockY b (by_ b + bheight b) else b)
        (filter (fun b => negb (by_ b =? rowY)) bs).
Proof.
  unfold adjustBlocks. cbn [existsb filter length].
  rewrite (filter_ext (fun b => negb ((by_ b =? rowY) || false))
             (fun b => negb (by_ b =? rowY)))
    by (intros b; now rewrite orb_false_r).
  apply map_ext. intros b. rewrite Z.gtb_ltb.
  destruct (by_ b <? rowY); cbn [length].
  - now rewrite Z.mul_1_r.
  - rewrite Z.mul_0_r, Z.add_0_r. apply withBlockY_same.
Qed.

(** Selecting blocks keeps their positions distinct. *)
Lemma positions_distinct_filter (keep : SingleBlock -> bool)
  (bs : list SingleBlock) :
  NoDup (map positionOf bs) -> NoDup (map positionOf (filter keep bs)).
Proof.
  induction bs as [|b bs IH]; intros Hnd; cbn [map filter] in *;
    [constructor|].
  inversion Hnd as [|? ? Hfresh Hrest]; subst.
  destruct (keep b); cbn [map]; [|now apply IH].
  constructor; [|now apply IH].
  intros Hin. apply Hfresh. apply in_map_iff in Hin.
  destruct Hin as (b' & Eb & Hb'). apply filter_In in Hb'.
  apply in_map_iff. exists b'. tauto.
Qed.

Lemma rowPositions_NoDup (r : Z) : NoDup (rowPositions r).
Proof.
  unfold rowPositions. apply NoDup_map_NoDup_ForallPairs; [|apply seq_NoDup].
  intros c1 c2 _ _ E.
  assert (20 * Z.of_nat c1 = 20 * Z.of_nat c2) by congruence. lia.
Qed.

(** A fully occupied row of a board without two blocks at one position
    holds exactly [GRID_WIDTH] blocks. *)
Lemma full_row_block_count (bs : list SingleBlock) (r : Z) :
  Forall on_grid bs -> NoDup (map positionOf bs) -> rowFull bs r = true ->
  length (filter (fun b => by_ b =? r * Block.HEIGHT) bs) = 10%nat.
Proof.
  intros Hgrid Hnd Hfull. layout.
  set (removed := filter (fun b => by_ b =? r * 20) bs).
  assert (HL : NoDup (map positionOf removed))
    by now apply positions_distinct_filter.
  assert (I1 : incl (map positionOf removed) (rowPositions r)).
  { intros pos Hpos. apply in_map_iff in Hpos. destruct Hpos as (b & <- & Hb).
    apply filter_In in Hb. destruct Hb as [Hb Hy].
    rewrite Forall_forall in Hgrid.
    destruct (on_grid_cell (Hgrid b Hb)) as (col & row & Hc & Hr & _ & Ex & Ey).
    apply in_map_iff. exists col. split.
    - unfold positionOf. f_equal; lia.
    - apply in_seq. lia. }
  assert (I2 : incl (rowPositions r) (map positionOf removed)).
  { intros pos Hpos. apply in_map_iff in Hpos. destruct Hpos as (col & <- & Hcol).
    unfold rowFull in Hfull. rewrite forallb_forall in Hfull.
    specialize (Hfull (Z.of_nat col)).
    unfold occupied in Hfull. rewrite existsb_exists in Hfull.
    destruct Hfull as (b & Hb & Hxy).
    { apply in_map. exact Hcol. }
    apply andb_true_iff in Hxy. destruct Hxy as [Hx Hy]. layout.
    apply in_map_iff. exists b. split.
    - unfold positionOf. f_equal; lia.
    - apply filter_In. split; [assumption | lia]. }
  pose proof (NoDup_incl_length HL I1) as L1.
  pose proof (NoDup_incl_length (rowPositions_NoDup r) I2) as L2.
  rewrite length_map in L1, L2. unfold rowPositions in L1, L2.
  rewrite length_map, length_seq in L1, L2. fold removed. lia.
Qed.

(** C2. On a board whose fixed blocks sit on grid cells, [ScoreAction]
    returns; the score grows by the number of full rows times the level;
    every block on a full row is removed and every other block keeps its
    [x] and its size and gets the [y] that is its old [y] plus its height
    times the number of full rows with a larger [y].  When exactly one row
    [r] is full and no two blocks share a position, exactly [GRID_WIDTH]
    blocks are removed, the score grows by the level, the blocks above row
    [r] come down by one block height and the blocks below it stay. *)
Theorem score_clears_full_rows (s : State)
  (Hgrid : Forall on_grid (allBlocks s)) :
  let cleared :=
    map (fun r => r * Block.HEIGHT) (fullRows (allBlocks s)) in
  exists s',
    ScoreAction_apply s = Ok s'
    /\ score (stats s')
       = score (stats s) + Z.of_nat (length cleared) * level (stats s)
    /\ fixedShapes s'
       = map (fun shape =>
                withBlocks shape
                  (map (fun b =>
                          {| bx := bx b;
                             by_ := by_ b
                                    + bheight b
                                      * Z.of_nat
                                          (length (filter
                                                     (fun rowY => rowY >? by_ b)
                                                     cleared));
                             bwidth := bwidth b;
                             bheight := bheight b |})
                       (filter (fun b => negb (existsb (Z.eqb (by_ b)) cleared))
                          (blocks shape))))
             (fixedShapes s)
    /\ allBlocks s'
       = map (fun b =>
                {| bx := bx b;
                   by_ := by_ b
                          + bheight b
                            * Z.of_nat
                                (length (filter (fun rowY => rowY >? by_ b)
                                           cleared));
                   bwidth := bwidth b;
                   bheight := bheight b |})
             (filter (fun b => negb (existsb (Z.eqb (by_ b)) cleared))
                (allBlocks s))
    /\ (forall r,
          fullRows (allBlocks s) = [r] ->
          NoDup (map positionOf (allBlocks s)) ->
          (length (allBlocks s') + Z.to_nat GRID_WIDTH)%nat
          = length (allBlocks s)
          /\ score (stats s') = score (stats s) + level (stats s)
          /\ fixedShapes s'
             = map (fun shape =>
                      withBlocks shape
                        (map (fun b => if by_ b <? r * Block.HEIGHT
                                       then {| bx := bx b;
                                               by_ := by_ b + bheight b;
                                               bwidth := bwidth b;
                                               bheight := bheight b |}
                                       else b)
                             (filter (fun b => negb (by_ b =? r * Block.HEIGHT))
                                (blocks shape))))
                   (fixedShapes s)
          /\ allBlocks s'
             = map (fun b => if by_ b <? r * Block.HEIGHT
                             then {| bx := bx b;
                                     by_ := by_ b + bheight b;
                                     bwidth := bwidth b;
                                     bheight := bheight b |}
                             else b)
                   (filter (fun b => negb (by_ b =? r * Block.HEIGHT))
                      (allBlocks s))).
Proof.
  intros cleared. exists (afterClearing (fullRows (allBlocks s)) s).
  split; [now apply ScoreAction_fullRows|].
  split; [unfold cleared; now rewrite length_map|].
  split; [reflexivity|].
  split; [now rewrite allBlocks_afterClearing|].
  intros r Hr Hnd.
  assert (Hfull : rowFull (allBlocks s) r = true).
  { assert (Hin : In r (fullRows (allBlocks s))) by (rewrite Hr; now left).
    unfold fullRows in Hin. apply filter_In in Hin. tauto. }
  split; [|split; [|split]].
  - rewrite allBlocks_afterClearing, Hr. cbn [map].
    rewrite adjustBlocks_single, length_map.
    pose proof (filter_length (fun b => by_ b =? r * Block.HEIGHT) (allBlocks s))
      as Hsplit.
    rewrite (full_row_block_count r Hgrid Hnd Hfull) in Hsplit.
    change (Z.to_nat GRID_WIDTH) with 10%nat. lia.
  - cbn [afterClearing stats score]. rewrite Hr. cbn [length]. lia.
  - cbn [afterClearing fixedShapes]. rewrite Hr. cbn [map].
    apply map_ext. intros shape. now rewrite adjustBlocks_single.
  - rewrite allBlocks_afterClearing, Hr. cbn [map].
    now rewrite adjustBlocks_single.
Qed.

(** ** Sample boards *)

Lemma on_gridb_sound (bs : list SingleBlock) :
  forallb on_gridb bs = true -> Forall on_grid bs.
Proof.
  intros H. apply Forall_forall. intros b Hb.
  rewrite forallb_forall in H. specialize (H b Hb). unfold on_gridb in H.
  repeat match type of H with
         | _ && _ = true => apply andb_true_iff in H; destruct H as [H ?]
         end.
  unfold on_grid. repeat split; lia.
Qed.

Lemma distinctb_sound (l : list (Z * Z)) : distinctb l = true -> NoDup l.
Proof.
  induction l as [|p l IH]; intros H; simpl in H; constructor.
  - apply andb_true_iff in H. destruct H as [H _].
    apply negb_true_iff in H. intros Hin.
    assert (existsb (fun q => (fst p =? fst q) && (snd p =? snd q)) l = true).
    { apply existsb_exists. exists p. split; [assumption|].
      now rewrite !Z.eqb_refl. }
    congruence.
  - apply IH. apply andb_true_iff in H. tauto.
Qed.

(** ** The theorems at sample inputs *)

Lemma rotate_four_times_identity_witness :
  square 3 matrixL
  /\ ((m1 <- rotateMatrix matrixL ;; m2 <- rotateMatrix m1 ;;
       m3 <- rotateMatrix m2 ;; rotateMatrix m3) = Ok matrixL
      /\ rotateMatrixNTimes 4 matrixL = Ok matrixL).
Proof.
  assert (H : square 3 matrixL) by (split; [reflexivity | repeat constructor]).
  split; [exact H | exact (rotate_four_times_identity H)].
Defined.

Lemma updateShape_accepts_or_keeps_witness :
  rows_fit (matrix (type (withXY spawnedShape 60 40)))
  /\ exists newBlocks,
       renderBlocksFromShape (withXY spawnedShape 60 40) = Ok newBlocks /\
       let accepted := negb (fix_ (withXY spawnedShape 60 40))
                       && canUpdate (allBlocks spawnedState) newBlocks in
       (accepted = true ->
          exists r, updateShape spawnedState (withXY spawnedShape 60 40)
                    = Ok (Some r) /\
            r = withBlocksFix (withXY spawnedShape 60 40) newBlocks
                  (isFix (allBlocks spawnedState) newBlocks) /\
            Forall in_canvas (blocks r) /\
            (forall b fb, In b (blocks r) -> In fb (allBlocks spawnedState) ->
                          ~ coincide b fb)) /\
       (accepted = false ->
          updateShape spawnedState (withXY spawnedShape 60 40)
          = Ok (currentShape spawnedState)).
Proof.
  assert (H : rows_fit (matrix (type (withXY spawnedShape 60 40))))
    by (repeat constructor).
  split; [exact H|].
  exact (updateShape_accepts_or_keeps spawnedState (withXY spawnedShape 60 40) H).
Defined.

Lemma score_clears_full_rows_witness :
  Forall on_grid (allBlocks bottomRowBoard)
  /\ fullRows (allBlocks bottomRowBoard) = [19]
  /\ NoDup (map positionOf (allBlocks bottomRowBoard))
  /\ exists s',
       ScoreAction_apply bottomRowBoard = Ok s'
       /\ (length (allBlocks s') + Z.to_nat GRID_WIDTH)%nat
          = length (allBlocks bottomRowBoard)
       /\ score (stats s')
          = score (stats bottomRowBoard) + level (stats bottomRowBoard)
       /\ fixedShapes s'
          = map (fun shape =>
                   withBlocks shape
                     (map (fun b => if by_ b <? 19 * Block.HEIGHT
                                    then {| bx := bx b;
                                            by_ := by_ b + bheight b;
                                            bwidth := bwidth b;
                                            bheight := bheight b |}
                                    else b)
                          (filter (fun b => negb (by_ b =? 19 * Block.HEIGHT))
                             (blocks shape))))
                (fixedShapes bottomRowBoard)
       /\ allBlocks s'
          = [ {| bx := 0; by_ := 380; bwidth := 20; bheight := 20 |} ].
Proof.
  assert (Hgrid : Forall on_grid (allBlocks bottomRowBoard))
    by (apply on_gridb_sound; vm_compute; reflexivity).
  assert (Hrow : fullRows (allBlocks bottomRowBoard) = [19])
    by (vm_compute; reflexivity).
  assert (Hnd : NoDup (map positionOf (allBlocks bottomRowBoard)))
    by (apply distinctb_sound; vm_compute; reflexivity).
  split; [exact Hgrid|]. split; [exact Hrow|]. split; [exact Hnd|].
  destruct (score_clears_full_rows bottomRowBoard Hgrid)
    as (s' & Happly & _ & _ & _ & Hone).
  destruct (Hone 19 Hrow Hnd) as (Hcount & Hscore & Hshapes & Hblocks).
  exists s'. repeat split; assumption.
Defined.

Lemma next_level_adds_one_obstacle_witness :
  levelUp levelTwoBoard = true
  /\ (GameCycleAction_apply (0, 0)%Q levelTwoBoard
      = NextLevelAction_apply (0, 0)%Q levelTwoBoard
      /\ NextLevelAction_apply (0, 0)%Q levelTwoBoard =
         Ok {| gameEnd := gameEnd INITIAL_STATE;
               currentShape := currentShape INITIAL_STATE;
               nextShape := nextShape INITIAL_STATE;
               fixedShapes := obstacles levelTwoBoard
                              ++ [newObstacleOf (0, 0)%Q levelTwoBoard];
               stats := {| level := level (stats levelTwoBoard) + 1;
                           highScore := highScore (stats levelTwoBoard);
                           score := score (stats levelTwoBoard) |};
               dropRate := dropRate INITIAL_STATE;
               obstacles := obstacles levelTwoBoard
                            ++ [newObstacleOf (0, 0)%Q levelTwoBoard];
               levelUp := levelUp INITIAL_STATE |}).
Proof.
  split; [reflexivity|].
  exact (next_level_adds_one_obstacle (0, 0)%Q levelTwoBoard eq_refl).
Defined.

Lemma reachable_blocks_invariant_witness :
  reachable spawnedState /\ blocks_invariant spawnedState.
Proof.
  assert (H : reachable spawnedState).
  { apply (@reach_step
             (fromOk (apply (GameCycleAction (0, 0)%Q) INITIAL_STATE))
             TickAction).
    - apply (@reach_step INITIAL_STATE (GameCycleAction (0, 0)%Q)).
      + apply reach_init.
      + vm_compute. reflexivity.
    - vm_compute. reflexivity. }
  split; [exact H | exact (reachable_blocks_invariant H)].
Defined.


Lemma game_cycle_restarts_witness :
  gameEnd gameOverState = true
  /\ levelUp gameOverState = false
  /\ (GameCycleAction_apply (0, 0)%Q gameOverState
      = Ok (RestartGameAction_apply gameOverState)
      /\ RestartGameAction_apply gameOverState =
         {| gameEnd := false;
            currentShape := currentShape INITIAL_STATE;
            nextShape := nextShape INITIAL_STATE;
            fixedShapes := fixedShapes INITIAL_STATE;
            stats := {| level := 1;
                        highScore := Z.max (highScore (stats gameOverState))
                                       (score (stats gameOverState));
                        score := 0 |};
            dropRate := dropRate INITIAL_STATE;
            obstacles := obstacles INITIAL_STATE;
            levelUp := levelUp INITIAL_STATE |}).
Proof.
  split; [reflexivity|]. split; [reflexivity|].
  exact (game_cycle_restarts (0, 0)%Q gameOverState eq_refl eq_refl).
Defined.

Lemma move_and_rotate_ignored_after_game_end_witness :
  gameEnd gameOverState = true
  /\ (forall cur, currentShape gameOverState = Some cur ->
                  rows_fit (matrix (type cur)))
  /\ (MoveAction_apply {| deltaX := 0; deltaY := 20 |} gameOverState
      = Ok gameOverState
      /\ RotateAction_apply gameOverState = Ok gameOverState
      /\ (forall c, rows_fit (matrix (type c)) ->
                    updateStateWithNewShape gameOverState c = Ok gameOverState)).
Proof.
  assert (H : forall cur, currentShape gameOverState = Some cur ->
                          rows_fit (matrix (type cur))).
  { intros cur E. injection E as <-. repeat constructor. }
  split; [reflexivity|]. split; [exact H|].
  exact (@move_and_rotate_ignored_after_game_end gameOverState
           {| deltaX := 0; deltaY := 20 |} eq_refl H).
Defined.

(** ** replace *)

Lemma slice_whole_prefix {A} (arr : list A) (k : nat) :
  (length arr <= k)%nat ->
  slice arr 0 (Some (inject_Z (Z.of_nat k))) = arr.
Proof.
  intros Hk. unfold slice.
  rewrite (toInteger_inject (q := inject_Z (Z.of_nat k)) (z := Z.of_nat k))
    by reflexivity.
  change (toInteger 0) with 0. unfold clampIndex.
  destruct (Z.ltb_spec 0 0); [lia|].
  destruct (Z.ltb_spec (Z.of_nat k) 0); [lia|].
  rewrite (Z.min_l 0), (Z.min_r (Z.of_nat k)) by lia.
  rewrite Z.sub_0_r, Nat2Z.id. change (Z.to_nat 0) with 0%nat.
  rewrite skipn_O. apply firstn_all.
Qed.

Lemma slice_empty_suffix {A} (arr : list A) (k : nat) :
  (length arr <= k)%nat ->
  slice arr (inject_Z (Z.of_nat k) + 1) None = [].
Proof.
  intros Hk. unfold slice.
  assert (Hq : inject_Z (Z.of_nat k) + 1 == inject_Z (Z.of_nat (S k))).
  { rewrite Nat2Z.inj_succ. unfold Z.succ. now rewrite inject_Z_plus. }
  rewrite (toInteger_inject Hq). unfold clampIndex.
  destruct (Z.ltb_spec (Z.of_nat (S k)) 0); [lia|].
  rewrite Z.min_r by lia. rewrite Z.sub_diag. reflexivity.
Qed.

(** X1. [replace] at an index inside the array keeps the length, puts the
    new item at the index and leaves every other element where it was. *)
Theorem replace_inside_array {A} (arr : list A) (newItem d : A) (k : nat)
  (Hk : (k < length arr)%nat) :
  length (replace arr newItem (inject_Z (Z.of_nat k))) = length arr
  /\ nth k (replace arr newItem (inject_Z (Z.of_nat k))) d = newItem
  /\ forall i, i <> k ->
       nth i (replace arr newItem (inject_Z (Z.of_nat k))) d = nth i arr d.
Proof.
  rewrite (replace_in_range arr newItem (q := inject_Z (Z.of_nat k)) (k := k))
    by (reflexivity || assumption).
  split; [now apply setNth_length|]. split.
  - rewrite nth_setNth by assumption. now rewrite Nat.eqb_refl.
  - intros i Hi. rewrite nth_setNth by assumption.
    destruct (Nat.eqb_spec i k); [contradiction | reflexivity].
Qed.

(** X2. [replace] outside the array replaces nothing: at an index at or past
    the end it appends the item, and at the index -1 it puts the item between
    the array without its last element and a full copy of the array. *)
Theorem replace_outside_array {A} (arr : list A) (newItem : A) :
  (forall k, (length arr <= k)%nat ->
     replace arr newItem (inject_Z (Z.of_nat k)) = arr ++ [newItem])
  /\ replace arr newItem (-1)
     = firstn (length arr - 1) arr ++ [newItem] ++ arr.
Proof.
  split.
  - intros k Hk. unfold replace.
    rewrite slice_whole_prefix, slice_empty_suffix by assumption. reflexivity.
  - unfold replace, slice.
    change (toInteger (-1)) with (-1). change (toInteger (-1 + 1)) with 0.
    change (toInteger 0) with 0. unfold clampIndex.
    change (-1 <? 0) with true. change (0 <? 0) with false. cbv iota.
    rewrite !Z.min_l by lia. change (Z.to_nat 0) with 0%nat.
    rewrite !skipn_O, Z.sub_0_r, Z.sub_0_r, Nat2Z.id.
    rewrite firstn_all. f_equal. f_equal. lia.
Qed.

(** ** The empty grid and the full rows of a grid *)

Lemma fullRowsFrom_none (rows : list (list Cell)) :
  Forall (fun row => forallb is_one row = false) rows ->
  forall k, fullRowsFrom k rows = [].
Proof.
  induction 1 as [|row rows Hrow _ IH]; intros k; [reflexivity|].
  cbn [fullRowsFrom]. rewrite Hrow. apply IH.
Qed.

Lemma fullRowsFrom_all (rows : list (list Cell)) :
  Forall (fun row => forallb is_one row = true) rows ->
  forall k, fullRowsFrom k rows
            = map (fun i => k + Z.of_nat i) (seq 0 (length rows)).
Proof.
  induction 1 as [|row rows Hrow _ IH]; intros k; [reflexivity|].
  cbn [fullRowsFrom length seq map]. rewrite Hrow, IH, <- seq_shift, map_map.
  f_equal; [lia|]. apply map_ext. intros i. lia.
Qed.

(** X3. For a width in [0, 2^32) and a height below 2^32 (outside of which
    [Array(width)] or [Array.from] throws a [RangeError]), [constructGrid]
    without positions returns a grid of [height] rows of [width] zeros.  No
    row of it is full when the width is positive; with a width of zero every
    row is empty and [findFullRowsOfGrid] reports all of them as full. *)
Theorem constructGrid_without_positions (width height : Z)
  (Hwidth : 0 <= width < 2 ^ 32) (Hheight : height < 2 ^ 32) :
  exists grid,
    constructGrid width height None = Ok grid
    /\ dims (Z.to_nat height) (Z.to_nat width) grid
    /\ (forall i j, (i < Z.to_nat height)%nat -> (j < Z.to_nat width)%nat ->
          cell grid i j = Num 0)
    /\ (0 < width -> findFullRowsOfGrid grid = [])
    /\ (width = 0 ->
          findFullRowsOfGrid grid = map Z.of_nat (seq 0 (Z.to_nat height))).
Proof.
  eexists. split; [reflexivity|].
  split; [apply emptyGrid_dims|].
  split; [intros i j Hi Hj; now apply emptyGrid_cell|].
  unfold findFullRowsOfGrid. split.
  - intros Hw. apply fullRowsFrom_none. apply Forall_forall.
    intros row Hrow. apply repeat_spec in Hrow. subst row.
    destruct (Z.to_nat width) eqn:E; [lia | reflexivity].
  - intros Hw. rewrite fullRowsFrom_all.
    + rewrite repeat_length. apply map_ext. intros i. lia.
    + apply Forall_forall. intros row Hrow. apply repeat_spec in Hrow.
      subst row. replace (Z.to_nat width) with 0%nat by lia. reflexivity.
Qed.

Lemma fullRowsFrom_sorted (grid : NumbersMatrix) :
  forall k,
    Forall (fun i => k <= i) (fullRowsFrom k grid)
    /\ StronglySorted Z.lt (fullRowsFrom k grid).
Proof.
  induction grid as [|row rest IH]; intros k; cbn [fullRowsFrom].
  - split; constructor.
  - destruct (IH (k + 1)) as [Hge Hsorted].
    assert (Hge' : Forall (fun i => k <= i) (fullRowsFrom (k + 1) rest)).
    { eapply Forall_impl; [|exact Hge]. intros i Hi. simpl in Hi. lia. }
    destruct (forallb is_one row).
    + split.
      * constructor; [lia | assumption].
      * constructor; [assumption|].
        eapply Forall_impl; [|exact Hge]. intros i Hi. simpl in Hi. lia.
    + now split.
Qed.

(** X4. [findFullRowsOfGrid] returns, in strictly increasing order, exactly
    the indices of the rows all of whose cells are 1. *)
Theorem findFullRowsOfGrid_exact (grid : NumbersMatrix) :
  StronglySorted Z.lt (findFullRowsOfGrid grid)
  /\ forall i,
       In i (findFullRowsOfGrid grid) <->
       exists k, (k < length grid)%nat /\ i = Z.of_nat k
                 /\ forallb is_one (nth k grid []) = true.
Proof.
  split; [apply fullRowsFrom_sorted|].
  intros i. unfold findFullRowsOfGrid. rewrite fullRowsFrom_filter.
  rewrite in_map_iff. split.
  - intros (k & <- & Hk). apply filter_In in Hk. destruct Hk as [Hk Hfull].
    apply in_seq in Hk. exists k. repeat split; [lia | assumption].
  - intros (k & Hk & -> & Hfull). exists k. split; [lia|].
    apply filter_In. split; [apply in_seq; lia | assumption].
Qed.

(** ** rotateMatrix: errors and composition *)

Lemma mapi_res_not_numeric {A B} (f : nat -> A -> Result B) (l : list A) :
  (forall i a, f i a <> NotNumeric) ->
  forall k, mapi_res f k l <> NotNumeric.
Proof.
  intros Hf. induction l as [|a l IH]; intros k; simpl; [discriminate|].
  destruct (f k a) eqn:E; simpl; try discriminate; [|now apply Hf in E].
  specialize (IH (S k)). destruct (mapi_res f (S k) l); simpl; congruence.
Qed.

Lemma mapi_res_throws {A B} (f : nat -> A -> Result B) (l : list A) :
  (forall i a, f i a <> NotNumeric) ->
  forall k i a,
    nth_error l i = Some a -> f (k + i)%nat a = TypeError ->
    mapi_res f k l = TypeError.
Proof.
  intros Hf. induction l as [|b l IH]; intros k i a Hi Ha.
  - destruct i; discriminate.
  - simpl. destruct i as [|i].
    + injection Hi as ->. rewrite Nat.add_0_r in Ha. now rewrite Ha.
    + destruct (f k b) eqn:E; simpl; [|reflexivity | now apply Hf in E].
      rewrite (IH (S k) i a Hi); [reflexivity|].
      now replace (S k + i)%nat with (k + S i)%nat by lia.
Qed.

Lemma rotateMatrix_long_row (mx : NumbersMatrix) (i : nat) (row : list Cell) :
  nth_error mx i = Some row -> (length mx < length row)%nat ->
  rotateMatrix mx = TypeError.
Proof.
  intros Hrow Hlong. unfold rotateMatrix.
  assert (Hcell : forall i' j (c : Cell),
            match index mx (Z.of_nat (length mx) - Z.of_nat j - 1) with
            | Some r => Ok (nth i' r Undef)
            | None => TypeError
            end <> NotNumeric).
  { intros i' j c. destruct (index mx _); discriminate. }
  apply mapi_res_throws with (i := i) (a := row); [|assumption|].
  - intros i' r. apply mapi_res_not_numeric. intros j c. now apply Hcell.
  - destruct (nth_error row (length mx)) as [c|] eqn:Ec.
    + apply mapi_res_throws with (i := length mx) (a := c);
        [intros j c'; now apply Hcell | assumption |].
      simpl. replace (Z.of_nat (length mx) - Z.of_nat (length mx) - 1)
        with (-1) by lia. reflexivity.
    + apply nth_error_None in Ec. lia.
Qed.

(** X5. [rotateMatrix] throws exactly when some row is longer than the matrix
    is high.  Otherwise it returns a matrix with as many rows, each as long
    as the row it replaces, whose cell [(i, j)] is the cell [(n - 1 - j, i)]
    of the argument, [undefined] where that row is too short. *)
Theorem rotateMatrix_throws_or_rotates (mx : NumbersMatrix) :
  (~ rows_fit mx -> rotateMatrix mx = TypeError)
  /\ (rows_fit mx ->
        exists mx',
          rotateMatrix mx = Ok mx'
          /\ length mx' = length mx
          /\ (forall i, length (nth i mx' []) = length (nth i mx []))
          /\ (forall i j, (i < length mx)%nat -> (j < length (nth i mx []))%nat ->
                cell mx' i j = cell mx (length mx - 1 - j) i)).
Proof.
  split.
  - intros Hnot. unfold rows_fit in Hnot.
    apply neg_Forall_Exists_neg in Hnot;
      [|intros row; apply le_dec].
    apply Exists_exists in Hnot. destruct Hnot as (row & Hin & Hlong).
    destruct (In_nth_error _ _ Hin) as [i Hi].
    apply (rotateMatrix_long_row mx i Hi). lia.
  - intros Hfit. exists (rotated mx).
    split; [now apply rotateMatrix_rows_fit|].
    split; [apply rotated_length|].
    split; [apply rotated_row_length|].
    intros i j Hi Hj. unfold cell at 1. unfold rotated.
    rewrite (nth_mapi _ [] []) by assumption.
    now rewrite (nth_mapi _ Undef Undef) by assumption.
Qed.

Lemma toInteger_jsRem_integer (a : Z) :
  toInteger (jsRem (inject_Z a) 4) = Z.rem a 4.
Proof.
  unfold jsRem.
  assert (Hq : toInteger (inject_Z a / inject_Z 4) = Z.quot a 4).
  { unfold toInteger, Qdiv, Qmult, Qinv, inject_Z. simpl.
    now rewrite Z.mul_1_r. }
  rewrite Hq.
  apply toInteger_inject.
  rewrite (Z.rem_eq a 4) by discriminate.
  unfold Z.sub. rewrite inject_Z_plus, inject_Z_opp. reflexivity.
Qed.

Lemma iter_rotated_square (n : nat) (mx : NumbersMatrix) (k : nat) :
  square n mx -> square n (Nat.iter k rotated mx).
Proof.
  intros Hsq. induction k as [|k IH]; [assumption|].
  simpl. now apply rotated_square.
Qed.

Lemma iter_rotated_period (n : nat) (mx : NumbersMatrix) (q k : nat) :
  square n mx ->
  Nat.iter (k + 4 * q) rotated mx = Nat.iter k rotated mx.
Proof.
  intros Hsq. induction q as [|q IH]; [now rewrite Nat.mul_0_r, Nat.add_0_r|].
  replace (k + 4 * S q)%nat with (4 + (k + 4 * q))%nat by lia.
  rewrite Nat.iter_add, IH. simpl.
  apply (rotated_four_times (iter_rotated_square k Hsq)).
Qed.

Lemma rotateTimes_square (n : nat) (mx : NumbersMatrix) (k : nat) :
  square n mx -> rotateTimes k mx = Ok (Nat.iter k rotated mx).
Proof.
  intros Hsq.
  now destruct (rotateTimes_rows_fit k (square_rows_fit Hsq)) as [E _].
Qed.

(** X6. On a square matrix rotations add up: for non-negative whole numbers
    of turns, rotating [a] times and then [b] times is rotating [a + b]
    times, and the number of turns only counts modulo 4. *)
Theorem rotateMatrixNTimes_adds_up (n : nat) (mx : NumbersMatrix) (a b : Z)
  (Hsq : square n mx) (Ha : 0 <= a) (Hb : 0 <= b) :
  (m1 <- rotateMatrixNTimes (inject_Z a) mx ;;
   rotateMatrixNTimes (inject_Z b) m1)
  = rotateMatrixNTimes (inject_Z (a + b)) mx
  /\ rotateMatrixNTimes (inject_Z (a + 4)) mx = rotateMatrixNTimes (inject_Z a) mx.
Proof.
  unfold rotateMatrixNTimes. rewrite !toInteger_jsRem_integer.
  rewrite !Z.rem_mod_nonneg by lia.
  rewrite !(rotateTimes_square _ Hsq). cbn [bind].
  rewrite (rotateTimes_square _ (iter_rotated_square _ Hsq)).
  rewrite <- Nat.iter_add.
  split; f_equal.
  - pose proof (Z.mod_pos_bound a 4 ltac:(lia)) as Ba.
    pose proof (Z.mod_pos_bound b 4 ltac:(lia)) as Bb.
    pose proof (Z.mod_pos_bound (a + b) 4 ltac:(lia)) as Bab.
    assert (Hsum : exists q,
              (Z.to_nat (b mod 4) + Z.to_nat (a mod 4))%nat
              = (Z.to_nat ((a + b) mod 4) + 4 * q)%nat).
    { exists (Z.to_nat ((a mod 4 + b mod 4) / 4)).
      rewrite (Z.add_mod a b 4) by lia.
      pose proof (Z.div_mod (a mod 4 + b mod 4) 4 ltac:(lia)) as Hdm.
      pose proof (Z.mod_pos_bound (a mod 4 + b mod 4) 4 ltac:(lia)).
      assert (0 <= (a mod 4 + b mod 4) / 4) by (apply Z.div_pos; lia).
      lia. }
    destruct Hsum as [q ->]. now apply iter_rotated_period with (n := n).
  - replace ((a + 4) mod 4) with (a mod 4); [reflexivity|].
    rewrite <- (Z.mul_1_l 4) at 2. now rewrite Z.mod_add by lia.
Qed.

(** ** scaleToRange and createShape on arbitrary random values *)

Lemma scaled_value_bounds (h k f : Q) :
  (1 <= k)%Q ->
  ((-1 <= h)%Q -> (f <= (h + 1) / 2 * k + f)%Q)
  /\ ((h < 1)%Q -> ((h + 1) / 2 * k + f < k + f)%Q)
  /\ ((h < -1)%Q -> ((h + 1) / 2 * k + f < f)%Q)
  /\ ((1 <= h)%Q -> (k + f <= (h + 1) / 2 * k + f)%Q).
Proof.
  intros Hk. unfold Qdiv. change (/ 2)%Q with (1 # 2)%Q.
  repeat split; intros Hh.
  - assert (0 <= (h + 1) * (1 # 2) * k)%Q; [|lra].
    apply Qmult_le_0_compat; lra.
  - assert ((h + 1) * (1 # 2) * k < 1 * k)%Q; [|lra].
    apply Qmult_lt_compat_r; lra.
  - assert ((h + 1) * (1 # 2) * k < 0 * k)%Q; [|lra].
    apply Qmult_lt_compat_r; lra.
  - assert (1 * k <= (h + 1) * (1 # 2) * k)%Q; [|lra].
    apply Qmult_le_compat_r; lra.
Qed.

Lemma scaleToRange_bounds (h : Q) (from to : Z) :
  from <= to ->
  ((-1 <= h)%Q -> from <= RNG.scaleToRange h from to)
  /\ ((h < 1)%Q -> RNG.scaleToRange h from to <= to)
  /\ ((h < -1)%Q -> RNG.scaleToRange h from to < from)
  /\ ((1 <= h)%Q -> to < RNG.scaleToRange h from to).
Proof.
  intros Hft. unfold RNG.scaleToRange.
  assert (Hk : (1 <= inject_Z (to - from + 1))%Q).
  { rewrite <- (Zle_Qle 1). lia. }
  assert (Hto : (inject_Z (to + 1) == inject_Z (to - from + 1) + inject_Z from)%Q).
  { rewrite <- inject_Z_plus. apply inject_Z_injective. lia. }
  destruct (scaled_value_bounds h (inject_Z from) Hk) as (V1 & V2 & V3 & V4).
  pose proof (Qfloor_le ((h + 1) / 2 * inject_Z (to - from + 1) + inject_Z from))
    as Hfl.
  repeat split; intros Hh.
  - rewrite <- (Qfloor_Z from) at 1. apply Qfloor_resp_le. now apply V1.
  - specialize (V2 Hh). rewrite <- Hto in V2.
    pose proof (Qle_lt_trans _ _ _ Hfl V2) as Hlt.
    rewrite <- Zlt_Qlt in Hlt. lia.
  - specialize (V3 Hh).
    pose proof (Qle_lt_trans _ _ _ Hfl V3) as Hlt.
    rewrite <- Zlt_Qlt in Hlt. lia.
  - specialize (V4 Hh). rewrite <- Hto in V4.
    apply Qfloor_resp_le in V4. rewrite Qfloor_Z in V4. lia.
Qed.

(** ** hash, scale and createShape *)

Lemma index_inside {A} (arr : list A) (k : Z) :
  0 <= k < Z.of_nat (length arr) ->
  exists a, index arr k = Some a /\ In a arr.
Proof.
  intros Hk. unfold index. destruct (Z.ltb_spec k 0); [lia|].
  destruct (nth_error arr (Z.to_nat k)) as [a|] eqn:E.
  - exists a. split; [reflexivity|]. eapply nth_error_In; eauto.
  - apply nth_error_None in E. lia.
Qed.

Lemma createShape_in_range (randomPair : Q * Q) (n : Z) :
  (-1 <= fst randomPair < 1)%Q -> (-1 <= snd randomPair < 1)%Q ->
  exists sh,
    createShape randomPair n = Ok sh
    /\ id sh = n /\ x sh = 0 /\ y sh = 0 /\ blocks sh = [] /\ fix_ sh = false
    /\ In (type sh) ALL_SHAPE_TYPES /\ In (angle sh) ALL_SHAPE_ANGLES
    /\ width sh = Block.WIDTH * Z.of_nat (length (matrix (type sh)))
    /\ height sh = Block.HEIGHT * Z.of_nat (length (matrix (type sh)))
    /\ index ALL_SHAPE_TYPES (RNG.scaleToRange (fst randomPair) 0 6)
       = Some (type sh)
    /\ index ALL_SHAPE_ANGLES (RNG.scaleToRange (snd randomPair) 0 3)
       = Some (angle sh).
Proof.
  destruct randomPair as [h0 h1]. cbn [fst snd]. intros [L0 U0] [L1 U1].
  destruct (scaleToRange_bounds h0 (from := 0) (to := 6) ltac:(lia))
    as (T1l & T1u & _).
  destruct (scaleToRange_bounds h1 (from := 0) (to := 3) ltac:(lia))
    as (A1l & A1u & _).
  specialize (T1l L0). specialize (T1u U0).
  specialize (A1l L1). specialize (A1u U1).
  unfold createShape. cbn [fst snd].
  change (Z.of_nat (length ALL_SHAPE_TYPES) - 1) with 6.
  change (Z.of_nat (length ALL_SHAPE_ANGLES) - 1) with 3.
  destruct (@index_inside _ ALL_SHAPE_TYPES (RNG.scaleToRange h0 0 6))
    as (ty & Ety & Hty); [simpl; lia|].
  destruct (@index_inside _ ALL_SHAPE_ANGLES (RNG.scaleToRange h1 0 3))
    as (ang & Eang & Hang); [simpl; lia|].
  rewrite Ety, Eang.
  pose proof catalog_square as Hcat. rewrite Forall_forall in Hcat.
  destruct (Hcat ty Hty) as (k & Hk & Hrows).
  destruct (matrix ty) as [|row0 rest] eqn:Em.
  - exfalso. simpl in Hty.
    decompose [or] Hty; subst; try discriminate; contradiction.
  - eexists. split; [reflexivity|].
    cbn [id x y blocks fix_ type angle width height].
    assert (Hlen : length row0 = length (row0 :: rest))
      by (inversion Hrows; subst; congruence).
    rewrite Em, Hlen. repeat split; assumption.
Qed.

(** X9. For a seed whose product [a * seed + c] is below 2^53 in magnitude
    (where the double product of the source is exact): the hash of a
    non-negative seed lies in [0, m) and its scaled value in [-1, 1]; the
    hash of a negative seed is not positive (the remainder takes the sign of
    the dividend), so its scaled value is at most -1. *)
Theorem hash_and_scale_ranges (seed : Z)
  (Hexact : Z.abs (RNG.a * seed + RNG.c) < 2 ^ 53) :
  (0 <= seed ->
     0 <= RNG.hash seed < RNG.m
     /\ (-1 <= RNG.scale (RNG.hash seed) <= 1)%Q)
  /\ (seed < 0 ->
        - RNG.m < RNG.hash seed <= 0
        /\ (RNG.scale (RNG.hash seed) <= -1)%Q).
Proof.
  assert (Hscale : forall h,
            (0 <= h -> (-1 <= RNG.scale h)%Q)
            /\ (h <= RNG.m - 1 -> (RNG.scale h <= 1)%Q)
            /\ (h <= 0 -> (RNG.scale h <= -1)%Q)).
  { intros h. unfold RNG.scale, RNG.m.
    change (0x80000000 - 1) with 2147483647.
    assert (Hd : (0 < inject_Z 2147483647)%Q) by reflexivity.
    repeat split; intros Hh.
    - assert (0 <= inject_Z (2 * h) / inject_Z 2147483647)%Q; [|lra].
      apply Qle_shift_div_l; [assumption|].
      rewrite Qmult_0_l. rewrite <- (Zle_Qle 0). lia.
    - assert (inject_Z (2 * h) / inject_Z 2147483647 <= 2)%Q; [|lra].
      apply Qle_shift_div_r; [assumption|].
      change (2 * inject_Z 2147483647)%Q with (inject_Z 4294967294).
      rewrite <- Zle_Qle. lia.
    - assert (inject_Z (2 * h) / inject_Z 2147483647 <= 0)%Q; [|lra].
      apply Qle_shift_div_r; [assumption|].
      rewrite Qmult_0_l. rewrite <- (Zle_Qle _ 0). lia. }
  split; intros Hs.
  - assert (Hh : 0 <= RNG.hash seed < RNG.m).
    { unfold RNG.hash. apply Z.rem_bound_pos; unfold RNG.a, RNG.c, RNG.m; lia. }
    split; [assumption|].
    destruct (Hscale (RNG.hash seed)) as (S1 & S2 & _).
    split; [apply S1 | apply S2]; lia.
  - assert (Hh : - RNG.m < RNG.hash seed <= 0).
    { unfold RNG.hash.
      assert (Hneg : RNG.a * seed + RNG.c <= 0)
        by (unfold RNG.a, RNG.c; lia).
      pose proof (Z.rem_nonpos _ RNG.m ltac:(discriminate) Hneg) as Hle.
      pose proof (Z.rem_bound_abs (RNG.a * seed + RNG.c) RNG.m
                    ltac:(discriminate)) as Hb.
      change (Z.abs RNG.m) with RNG.m in Hb. lia. }
    split; [assumption|].
    destruct (Hscale (RNG.hash seed)) as (_ & _ & S3). apply S3. lia.
Qed.

(** ** The pairs of the game cycle *)

Lemma first_stream_checked :
  forallb firstEntryFits (orbit RNG64.hash (Z.to_nat 18845) 16012004%float)
  = true.
Proof. vm_compute. reflexivity. Qed.

Lemma second_stream_checked :
  forallb secondEntryFits (orbit RNG64.hash (Z.to_nat 13597) 19082004%float)
  = true.
Proof. vm_compute. reflexivity. Qed.

(** X10. Every pair of random values the game cycle ever receives has both
    entries in [-1, 1); its first entry is scaled to a catalog index in
    [0, 6] and to a grid column in [0, 9], its second entry to an angle index
    in [0, 3] and to a grid row in [10, 19].  The value 1, which
    [scaleToRange] sends past the range, is never produced. *)
Theorem game_cycle_pairs_fit (n : nat) :
  let v0 := fst (gameCyclePair n) in
  let v1 := snd (gameCyclePair n) in
  inHalfOpenUnit v0 = true
  /\ within 0 6 (RNG64.scaleToRange v0 0 6) = true
  /\ within 0 9 (RNG64.scaleToRange v0 0 9) = true
  /\ inHalfOpenUnit v1 = true
  /\ within 0 3 (RNG64.scaleToRange v1 0 3) = true
  /\ within 10 19 (RNG64.scaleToRange v1 10 19) = true.
Proof.
  pose proof first_stream_checked as H0.
  pose proof second_stream_checked as H1.
  rewrite forallb_forall in H0, H1.
  assert (F0 : firstEntryFits (Nat.iter (S n) RNG64.hash 16012004%float) = true).
  { destruct (@eventually_periodic _ RNG64.hash 16012004%float
                (Z.to_nat 18845) (Z.to_nat 8379))
      with (n := S n) as (k & Hk & ->);
      [lia | vm_compute; reflexivity |].
    apply H0. now apply orbit_iter. }
  assert (F1 : secondEntryFits (Nat.iter (S n) RNG64.hash 19082004%float) = true).
  { destruct (@eventually_periodic _ RNG64.hash 19082004%float
                (Z.to_nat 13597) (Z.to_nat 3131))
      with (n := S n) as (k & Hk & ->);
      [lia | vm_compute; reflexivity |].
    apply H1. now apply orbit_iter. }
  unfold firstEntryFits in F0. unfold secondEntryFits in F1.
  cbv zeta in F0, F1.
  apply andb_true_iff in F0. destruct F0 as [F0 F0c].
  apply andb_true_iff in F0. destruct F0 as [F0a F0b].
  apply andb_true_iff in F1. destruct F1 as [F1 F1c].
  apply andb_true_iff in F1. destruct F1 as [F1a F1b].
  unfold gameCyclePair, rng_. cbn [fst snd].
  repeat split; assumption.
Qed.

Lemma inUnitValue_sound (v : float) :
  inUnitValue v = true ->
  isFinite v = true /\ (-1 <= valueOf v < 1)%Q.
Proof.
  unfold inUnitValue. intros H.
  apply andb_true_iff in H. destruct H as [H Hu].
  apply andb_true_iff in H. destruct H as [Hf Hl].
  split; [exact Hf|]. split.
  - now apply Qle_bool_iff.
  - apply Qnot_le_lt. intros Hle. apply Qle_bool_iff in Hle.
    rewrite Hle in Hu. discriminate.
Qed.

Lemma first_stream_exact :
  forallb firstEntryExact (orbit RNG64.hash (Z.to_nat 18845) 16012004%float)
  = true.
Proof. vm_compute. reflexivity. Qed.

Lemma second_stream_exact :
  forallb secondEntryExact (orbit RNG64.hash (Z.to_nat 13597) 19082004%float)
  = true.
Proof. vm_compute. reflexivity. Qed.

Lemma stream_pair_exact (n : nat) :
  (inUnitValue (fst (gameCyclePair n)) = true
   /\ scalesAlike (fst (gameCyclePair n)) 0 6 = true
   /\ scalesAlike (fst (gameCyclePair n)) 0 9 = true)
  /\ (inUnitValue (snd (gameCyclePair n)) = true
      /\ scalesAlike (snd (gameCyclePair n)) 0 3 = true
      /\ scalesAlike (snd (gameCyclePair n)) 10 19 = true).
Proof.
  pose proof first_stream_exact as H0.
  pose proof second_stream_exact as H1.
  rewrite forallb_forall in H0, H1.
  specialize (H0 _ (first_stream_hash (S n))).
  specialize (H1 _ (second_stream_hash (S n))).
  unfold firstEntryExact in H0. unfold secondEntryExact in H1.
  cbv zeta in H0, H1.
  apply andb_true_iff in H0. destruct H0 as [H0 H0c].
  apply andb_true_iff in H0. destruct H0 as [H0a H0b].
  apply andb_true_iff in H1. destruct H1 as [H1 H1c].
  apply andb_true_iff in H1. destruct H1 as [H1a H1b].
  unfold gameCyclePair, rng_. cbn [fst snd].
  repeat split; assumption.
Qed.

Lemma pairValue_inUnitRange (n : nat) : inUnitRange (pairValue n).
Proof.
  destruct (stream_pair_exact n) as [(H0 & _) (H1 & _)].
  unfold inUnitRange, pairValue. cbn [fst snd]. split.
  - now apply inUnitValue_sound.
  - now apply inUnitValue_sound.
Qed.

(** X7. On the values the two random streams of the program deliver, the
    rational [scaleToRange] of the embedding returns what the binary64
    [scaleToRange] of the source returns: every delivered value is a number
    of [-1, 1), and for the four ranges the engine asks for (catalog index
    and grid column for the first entry of a pair, angle index and grid row
    for the second) the two results are the same number. *)
Theorem scaleToRange_exact_on_stream_values (n : nat) :
  let v0 := fst (gameCyclePair n) in
  let v1 := snd (gameCyclePair n) in
  (isFinite v0 = true /\ (-1 <= valueOf v0 < 1)%Q
   /\ PrimFloat.eqb (RNG64.scaleToRange v0 0 6)
        (RNG64.ofInteger (RNG.scaleToRange (valueOf v0) 0 6)) = true
   /\ PrimFloat.eqb (RNG64.scaleToRange v0 0 9)
        (RNG64.ofInteger (RNG.scaleToRange (valueOf v0) 0 9)) = true)
  /\ (isFinite v1 = true /\ (-1 <= valueOf v1 < 1)%Q
      /\ PrimFloat.eqb (RNG64.scaleToRange v1 0 3)
           (RNG64.ofInteger (RNG.scaleToRange (valueOf v1) 0 3)) = true
      /\ PrimFloat.eqb (RNG64.scaleToRange v1 10 19)
           (RNG64.ofInteger (RNG.scaleToRange (valueOf v1) 10 19)) = true).
Proof.
  intros v0 v1.
  destruct (stream_pair_exact n) as [(U0 & A0 & B0) (U1 & A1 & B1)].
  destruct (inUnitValue_sound _ U0) as [F0 R0].
  destruct (inUnitValue_sound _ U1) as [F1 R1].
  split; (split; [assumption|]; split; [assumption|]; split; assumption).
Qed.

(** X8. For every pair the random streams deliver, [createShape] returns a
    shape: its type is the catalog entry and its angle the entry of the
    angle table at the indices the binary64 [scaleToRange] of the source
    computes from the two values; it has the given id, sits at (0, 0), has no
    blocks, is not fixed, and has the width and the height of its matrix in
    pixels. *)
Theorem createShape_on_stream_pairs (n : nat) (shapeId : Z) :
  exists sh typeIndex angleIndex,
    createShape (pairValue n) shapeId = Ok sh
    /\ PrimFloat.eqb (RNG64.scaleToRange (fst (gameCyclePair n)) 0 6)
         (RNG64.ofInteger typeIndex) = true
    /\ PrimFloat.eqb (RNG64.scaleToRange (snd (gameCyclePair n)) 0 3)
         (RNG64.ofInteger angleIndex) = true
    /\ index ALL_SHAPE_TYPES typeIndex = Some (type sh)
    /\ index ALL_SHAPE_ANGLES angleIndex = Some (angle sh)
    /\ id sh = shapeId /\ x sh = 0 /\ y sh = 0
    /\ blocks sh = [] /\ fix_ sh = false
    /\ width sh = Block.WIDTH * Z.of_nat (length (matrix (type sh)))
    /\ height sh = Block.HEIGHT * Z.of_nat (length (matrix (type sh))).
Proof.
  destruct (pairValue_inUnitRange n) as [R0 R1].
  destruct (@createShape_in_range (pairValue n) shapeId R0 R1)
    as (sh & E & Hid & Hx & Hy & Hb & Hf & _ & _ & Hw & Hh & Ety & Eang).
  destruct (stream_pair_exact n) as [(_ & A0 & _) (_ & A1 & _)].
  exists sh, (RNG.scaleToRange (fst (pairValue n)) 0 6),
    (RNG.scaleToRange (snd (pairValue n)) 0 3).
  repeat split; assumption.
Qed.

(** ** The blocks of a shape *)

Lemma toInteger_sign (q : Q) :
  toInteger q = if 0 <=? Qnum q then Qfloor q else - Qfloor (- q).
Proof.
  unfold toInteger. destruct q as [a d]. cbn [Qnum Qden].
  destruct (Z.leb_spec 0 a).
  - cbn [Qfloor]. apply Z.quot_div_nonneg; lia.
  - cbn [Qopp Qfloor Qnum Qden].
    replace a with (- - a) at 1 by lia.
    rewrite Z.quot_opp_l by discriminate.
    f_equal. apply Z.quot_div_nonneg; lia.
Qed.

Lemma toInteger_same_value (p q : Q) : p == q -> toInteger p = toInteger q.
Proof.
  intros E. rewrite !toInteger_sign.
  assert (Hs : (0 <=? Qnum p) = (0 <=? Qnum q)).
  { unfold Qeq in E.
    destruct (Z.leb_spec 0 (Qnum p)), (Z.leb_spec 0 (Qnum q));
      try reflexivity; exfalso; nia. }
  rewrite Hs. destruct (0 <=? Qnum q).
  - now apply Qfloor_comp.
  - f_equal. apply Qfloor_comp. now rewrite E.
Qed.

Lemma jsRem_integer (q : Q) (a : Z) :
  q == inject_Z a -> jsRem q 4 == inject_Z (Z.rem a 4).
Proof.
  intros E. unfold jsRem.
  assert (Hq : toInteger (q / inject_Z 4) = Z.quot a 4).
  { rewrite (toInteger_same_value (p := q / inject_Z 4)
               (q := inject_Z a / inject_Z 4)) by now rewrite E.
    unfold toInteger, Qdiv, Qmult, Qinv, inject_Z. simpl.
    now rewrite Z.mul_1_r. }
  rewrite Hq, E.
  rewrite (Z.rem_eq a 4) by discriminate.
  unfold Z.sub. rewrite inject_Z_plus, inject_Z_opp. reflexivity.
Qed.

Lemma rotateCount_of_angle (k : Z) :
  toInteger (jsRem (jsRem (inject_Z (90 * k) / 90) 4) 4) = Z.rem k 4.
Proof.
  assert (E : inject_Z (90 * k) / 90 == inject_Z k).
  { rewrite inject_Z_mult. field. }
  apply toInteger_inject.
  rewrite (jsRem_integer (jsRem_integer E)).
  now rewrite Z.rem_rem by discriminate.
Qed.

Lemma is_one_Num1 (c : Cell) : is_one c = true <-> c = Num 1.
Proof.
  split; [|now intros ->].
  destruct c as [z|]; [|discriminate].
  destruct z as [|p|p]; try discriminate.
  destruct p; try discriminate. reflexivity.
Qed.

Lemma dropNulls_In {A} (l : list (option A)) (a : A) :
  In a (dropNulls l) <-> In (Some a) l.
Proof.
  induction l as [|[c|] l IH]; simpl.
  - tauto.
  - rewrite IH. split; intros [H|H]; auto; left; congruence.
  - rewrite IH. split; [auto | intros [H|H]; [discriminate | assumption]].
Qed.

Lemma dropNulls_app {A} (l1 l2 : list (option A)) :
  dropNulls (l1 ++ l2) = dropNulls l1 ++ dropNulls l2.
Proof.
  induction l1 as [|[c|] l1 IH]; simpl; now rewrite ?IH.
Qed.

Lemma mapi_In {A B} (g : nat -> A -> B) (b : B) (l : list A) :
  forall k,
    In b (mapi g k l) <->
    exists i a, nth_error l i = Some a /\ b = g (k + i)%nat a.
Proof.
  induction l as [|c l IH]; intros k; simpl.
  - split; [tauto|]. intros (i & a & E & _). destruct i; discriminate.
  - rewrite IH. split.
    + intros [H|(i & a & E & ->)].
      * exists 0%nat, c. rewrite Nat.add_0_r. now split.
      * exists (S i), a. split; [assumption|]. f_equal. lia.
    + intros (i & a & E & ->). destruct i as [|i].
      * left. simpl in E. injection E as ->. now rewrite Nat.add_0_r.
      * right. exists i, a. split; [assumption|]. f_equal. lia.
Qed.

Lemma renderRow_In (shape : Shape) (i : nat) (row : list Cell)
  (b : SingleBlock) :
  In (Some b) (renderRow shape i row) <->
  exists j, (j < length row)%nat /\ nth j row Undef = Num 1
            /\ b = blockAt shape i j.
Proof.
  unfold renderRow. rewrite mapi_In. split.
  - intros (j & c & E & Hb). cbn [Nat.add] in Hb.
    destruct (is_one c) eqn:Ec; [|discriminate].
    apply is_one_Num1 in Ec. subst c.
    exists j. split; [apply nth_error_Some; congruence|].
    split; [now apply nth_error_nth|].
    injection Hb as ->. reflexivity.
  - intros (j & Hj & Ec & ->).
    exists j, (Num 1). split.
    + rewrite <- Ec. now apply nth_error_nth'.
    + reflexivity.
Qed.

Lemma rendered_In (shape : Shape) (mx : NumbersMatrix) (b : SingleBlock) :
  In b (dropNulls (concat (mapi (renderRow shape) 0%nat mx))) <->
  exists i j, (i < length mx)%nat /\ (j < length (nth i mx []))%nat
              /\ cell mx i j = Num 1 /\ b = blockAt shape i j.
Proof.
  rewrite dropNulls_In, in_concat. split.
  - intros (l & Hl & Hb). apply mapi_In in Hl.
    destruct Hl as (i & row & E & ->). cbn [Nat.add] in Hb.
    apply renderRow_In in Hb. destruct Hb as (j & Hj & Ec & ->).
    exists i, j. unfold cell. rewrite (nth_error_nth _ _ _ E).
    repeat split; try assumption. apply nth_error_Some. congruence.
  - intros (i & j & Hi & Hj & Ec & ->).
    exists (renderRow shape i (nth i mx [])). split.
    + apply mapi_In. exists i, (nth i mx []). split; [|reflexivity].
      now apply nth_error_nth'.
    + apply renderRow_In. exists j. repeat split; assumption.
Qed.

Lemma renderRow_from (shape : Shape) (i : nat) (row : list Cell) :
  forall k b,
    In b (dropNulls
            (mapi (fun colIndex value =>
                     if is_one value then Some (blockAt shape i colIndex)
                     else None) k row)) ->
    x shape + Z.of_nat k * Block.WIDTH <= bx b
    /\ by_ b = y shape + Z.of_nat i * Block.HEIGHT.
Proof.
  intros k b Hb. apply dropNulls_In, mapi_In in Hb.
  destruct Hb as (j & c & _ & Hb).
  destruct (is_one c); [|discriminate]. injection Hb as ->.
  cbn [blockAt bx by_]. layout. split; [lia | reflexivity].
Qed.

Lemma renderRow_distinct (shape : Shape) (i : nat) (row : list Cell) :
  forall k,
    NoDup (map positionOf
             (dropNulls
                (mapi (fun colIndex value =>
                         if is_one value then Some (blockAt shape i colIndex)
                         else None) k row))).
Proof.
  induction row as [|c row IH]; intros k; simpl; [constructor|].
  destruct (is_one c); simpl; [|apply IH].
  constructor; [|apply IH].
  intros Hin. apply in_map_iff in Hin. destruct Hin as (b & Eb & Hb).
  apply renderRow_from in Hb. destruct Hb as [Hb _].
  unfold positionOf in Eb. cbn [blockAt bx by_] in Eb.
  injection Eb as Ex _. layout. lia.
Qed.

Lemma rendered_from (shape : Shape) (mx : NumbersMatrix) :
  forall k b,
    In b (dropNulls (concat (mapi (renderRow shape) k mx))) ->
    y shape + Z.of_nat k * Block.HEIGHT <= by_ b.
Proof.
  intros k b Hb. apply dropNulls_In, in_concat in Hb.
  destruct Hb as (l & Hl & Hb). apply mapi_In in Hl.
  destruct Hl as (i & row & _ & ->).
  apply dropNulls_In, renderRow_from in Hb. destruct Hb as [_ ->].
  layout. lia.
Qed.

Lemma rendered_distinct (shape : Shape) (mx : NumbersMatrix) :
  forall k,
    NoDup (map positionOf
             (dropNulls (concat (mapi (renderRow shape) k mx)))).
Proof.
  induction mx as [|row mx IH]; intros k; simpl; [constructor|].
  rewrite dropNulls_app, map_app. apply NoDup_app.
  - apply renderRow_distinct.
  - apply IH.
  - intros p H1 H2.
    apply in_map_iff in H1. destruct H1 as (b1 & <- & H1).
    apply in_map_iff in H2. destruct H2 as (b2 & E & H2).
    apply renderRow_from in H1. destruct H1 as [_ H1].
    apply rendered_from in H2.
    unfold positionOf in E. injection E as _ Ey.
    rewrite Nat2Z.inj_succ in H2. layout. lia.
Qed.

Lemma iter_rotated_row_length (n : nat) (mx : NumbersMatrix) (k i : nat) :
  square n mx -> (i < n)%nat ->
  length (Nat.iter k rotated mx) = n
  /\ length (nth i (Nat.iter k rotated mx) []) = n.
Proof.
  intros Hsq Hi. destruct (iter_rotated_square k Hsq) as [Hlen Hrows].
  split; [assumption|].
  rewrite Forall_forall in Hrows. apply Hrows, nth_In. lia.
Qed.

(** X11. A shape with a square matrix and an angle of [90 * k] degrees is
    rasterized from its matrix rotated [k rem 4] times: there is exactly one
    block for each cell of the rotated matrix that holds 1, placed at the
    cell's column and row counted from the position of the shape, of the size
    of a grid cell, inside the bounding box of the shape; no two of the
    blocks are at the same position. *)
Theorem renderBlocksFromShape_cells (n : nat) (shape : Shape) (k : Z)
  (Hsq : square n (matrix (type shape))) (Hangle : angle shape = 90 * k) :
  let rotatedMatrix :=
    Nat.iter (Z.to_nat (Z.rem k 4)) rotated (matrix (type shape)) in
  exists newBlocks,
    renderBlocksFromShape shape = Ok newBlocks
    /\ (forall b,
          In b newBlocks <->
          exists i j, (i < n)%nat /\ (j < n)%nat
                      /\ cell rotatedMatrix i j = Num 1
                      /\ b = blockAt shape i j)
    /\ NoDup (map positionOf newBlocks)
    /\ Forall (fun b =>
                 x shape <= bx b
                 /\ bx b + bwidth b <= x shape + Z.of_nat n * Block.WIDTH
                 /\ y shape <= by_ b
                 /\ by_ b + bheight b <= y shape + Z.of_nat n * Block.HEIGHT)
              newBlocks.
Proof.
  intros rotatedMatrix.
  unfold renderBlocksFromShape, rotateMatrixNTimes.
  rewrite Hangle, rotateCount_of_angle.
  rewrite (rotateTimes_square _ Hsq). fold rotatedMatrix. cbn [bind].
  eexists. split; [reflexivity|].
  assert (Hin : forall b,
            In b (dropNulls (concat (mapi (renderRow shape) 0%nat rotatedMatrix)))
            <-> exists i j, (i < n)%nat /\ (j < n)%nat
                            /\ cell rotatedMatrix i j = Num 1
                            /\ b = blockAt shape i j).
  { intros b. rewrite rendered_In. split.
    - intros (i & j & Hi & Hj & Ec & ->).
      destruct (iter_rotated_square (Z.to_nat (Z.rem k 4)) Hsq) as [Hlen _].
      fold rotatedMatrix in Hlen. rewrite Hlen in Hi.
      destruct (iter_rotated_row_length (Z.to_nat (Z.rem k 4)) Hsq Hi)
        as [_ Hrow].
      fold rotatedMatrix in Hrow. rewrite Hrow in Hj.
      exists i, j. repeat split; assumption.
    - intros (i & j & Hi & Hj & Ec & ->).
      destruct (iter_rotated_row_length (Z.to_nat (Z.rem k 4)) Hsq Hi)
        as [Hlen Hrow].
      fold rotatedMatrix in Hlen, Hrow.
      exists i, j. rewrite Hlen, Hrow. repeat split; assumption. }
  split; [exact Hin|]. split; [apply rendered_distinct|].
  apply Forall_forall. intros b Hb. apply Hin in Hb.
  destruct Hb as (i & j & Hi & Hj & _ & ->).
  cbn [blockAt bx by_ bwidth bheight]. layout. lia.
Qed.

Lemma renderRow_shifted (shape : Shape) (newX newY : Z) (i : nat)
  (row : list Cell) :
  forall k,
    dropNulls
      (mapi (fun colIndex value =>
               if is_one value
               then Some (blockAt (withXY shape newX newY) i colIndex)
               else None) k row)
    = map (shifted (newX - x shape) (newY - y shape))
        (dropNulls
           (mapi (fun colIndex value =>
                    if is_one value then Some (blockAt shape i colIndex)
                    else None) k row)).
Proof.
  induction row as [|c row IH]; intros k; simpl; [reflexivity|].
  destruct (is_one c); simpl; rewrite IH; [|reflexivity].
  f_equal. unfold shifted, blockAt. cbn [withXY x y bx by_ bwidth bheight].
  f_equal; lia.
Qed.

Lemma rendered_shifted (shape : Shape) (newX newY : Z) (mx : NumbersMatrix) :
  forall k,
    dropNulls (concat (mapi (renderRow (withXY shape newX newY)) k mx))
    = map (shifted (newX - x shape) (newY - y shape))
        (dropNulls (concat (mapi (renderRow shape) k mx))).
Proof.
  induction mx as [|row mx IH]; intros k; simpl; [reflexivity|].
  rewrite !dropNulls_app, map_app, IH. f_equal.
  apply renderRow_shifted.
Qed.

(** X12. Moving a shape moves its blocks: rasterizing a shape at a new
    position throws exactly when rasterizing it at the old one does, and
    otherwise gives the same blocks, in the same order, each displaced by the
    difference of the two positions. *)
Theorem renderBlocksFromShape_moved (shape : Shape) (newX newY : Z) :
  renderBlocksFromShape (withXY shape newX newY)
  = (newBlocks <- renderBlocksFromShape shape ;;
     Ok (map (shifted (newX - x shape) (newY - y shape)) newBlocks)).
Proof.
  unfold renderBlocksFromShape. cbn [withXY type angle].
  destruct (rotateMatrixNTimes _ _) as [mx| |]; cbn [bind]; try reflexivity.
  f_equal. apply rendered_shifted.
Qed.

(** ** The rows ScoreAction can read *)

Lemma indexQ_defined {A} (arr : list A) (q : Q) (a : A) :
  indexQ arr q = Some a ->
  exists k, q == inject_Z (Z.of_nat k) /\ (k < length arr)%nat.
Proof.
  unfold indexQ, isInteger, index. intros H.
  destruct (Z.eqb_spec (Z.rem (Qnum q) (Z.pos (Qden q))) 0) as [Hr|];
    [|discriminate].
  destruct (Z.ltb_spec (toInteger q) 0) as [|Hpos]; [discriminate|].
  exists (Z.to_nat (toInteger q)). split.
  - rewrite Z2Nat.id by assumption. unfold toInteger in *.
    unfold Qeq. cbn [inject_Z Qnum Qden]. rewrite Z.mul_1_r.
    pose proof (Z.quot_rem' (Qnum q) (Z.pos (Qden q))) as E.
    rewrite Hr, Z.add_0_r, Z.mul_comm in E. exact E.
  - apply nth_error_Some. congruence.
Qed.

Lemma row_of_position (yb : Z) (k : nat) :
  inject_Z yb / inject_Z Block.HEIGHT == inject_Z (Z.of_nat k) ->
  yb = 20 * Z.of_nat k.
Proof.
  change Block.HEIGHT with 20. intros E.
  assert (E' : inject_Z yb == inject_Z (20 * Z.of_nat k)).
  { rewrite inject_Z_mult, <- E. field. }
  unfold Qeq in E'. cbn [inject_Z Qnum Qden] in E'. lia.
Qed.

Lemma on_row_position (b : SingleBlock) :
  on_row b <->
  exists k, inject_Z (by_ b) / inject_Z Block.HEIGHT == inject_Z (Z.of_nat k)
            /\ (k < 20)%nat.
Proof.
  unfold on_row. layout. split.
  - intros [Hr Hm].
    destruct (@multiple_of_20 (by_ b) 20 ltac:(lia) Hm)
      as (k & Hk & _ & E).
    exists k. split; [|exact Hk]. now apply scaled_position.
  - intros (k & E & Hk). apply row_of_position in E.
    split; [lia|]. rewrite E, Z.mul_comm. apply Z.mod_mul. discriminate.
Qed.

Lemma updateGridStep_outcome (g : NumbersMatrix) (p : GridPosition) :
  (exists k, gy p == inject_Z (Z.of_nat k) /\ (k < length g)%nat)
  /\ (exists g', updateGridStep g p = Ok g' /\ length g' = length g)
  \/ (~ exists k, gy p == inject_Z (Z.of_nat k) /\ (k < length g)%nat)
     /\ updateGridStep g p = TypeError.
Proof.
  unfold updateGridStep. destruct (indexQ g (gy p)) as [row|] eqn:E.
  - left. destruct (indexQ_defined _ _ E) as (k & Hq & Hk).
    split; [eauto|]. eexists. split; [reflexivity|].
    rewrite (replace_in_range _ _ Hq Hk). now apply setNth_length.
  - right. split; [|reflexivity].
    intros (k & Hq & Hk).
    rewrite (indexQ_in_range g [] Hq Hk) in E. discriminate.
Qed.

Lemma updateGrid_outcome (h : nat) (ps : list GridPosition) :
  forall g, length g = h ->
    (Forall (fun p => exists k, gy p == inject_Z (Z.of_nat k) /\ (k < h)%nat) ps
     /\ exists g', updateGrid g ps = Ok g')
    \/ (Exists (fun p => ~ exists k, gy p == inject_Z (Z.of_nat k)
                                     /\ (k < h)%nat) ps
        /\ updateGrid g ps = TypeError).
Proof.
  induction ps as [|p ps IH]; intros g Hg; cbn [updateGrid].
  - left. split; [constructor | eauto].
  - destruct (updateGridStep_outcome g p) as [[Hp (g' & -> & Hg')]|[Hp ->]];
      rewrite Hg in Hp.
    + cbn [bind]. destruct (IH g' ltac:(congruence)) as [[Hall E]|[Hex E]].
      * left. split; [now constructor | exact E].
      * right. split; [now apply Exists_cons_tl | exact E].
    + right. split; [now apply Exists_cons_hd | reflexivity].
Qed.

(** X13. [ScoreAction] throws exactly when some fixed block is not on one of
    the twenty rows of the grid (its [y] is negative, at least the canvas
    height, or not a multiple of the block height), and returns a state
    exactly when every fixed block is on a row; the columns of the blocks
    play no part in this. *)
Theorem ScoreAction_throws_off_rows (s : State) :
  (ScoreAction_apply s = TypeError <->
   exists b, In b (allBlocks s) /\ ~ on_row b)
  /\ ((exists s', ScoreAction_apply s = Ok s') <->
      Forall on_row (allBlocks s)).
Proof.
  assert (Hlen : length (repeat (repeat (Num 0) (Z.to_nat GRID_WIDTH))
                           (Z.to_nat GRID_HEIGHT)) = 20%nat)
    by apply repeat_length.
  assert (Hgood : Forall (fun p => exists k, gy p == inject_Z (Z.of_nat k)
                                             /\ (k < 20)%nat)
                    (getGridPositionsFromState s)
                  <-> Forall on_row (allBlocks s)).
  { unfold getGridPositionsFromState, allBlocks.
    rewrite Forall_map, !Forall_forall.
    split; intros H b Hb; specialize (H b Hb); cbn [gy] in *;
      now apply on_row_position. }
  assert (Hbad : Exists (fun p => ~ exists k, gy p == inject_Z (Z.of_nat k)
                                             /\ (k < 20)%nat)
                   (getGridPositionsFromState s)
                 <-> exists b, In b (allBlocks s) /\ ~ on_row b).
  { unfold getGridPositionsFromState, allBlocks.
    rewrite Exists_map, Exists_exists. split; intros (b & Hb & Hn);
      exists b; (split; [assumption|]); cbn [gy] in *;
      now rewrite on_row_position in *. }
  assert (Hcontra : Forall on_row (allBlocks s) ->
                    (exists b, In b (allBlocks s) /\ ~ on_row b) -> False).
  { intros Hall (b & Hb & Hn). rewrite Forall_forall in Hall. auto. }
  unfold ScoreAction_apply, constructGrid.
  destruct (@updateGrid_outcome 20 (getGridPositionsFromState s) _ Hlen)
    as [[Hall (g' & ->)]|[Hex ->]]; cbn [bind].
  - apply Hgood in Hall. split; split.
    + discriminate.
    + intros Hex. destruct (Hcontra Hall Hex).
    + intros _. exact Hall.
    + intros _. eauto.
  - apply Hbad in Hex. split; split.
    + intros _. exact Hex.
    + reflexivity.
    + intros (s' & E). discriminate.
    + intros Hall. destruct (Hcontra Hall Hex).
Qed.

(** ** Falling after a clearance *)

Lemma gridCellb_sound (bs : list SingleBlock) :
  forallb gridCellb bs = true -> Forall gridCell bs.
Proof.
  intros H. apply Forall_forall. intros b Hb.
  rewrite forallb_forall in H. specialize (H b Hb). unfold gridCellb in H.
  apply andb_true_iff in H. destruct H as [H Hh].
  apply andb_true_iff in H. destruct H as [H Hw].
  assert (Hg : Forall on_grid [b]).
  { apply on_gridb_sound. simpl. now rewrite H. }
  inversion Hg; subst. split; [assumption|]. split; now apply Z.eqb_eq.
Qed.

Lemma gridCell_on_grid (bs : list SingleBlock) :
  Forall gridCell bs -> Forall on_grid bs.
Proof. apply Forall_impl. now intros b [H _]. Qed.

Lemma withBlocks_same (shape : Shape) : withBlocks shape (blocks shape) = shape.
Proof. now destruct shape. Qed.

Lemma adjustBlocks_no_rows (bs : list SingleBlock) : adjustBlocks [] bs = bs.
Proof.
  unfold adjustBlocks. cbn [existsb negb filter length Z.of_nat].
  induction bs as [|b bs IH]; [reflexivity|]. cbn [filter map].
  rewrite IH. f_equal. rewrite Z.mul_0_r, Z.add_0_r. apply withBlockY_same.
Qed.

Lemma afterClearing_no_rows (s : State) : afterClearing [] s = s.
Proof.
  unfold afterClearing. cbn [map length Z.of_nat].
  rewrite Z.mul_0_l, Z.add_0_r.
  rewrite (map_ext _ (fun shape => shape)), map_id.
  - destruct s as [? ? ? ? st ? ? ?]. now destruct st.
  - intros shape. rewrite adjustBlocks_no_rows. apply withBlocks_same.
Qed.

(** X14. On a board whose fixed blocks sit on grid cells and which has no
    fully occupied row, [ScoreAction] returns the state it was given: no
    block moves and the score stays. *)
Theorem ScoreAction_without_full_row (s : State)
  (Hgrid : Forall on_grid (allBlocks s))
  (Hnone : fullRows (allBlocks s) = []) :
  ScoreAction_apply s = Ok s.
Proof.
  rewrite (ScoreAction_fullRows s Hgrid), Hnone.
  now rewrite afterClearing_no_rows.
Qed.

Lemma count_above_split (rows : list Z) (y1 y2 : Z) :
  y1 <= y2 ->
  length (filter (fun r => r >? y1) rows)
  = Nat.add (length (filter (fun r => r >? y2) rows))
      (length (filter (fun r => (r >? y1) && (r <=? y2)) rows)).
Proof.
  intros Hle. induction rows as [|r rows IH]; [reflexivity|].
  cbn [filter]. rewrite !Z.gtb_ltb.
  destruct (Z.ltb_spec y1 r), (Z.ltb_spec y2 r), (Z.leb_spec r y2);
    cbn [andb length]; lia.
Qed.

Lemma count_between_rows (rows : list Z) (k1 k2 : Z) :
  rowsOfGrid rows -> k1 < k2 -> ~ In (20 * k2) rows ->
  Z.of_nat (length (filter (fun r => (r >? 20 * k1) && (r <=? 20 * k2)) rows))
  <= k2 - k1 - 1.
Proof.
  intros [Hnd Hrows] Hlt Hout.
  pose (slots := map (fun i => 20 * (k1 + 1 + Z.of_nat i))
                   (seq 0 (Z.to_nat (k2 - k1 - 1)))).
  assert (Hlen : length slots = Z.to_nat (k2 - k1 - 1))
    by (unfold slots; now rewrite length_map, length_seq).
  assert (Hincl : incl (filter (fun r => (r >? 20 * k1) && (r <=? 20 * k2)) rows)
                    slots).
  { intros r Hr. apply filter_In in Hr. destruct Hr as [Hin Hb].
    apply andb_true_iff in Hb. destruct Hb as [H1 H2].
    rewrite Forall_forall in Hrows. destruct (Hrows r Hin) as [_ Hm].
    change Block.HEIGHT with 20 in Hm.
    assert (E : r = 20 * (r / 20))
      by (apply Z_div_exact_full_2; [discriminate | assumption]).
    assert (Hne : r <> 20 * k2) by (intros ->; contradiction).
    unfold slots. apply in_map_iff.
    exists (Z.to_nat (r / 20 - k1 - 1)). split; [lia|].
    apply in_seq. lia. }
  pose proof (NoDup_incl_length (NoDup_filter _ Hnd) Hincl) as Hle.
  lia.
Qed.

Lemma droppedTo_increasing (rows : list Z) (k1 k2 : Z) :
  rowsOfGrid rows -> k1 < k2 -> ~ In (20 * k2) rows ->
  droppedTo rows (20 * k1) < droppedTo rows (20 * k2).
Proof.
  intros Hrows Hlt Hout. unfold droppedTo. layout.
  rewrite (@count_above_split rows (20 * k1) (20 * k2)) by lia.
  pose proof (count_between_rows Hrows Hlt Hout). lia.
Qed.

Lemma droppedTo_on_canvas (rows : list Z) (k : Z) :
  rowsOfGrid rows -> 0 <= k < 20 ->
  20 * k <= droppedTo rows (20 * k) < CANVAS_HEIGHT
  /\ droppedTo rows (20 * k) mod Block.HEIGHT = 0.
Proof.
  intros Hrows Hk.
  assert (Hout : ~ In (20 * 20) rows).
  { intros Hin. destruct Hrows as [_ Hrows]. rewrite Forall_forall in Hrows.
    destruct (Hrows _ Hin) as [Hr _]. layout. lia. }
  assert (Hlt : k < 20) by lia.
  pose proof (droppedTo_increasing Hrows Hlt Hout) as Hinc.
  assert (Htop : droppedTo rows (20 * 20) = 400).
  { unfold droppedTo. layout.
    replace (filter (fun clearRow => clearRow >? 20 * 20) rows) with (@nil Z);
      [reflexivity|].
    symmetry. destruct Hrows as [_ Hrows]. clear - Hrows.
    induction Hrows as [|r rows [Hr _] _ IH]; [reflexivity|].
    cbn [filter]. layout. rewrite Z.gtb_ltb.
    destruct (Z.ltb_spec (20 * 20) r); [lia | exact IH]. }
  rewrite Htop in Hinc. unfold droppedTo in *. layout. split; [lia|].
  rewrite Z.add_comm, <- Z.mul_add_distr_l, Z.mul_comm. apply Z.mod_mul.
  discriminate.
Qed.

Lemma droppedTo_one_to_one (rows : list Z) (y1 y2 : Z) :
  rowsOfGrid rows ->
  y1 mod 20 = 0 -> y2 mod 20 = 0 -> ~ In y1 rows -> ~ In y2 rows ->
  droppedTo rows y1 = droppedTo rows y2 -> y1 = y2.
Proof.
  intros Hrows M1 M2 O1 O2 E.
  assert (E1 : y1 = 20 * (y1 / 20))
    by (apply Z_div_exact_full_2; [discriminate | assumption]).
  assert (E2 : y2 = 20 * (y2 / 20))
    by (apply Z_div_exact_full_2; [discriminate | assumption]).
  rewrite E1, E2 in *.
  destruct (Z.lt_trichotomy (y1 / 20) (y2 / 20)) as [H|[H|H]].
  - pose proof (droppedTo_increasing Hrows H O2). lia.
  - now rewrite H.
  - pose proof (droppedTo_increasing Hrows H O1). lia.
Qed.

Lemma adjustBlocks_origin (rows : list Z) (bs : list SingleBlock)
  (b' : SingleBlock) :
  In b' (adjustBlocks rows bs) <->
  exists b, In b bs /\ ~ In (by_ b) rows
            /\ b' = withBlockY b
                      (by_ b + bheight b
                               * Z.of_nat (length (filter (fun clearRow =>
                                                             clearRow >? by_ b)
                                                     rows))).
Proof.
  unfold adjustBlocks. rewrite in_map_iff.
  assert (Hkeep : forall b,
            negb (existsb (Z.eqb (by_ b)) rows) = true <-> ~ In (by_ b) rows).
  { intros b. rewrite negb_true_iff, <- not_true_iff_false, existsb_exists.
    split; intros H C; apply H.
    - exists (by_ b). split; [assumption | apply Z.eqb_refl].
    - destruct C as (r & Hr & Er). apply Z.eqb_eq in Er. now subst r. }
  split.
  - intros (b & <- & Hb). apply filter_In in Hb. destruct Hb as [Hb Hk].
    exists b. repeat split; [assumption | now apply Hkeep].
  - intros (b & Hb & Hk & ->). exists b. split; [reflexivity|].
    apply filter_In. split; [assumption | now apply Hkeep].
Qed.

Lemma adjustBlocks_cell (rows : list Z) (bs : list SingleBlock)
  (b' : SingleBlock) :
  rowsOfGrid rows -> Forall gridCell bs -> In b' (adjustBlocks rows bs) ->
  exists b, In b bs /\ ~ In (by_ b) rows
            /\ b' = withBlockY b (droppedTo rows (by_ b))
            /\ gridCell b'
            /\ by_ b <= by_ b'.
Proof.
  intros Hrows Hcells Hb'. apply adjustBlocks_origin in Hb'.
  destruct Hb' as (b & Hb & Hout & ->).
  rewrite Forall_forall in Hcells.
  destruct (Hcells b Hb) as (Hg & Hw & Hh).
  destruct (on_grid_cell Hg) as (col & row & Hc & Hr & _ & Ex & Ey).
  rewrite Hh. fold (droppedTo rows (by_ b)).
  exists b. repeat split; try assumption; cbn [withBlockY bx by_ bwidth bheight];
    try apply Hg; rewrite Ey;
    destruct (@droppedTo_on_canvas rows (Z.of_nat row) Hrows ltac:(lia))
      as [[Hlo Hhi] Hm]; try assumption; lia.
Qed.

Lemma adjustBlocks_distinct (rows : list Z) (bs : list SingleBlock) :
  rowsOfGrid rows -> Forall gridCell bs -> NoDup (map positionOf bs) ->
  NoDup (map positionOf (adjustBlocks rows bs)).
Proof.
  intros Hrows. induction bs as [|b bs IH]; intros Hcells Hnd.
  - constructor.
  - inversion Hcells as [|? ? Hb Hcells']; subst.
    inversion Hnd as [|? ? Hnotin Hnd']; subst.
    change (b :: bs) with ([b] ++ bs). rewrite adjustBlocks_app, map_app.
    apply NoDup_app.
    + unfold adjustBlocks. cbn [filter].
      destruct (negb _); cbn [map]; repeat constructor; intros [].
    + now apply IH.
    + intros p H1 H2.
      apply in_map_iff in H1. destruct H1 as (c1 & <- & H1).
      apply in_map_iff in H2. destruct H2 as (c2 & E & H2).
      destruct (@adjustBlocks_cell _ [b] _ Hrows ltac:(constructor; [exact Hb | constructor]) H1)
        as (b1 & [<-|[]] & O1 & -> & _ & _).
      destruct (@adjustBlocks_cell _ _ _ Hrows Hcells' H2)
        as (b2 & Hb2 & O2 & -> & _ & _).
      unfold positionOf in E. cbn [withBlockY bx by_] in E.
      injection E as Ex Ey.
      rewrite Forall_forall in Hcells'.
      destruct Hb as ((_ & _ & M1) & _). destruct (Hcells' b2 Hb2) as ((_ & _ & M2) & _).
      change Block.HEIGHT with 20 in M1, M2.
      pose proof (@droppedTo_one_to_one _ _ _ Hrows M2 M1 O2 O1 Ey) as Ey'.
      apply Hnotin. apply in_map_iff. exists b2. split; [|assumption].
      unfold positionOf. congruence.
Qed.

Lemma fullRows_rowsOfGrid (bs : list SingleBlock) :
  rowsOfGrid (map (fun index => index * Block.HEIGHT) (fullRows bs)).
Proof.
  unfold rowsOfGrid, fullRows. layout.
  change (Z.to_nat 20) with 20%nat. split.
  - apply Injective_map_NoDup; [intros a b; lia|].
    apply NoDup_filter.
    apply Injective_map_NoDup; [intros a b; lia|]. apply seq_NoDup.
  - apply Forall_forall. intros r Hr. apply in_map_iff in Hr.
    destruct Hr as (i & <- & Hi). apply filter_In in Hi. destruct Hi as [Hi _].
    apply in_map_iff in Hi. destruct Hi as (k & <- & Hk). apply in_seq in Hk.
    split; [lia|]. apply Z.mod_mul. discriminate.
Qed.

Lemma occupied_block (bs : list SingleBlock) (col row : Z) :
  occupied bs col row = true <->
  exists b, In b bs /\ bx b = col * Block.WIDTH /\ by_ b = row * Block.HEIGHT.
Proof.
  unfold occupied. rewrite existsb_exists.
  split; intros (b & Hb & H); exists b; (split; [assumption|]).
  - apply andb_true_iff in H. destruct H as [H1 H2]. split; lia.
  - apply andb_true_iff. destruct H as [H1 H2]. split; lia.
Qed.

Lemma adjustBlocks_no_full_row (bs : list SingleBlock) :
  Forall gridCell bs ->
  fullRows (adjustBlocks (map (fun index => index * Block.HEIGHT) (fullRows bs))
              bs) = [].
Proof.
  intros Hcells.
  set (rows := map (fun index => index * Block.HEIGHT) (fullRows bs)).
  pose proof (fullRows_rowsOfGrid bs) as Hrows. fold rows in Hrows.
  unfold fullRows at 1.
  match goal with |- filter ?f ?l = [] =>
    assert (Hall : forall r, In r l -> f r = false) end.
  2:{ induction (map Z.of_nat (seq 0 (Z.to_nat GRID_HEIGHT))) as [|r l IH];
        [reflexivity|].
      cbn [filter]. rewrite (Hall r (or_introl eq_refl)).
      apply IH. intros r' Hr'. apply Hall. now right. }
  intros r Hr. apply not_true_iff_false. intros Hfull.
  unfold rowFull in Hfull. rewrite forallb_forall in Hfull.
  change (Z.to_nat GRID_WIDTH) with 10%nat in Hfull.
  assert (Horigin : forall col, In col (map Z.of_nat (seq 0 10)) ->
            exists b, In b bs /\ ~ In (by_ b) rows
                      /\ bx b = col * Block.WIDTH
                      /\ droppedTo rows (by_ b) = r * Block.HEIGHT).
  { intros col Hcol. specialize (Hfull col Hcol).
    apply occupied_block in Hfull. destruct Hfull as (b' & Hb' & Ex & Ey).
    destruct (@adjustBlocks_cell _ _ _ Hrows Hcells Hb')
      as (b & Hb & Hout & -> & _ & _).
    exists b. repeat split; assumption. }
  destruct (Horigin 0 ltac:(simpl; auto)) as (b0 & Hb0 & Hout0 & _ & Ey0).
  rewrite Forall_forall in Hcells.
  destruct (Hcells b0 Hb0) as (Hg0 & _).
  destruct (on_grid_cell Hg0) as (col0 & row0 & _ & Hrow0 & _ & _ & Eb0).
  apply Hout0. unfold rows. apply in_map_iff.
  exists (Z.of_nat row0). split; [layout; lia|].
  unfold fullRows. apply filter_In. split.
  - apply in_map. apply in_seq. change (Z.to_nat GRID_HEIGHT) with 20%nat. lia.
  - unfold rowFull. apply forallb_forall. intros col Hcol.
    change (Z.to_nat GRID_WIDTH) with 10%nat in Hcol.
    destruct (Horigin col Hcol) as (b & Hb & Hout & Ex & Ey).
    apply occupied_block. exists b. repeat split; try assumption.
    destruct (Hcells b Hb) as ((_ & _ & M) & _).
    destruct Hg0 as (_ & _ & M0).
    change Block.HEIGHT with 20 in M, M0.
    rewrite <- Ey0 in Ey.
    rewrite (@droppedTo_one_to_one _ _ _ Hrows M M0 Hout Hout0 Ey).
    layout. lia.
Qed.

(** X15. On a board whose fixed blocks are cells of the grid, [ScoreAction]
    returns a board whose fixed blocks are cells of the grid again: every
    block it keeps is a block of the old board that was on no full row, in
    its old column, at its old row or below it, and none is pushed past the
    bottom row. *)
Theorem ScoreAction_keeps_grid_cells (s : State)
  (Hcells : Forall gridCell (allBlocks s)) :
  exists s',
    ScoreAction_apply s = Ok s'
    /\ Forall gridCell (allBlocks s')
    /\ forall b', In b' (allBlocks s') ->
         exists b, In b (allBlocks s)
                   /\ rowFull (allBlocks s) (by_ b / Block.HEIGHT) = false
                   /\ bx b' = bx b /\ by_ b <= by_ b'.
Proof.
  pose proof (gridCell_on_grid Hcells) as Hgrid.
  rewrite (ScoreAction_fullRows s Hgrid). eexists. split; [reflexivity|].
  rewrite allBlocks_afterClearing.
  pose proof (fullRows_rowsOfGrid (allBlocks s)) as Hrows.
  split.
  - apply Forall_forall. intros b' Hb'.
    now destruct (@adjustBlocks_cell _ _ _ Hrows Hcells Hb')
      as (b & _ & _ & _ & Hc & _).
  - intros b' Hb'.
    destruct (@adjustBlocks_cell _ _ _ Hrows Hcells Hb')
      as (b & Hb & Hout & -> & _ & Hle).
    exists b. split; [assumption|]. split; [|split; [reflexivity|assumption]].
    apply not_true_iff_false. intros Hfull. apply Hout.
    rewrite Forall_forall in Hgrid.
    destruct (on_grid_cell (Hgrid b Hb)) as (col & row & _ & Hr & _ & _ & Ey).
    apply in_map_iff. exists (by_ b / Block.HEIGHT).
    assert (Ediv : by_ b / Block.HEIGHT = Z.of_nat row).
    { rewrite Ey. layout. rewrite Z.mul_comm. now apply Z.div_mul. }
    split; [rewrite Ediv, Ey; layout; lia|].
    unfold fullRows. apply filter_In. split; [|assumption].
    rewrite Ediv. apply in_map. apply in_seq.
    change (Z.to_nat GRID_HEIGHT) with 20%nat. lia.
Qed.

(** X16. Blocks fall without colliding: on a board of grid cells no two of
    which are at the same position, no two blocks of the board [ScoreAction]
    returns are at the same position. *)
Theorem ScoreAction_keeps_blocks_apart (s : State)
  (Hcells : Forall gridCell (allBlocks s))
  (Hapart : NoDup (map positionOf (allBlocks s))) :
  exists s',
    ScoreAction_apply s = Ok s'
    /\ NoDup (map positionOf (allBlocks s')).
Proof.
  rewrite (ScoreAction_fullRows s (gridCell_on_grid Hcells)).
  eexists. split; [reflexivity|].
  rewrite allBlocks_afterClearing.
  apply adjustBlocks_distinct; try assumption. apply fullRows_rowsOfGrid.
Qed.

(** X17. One [ScoreAction] clears everything there is to clear: on a board
    of grid cells, the board it returns has no fully occupied row, and
    applying [ScoreAction] to that board returns it unchanged. *)
Theorem ScoreAction_leaves_no_full_row (s : State)
  (Hcells : Forall gridCell (allBlocks s)) :
  exists s',
    ScoreAction_apply s = Ok s'
    /\ fullRows (allBlocks s') = []
    /\ ScoreAction_apply s' = Ok s'.
Proof.
  pose proof (gridCell_on_grid Hcells) as Hgrid.
  rewrite (ScoreAction_fullRows s Hgrid). eexists. split; [reflexivity|].
  assert (Hnone : fullRows (allBlocks (afterClearing (fullRows (allBlocks s)) s))
                  = []).
  { rewrite allBlocks_afterClearing. now apply adjustBlocks_no_full_row. }
  split; [exact Hnone|].
  assert (Hgrid' : Forall on_grid
                     (allBlocks (afterClearing (fullRows (allBlocks s)) s))).
  { apply gridCell_on_grid. rewrite allBlocks_afterClearing.
    apply Forall_forall. intros b' Hb'.
    now destruct (@adjustBlocks_cell _ _ _ (fullRows_rowsOfGrid (allBlocks s))
                    Hcells Hb') as (b & _ & _ & _ & Hc & _). }
  rewrite (ScoreAction_fullRows _ Hgrid'), Hnone.
  now rewrite afterClearing_no_rows.
Qed.

(** ** The grid of a board *)

Lemma cell_markAll (h w : nat) (cs : list (nat * nat)) (i j : nat) :
  Forall (fun c => (fst c < w)%nat /\ (snd c < h)%nat) cs ->
  forall g, dims h w g ->
    cell (markAll cs g) i j
    = if existsb (fun c => ((i =? snd c) && (j =? fst c))%nat) cs
      then Num 1 else cell g i j.
Proof.
  induction 1 as [|c cs [Hc Hr] _ IH]; intros g Hd; simpl; [reflexivity|].
  rewrite IH by now apply mark_dims.
  rewrite (cell_mark _ _ Hd Hr Hc).
  destruct ((i =? snd c) && (j =? fst c))%nat; simpl; [|reflexivity].
  now destruct (existsb _ cs).
Qed.

(** X18. For a board whose fixed blocks sit on grid cells, [constructGrid]
    with the grid positions of the state returns a grid of 20 rows of 10
    cells in which the cell at a row and a column holds 1 when some fixed
    block is at that column and row, and 0 otherwise. *)
Theorem constructGrid_marks_fixed_blocks (s : State)
  (Hgrid : Forall on_grid (allBlocks s)) :
  exists grid,
    constructGrid GRID_WIDTH GRID_HEIGHT (Some (getGridPositionsFromState s))
    = Ok grid
    /\ length grid = 20%nat
    /\ Forall (fun row => length row = 10%nat) grid
    /\ forall i j, (i < 20)%nat -> (j < 10)%nat ->
         cell grid i j
         = if occupied (allBlocks s) (Z.of_nat j) (Z.of_nat i)
           then Num 1 else Num 0.
Proof.
  unfold constructGrid.
  change (Z.to_nat GRID_WIDTH) with 10%nat.
  change (Z.to_nat GRID_HEIGHT) with 20%nat.
  destruct (updateGrid_markAll (positions_atCell s Hgrid) (emptyGrid_dims 20 10))
    as [E [Dh Dw]].
  eexists. split; [exact E|]. split; [exact Dh|]. split; [exact Dw|].
  intros i j Hi Hj.
  rewrite (cell_markAll i j (cellOf_in_range Hgrid) (emptyGrid_dims 20 10)).
  rewrite (occupied_cell i j Hgrid).
  now rewrite emptyGrid_cell.
Qed.

(** ** Statistics and ids *)

Ltac bookkeeping_parts :=
  split; [|split; [|split; [|split; [|split; [|split; [|split]]]]]].

Lemma bookkeeping_initial : bookkeeping INITIAL_STATE.
Proof.
  bookkeeping_parts; cbn; try lia; try reflexivity; try discriminate.
  exists []. split; [reflexivity | constructor].
Qed.

Lemma createShape_id (randomPair : Q * Q) (n : Z) (sh : Shape) :
  createShape randomPair n = Ok sh -> id sh = n.
Proof.
  unfold createShape.
  destruct (index ALL_SHAPE_TYPES _) as [ty|]; [|discriminate].
  destruct (index ALL_SHAPE_ANGLES _) as [ang|]; [|discriminate].
  destruct (matrix ty); [discriminate|].
  intros H. injection H as <-. reflexivity.
Qed.

Lemma rotateKickShape_keeps (shape : Shape) :
  id (rotateKickShape shape) = id shape
  /\ fix_ (rotateKickShape shape) = fix_ shape
  /\ y (rotateKickShape shape) = y shape
  /\ width (rotateKickShape shape) = width shape
  /\ height (rotateKickShape shape) = height shape
  /\ angle (rotateKickShape shape) = angle shape
  /\ (x (rotateKickShape shape) = x shape
      \/ x (rotateKickShape shape) = 0
      \/ x (rotateKickShape shape) = CANVAS_WIDTH - width shape).
Proof.
  unfold rotateKickShape. cbn [fold_left].
  unfold kickShapeRightWall, kickShapeLeftWall.
  repeat match goal with
         | |- context [if ?b then _ else _] => destruct b
         end; cbn [withX id fix_ x y width height angle];
    repeat split; try reflexivity;
    first [ left; lia | right; left; lia | right; right; lia ].
Qed.

Lemma updateShape_id (s : State) (c r : Shape) :
  updateShape s c = Ok (Some r) ->
  currentShape s = Some r \/ id r = id c.
Proof.
  unfold updateShape. destruct (fix_ c).
  - intros H. left. congruence.
  - destruct (renderBlocksFromShape c) as [newBlocks| |]; try discriminate.
    cbn [bind]. destruct (canUpdate _ _); intros H.
    + right. injection H as <-. reflexivity.
    + left. congruence.
Qed.

Lemma bookkeeping_update (s s' : State) (c : Shape) :
  bookkeeping s -> 1 <= id c -> updateStateWithNewShape s c = Ok s' ->
  bookkeeping s'.
Proof.
  intros Hinv Hid. pose proof Hinv as (Hst & Hdr & Hup & Hlv & Hob & Hfx & Hnx & Hcu).
  unfold updateStateWithNewShape.
  destruct (updateShape s c) as [r| |] eqn:E; try discriminate. cbn [bind].
  destruct (gameEnd s); [intros H; injection H as <-; assumption|].
  destruct r as [r|]; [|intros H; injection H as <-; assumption].
  assert (Hr : 1 <= id r).
  { destruct (updateShape_id _ _ E) as [Hold | Hnew]; [now apply Hcu | now rewrite Hnew]. }
  destruct (fix_ r); intros H; injection H as <-;
    bookkeeping_parts; cbn [stats dropRate levelUp obstacles fixedShapes
                            nextShape currentShape]; try assumption.
  - destruct Hfx as (landed & Efx & Hl). exists (landed ++ [id r]). split.
    + rewrite map_app, Efx, <- app_assoc. reflexivity.
    + apply Forall_app. split; [assumption | now repeat constructor].
  - discriminate.
  - intros cur Hcur. now injection Hcur as <-.
Qed.

Lemma bookkeeping_move (movement : Movement) (s s' : State) :
  bookkeeping s -> MoveAction_apply movement s = Ok s' -> bookkeeping s'.
Proof.
  intros Hinv. unfold MoveAction_apply.
  destruct (currentShape s) as [cur|] eqn:Ecur;
    [|intros H; injection H as <-; assumption].
  apply bookkeeping_update; [assumption|]. cbn [withXY id].
  now apply Hinv.
Qed.

Lemma bookkeeping_rotate (s s' : State) :
  bookkeeping s -> RotateAction_apply s = Ok s' -> bookkeeping s'.
Proof.
  intros Hinv. unfold RotateAction_apply.
  destruct (currentShape s) as [cur|] eqn:Ecur;
    [|intros H; injection H as <-; assumption].
  apply bookkeeping_update; [assumption|].
  destruct (rotateKickShape_keeps (withAngle cur (Z.rem (angle cur + 90) 360)))
    as (-> & _). cbn [withAngle id]. now apply Hinv.
Qed.

Lemma bookkeeping_score (s s' : State) :
  bookkeeping s -> ScoreAction_apply s = Ok s' -> bookkeeping s'.
Proof.
  intros (Hst & Hdr & Hup & Hlv & Hob & Hfx & Hnx & Hcu).
  unfold ScoreAction_apply.
  destruct (constructGrid _ _ _) as [grid| |]; try discriminate. cbn [bind].
  intros H. injection H as <-.
  set (cleared := Z.of_nat (length (map (fun index => index * Block.HEIGHT)
                                      (findFullRowsOfGrid grid)))).
  assert (Hgain : 0 <= cleared * level (stats s)) by (unfold cleared; nia).
  bookkeeping_parts; cbn [stats level score highScore dropRate levelUp
                          obstacles fixedShapes nextShape currentShape];
    try assumption.
  - lia.
  - intros Hl. specialize (Hup Hl). lia.
  - rewrite map_map. cbn [withBlocks id]. exact Hfx.
Qed.

Lemma bookkeeping_endGame (s : State) :
  bookkeeping s -> bookkeeping (EndGameAction_apply s).
Proof.
  intros Hinv. unfold EndGameAction_apply.
  destruct (currentShape s) as [cur|] eqn:Ecur; [|assumption].
  destruct Hinv as (Hst & Hdr & Hup & Hlv & Hob & Hfx & Hnx & Hcu).
  bookkeeping_parts; cbn; assumption.
Qed.

Lemma bookkeeping_restart (s : State) :
  bookkeeping s -> bookkeeping (RestartGameAction_apply s).
Proof.
  intros Hinv. unfold RestartGameAction_apply.
  destruct (gameEnd s); [|assumption].
  destruct Hinv as ((Hl & Hs & Hh) & _).
  bookkeeping_parts;
    cbn [stats level score highScore dropRate levelUp obstacles fixedShapes
         nextShape currentShape INITIAL_STATE];
    try reflexivity; try discriminate.
  - rewrite highScore_is_max. lia.
  - exists []. split; [reflexivity | constructor].
Qed.

Lemma bookkeeping_checkLevelUp (s : State) :
  bookkeeping s -> bookkeeping (CheckLevelUpAction_apply s).
Proof.
  intros (Hst & Hdr & Hup & Hlv & Hob & Hfx & Hnx & Hcu).
  unfold CheckLevelUpAction_apply.
  bookkeeping_parts; cbn [withLevelUp stats dropRate levelUp obstacles
                          fixedShapes nextShape currentShape];
    try assumption.
  intros H. lia.
Qed.

Lemma obstacleIds_next (count : nat) :
  obstacleIds (count + 1) = obstacleIds count ++ [- (Z.of_nat count + 1)].
Proof.
  unfold obstacleIds. rewrite seq_app, map_app. cbn [seq map Nat.add].
  do 2 f_equal. lia.
Qed.

Lemma bookkeeping_nextLevel (randomPair : Q * Q) (s s' : State) :
  bookkeeping s -> NextLevelAction_apply randomPair s = Ok s' ->
  bookkeeping s'.
Proof.
  intros Hinv. unfold NextLevelAction_apply.
  destruct (levelUp s); [|intros H; injection H as <-; assumption].
  destruct Hinv as ((Hl & Hs & Hh) & Hdr & Hup & Hlv & Hob & Hfx & Hnx & Hcu).
  unfold addObstacle. rewrite renderBlocksFromShape_obstacle. cbn [bind].
  intros H. injection H as <-.
  bookkeeping_parts;
    cbn [stats level score highScore dropRate levelUp obstacles fixedShapes
         nextShape currentShape INITIAL_STATE];
    try reflexivity; try discriminate.
  - lia.
  - rewrite length_app. cbn [length]. lia.
  - rewrite map_app, length_app, Hob. cbn [length map].
    rewrite obstacleIds_next. reflexivity.
  - exists []. split; [now rewrite app_nil_r | constructor].
Qed.

Lemma bookkeeping_addShape (randomPair : Q * Q) (s s' : State) :
  bookkeeping s -> AddShapeAction_apply randomPair s = Ok s' ->
  bookkeeping s'.
Proof.
  intros (Hst & Hdr & Hup & Hlv & Hob & Hfx & Hnx & Hcu).
  unfold AddShapeAction_apply.
  destruct (createShape _ _) as [sh| |] eqn:E; try discriminate. cbn [bind].
  intros H. injection H as <-.
  apply createShape_id in E.
  bookkeeping_parts; cbn [stats dropRate levelUp obstacles fixedShapes
                          nextShape currentShape withXY id];
    try assumption.
  - destruct Hfx as (landed & Efx & _).
    apply (f_equal (@length Z)) in Efx.
    rewrite length_app, !length_map in Efx. lia.
  - intros cur Hcur. injection Hcur as <-. exact Hnx.
Qed.

Lemma bookkeeping_step (action : Action) (s s' : State) :
  bookkeeping s -> reduceState s action = Ok s' -> bookkeeping s'.
Proof.
  intros Hinv. unfold reduceState, apply. destruct action.
  - now apply bookkeeping_addShape.
  - now apply bookkeeping_move.
  - now apply bookkeeping_rotate.
  - now apply bookkeeping_score.
  - intros H. injection H as <-. now apply bookkeeping_endGame.
  - intros H. injection H as <-. now apply bookkeeping_restart.
  - intros H. injection H as <-. now apply bookkeeping_checkLevelUp.
  - now apply bookkeeping_nextLevel.
  - unfold TickAction_apply.
    destruct (gameEnd s || levelUp s); [intros H; now injection H as <-|].
    cbn [bind].
    destruct (MoveAction_apply _ _) as [s2| |] eqn:E2; try discriminate.
    cbn [bind].
    destruct (ScoreAction_apply s2) as [s3| |] eqn:E3; try discriminate.
    cbn [bind]. intros H. injection H as <-.
    apply bookkeeping_endGame.
    eapply bookkeeping_score; [|eassumption].
    eapply bookkeeping_move; [|eassumption].
    now apply bookkeeping_checkLevelUp.
  - unfold GameCycleAction_apply.
    destruct (levelUp s); [now apply bookkeeping_nextLevel|].
    destruct (gameEnd s).
    + intros H. injection H as <-. now apply bookkeeping_restart.
    + now apply bookkeeping_addShape.
Qed.

Lemma reachable_bookkeeping (s : State) : reachable s -> bookkeeping s.
Proof.
  induction 1 as [|s action s' _ IH Hstep].
  - apply bookkeeping_initial.
  - exact (bookkeeping_step _ IH Hstep).
Qed.

(** X19. In every state the reducer reaches from the initial state, the
    level is at least 1, the score and the high score are not negative, the
    drop rate is one block height, there is one obstacle for every level
    above the first, and the level-up signal is only on when the score has
    reached ten times the level. *)
Theorem reachable_statistics (s : State) (Hreach : reachable s) :
  1 <= level (stats s)
  /\ 0 <= score (stats s)
  /\ 0 <= highScore (stats s)
  /\ dropRate s = Block.HEIGHT
  /\ Z.of_nat (length (obstacles s)) = level (stats s) - 1
  /\ (levelUp s = true -> level (stats s) * 10 <= score (stats s)).
Proof.
  destruct (reachable_bookkeeping Hreach)
    as ((Hl & Hs & Hh) & Hdr & Hup & Hlv & _).
  repeat split; assumption.
Qed.

(** X20. In every state the reducer reaches from the initial state, the
    obstacles carry the ids -1, -2, ... in the order of their creation, the
    fixed shapes are the obstacles followed by landed shapes whose ids are
    at least 1, and the next shape and the current shape have ids that are
    at least 1: no obstacle shares its id with a shape of the game. *)
Theorem reachable_ids (s : State) (Hreach : reachable s) :
  map id (obstacles s) = obstacleIds (length (obstacles s))
  /\ (exists landed,
        map id (fixedShapes s) = map id (obstacles s) ++ landed
        /\ Forall (fun n => 1 <= n) landed)
  /\ 1 <= id (nextShape s)
  /\ (forall cur, currentShape s = Some cur -> 1 <= id cur)
  /\ (forall ob sh, In ob (obstacles s) ->
        sh = nextShape s \/ currentShape s = Some sh -> id ob <> id sh).
Proof.
  destruct (reachable_bookkeeping Hreach)
    as (_ & _ & _ & _ & Hob & Hfx & Hnx & Hcu).
  repeat split; try assumption.
  intros ob sh Hin Hsh.
  assert (Hneg : id ob < 0).
  { apply (in_map id) in Hin. rewrite Hob in Hin. unfold obstacleIds in Hin.
    apply in_map_iff in Hin. destruct Hin as (i & <- & _). lia. }
  assert (Hpos : 1 <= id sh) by (destruct Hsh as [->|Hsh]; auto).
  lia.
Qed.

(** ** What a move or a rotation does *)

Lemma isFix_rests (fixedBlocks newBlocks : list SingleBlock) :
  isFix fixedBlocks newBlocks = true <-> rests fixedBlocks newBlocks.
Proof.
  unfold isFix, rests. rewrite orb_true_iff, !existsb_exists. split.
  - intros [(b & Hb & H)|(b & Hb & H)].
    + left. apply existsb_exists in H. destruct H as (fb & Hfb & H).
      apply andb_true_iff in H. exists b, fb. repeat split; try assumption; lia.
    + right. exists b. split; [assumption | lia].
  - intros [(b & fb & Hb & Hfb & Ex & Ey)|(b & Hb & Ey)].
    + left. exists b. split; [assumption|]. apply existsb_exists.
      exists fb. split; [assumption|]. apply andb_true_iff. split; lia.
    + right. exists b. split; [assumption | lia].
Qed.

Lemma same_state_with_current (s : State) (cur : Shape) :
  currentShape s = Some cur ->
  {| gameEnd := gameEnd s; currentShape := Some cur;
     nextShape := nextShape s; fixedShapes := fixedShapes s;
     stats := stats s; dropRate := dropRate s;
     obstacles := obstacles s; levelUp := levelUp s |} = s.
Proof. destruct s. cbn. now intros ->. Qed.

Lemma updateStateWithNewShape_outcome (s s' : State) (cur c : Shape) :
  currentShape s = Some cur -> fix_ cur = false -> fix_ c = false ->
  updateStateWithNewShape s c = Ok s' ->
  (gameEnd s' = gameEnd s /\ nextShape s' = nextShape s
   /\ stats s' = stats s /\ dropRate s' = dropRate s
   /\ obstacles s' = obstacles s /\ levelUp s' = levelUp s)
  /\ (s' = s
      \/ exists newBlocks,
           gameEnd s = false
           /\ renderBlocksFromShape c = Ok newBlocks
           /\ canUpdate (allBlocks s) newBlocks = true
           /\ ((isFix (allBlocks s) newBlocks = false
                /\ currentShape s' = Some (withBlocksFix c newBlocks false)
                /\ fixedShapes s' = fixedShapes s)
               \/ (isFix (allBlocks s) newBlocks = true
                   /\ currentShape s' = None
                   /\ fixedShapes s'
                      = fixedShapes s ++ [withBlocksFix c newBlocks true]))).
Proof.
  intros Hcur Hfix Hc. unfold updateStateWithNewShape, updateShape.
  rewrite Hc.
  destruct (renderBlocksFromShape c) as [newBlocks| |]; try discriminate.
  cbn [bind].
  destruct (gameEnd s) eqn:Hend;
    [intros H; injection H as <-; repeat split; auto|].
  destruct (canUpdate (allBlocks s) newBlocks) eqn:Hcan.
  - cbn [fix_ withBlocksFix].
    destruct (isFix (allBlocks s) newBlocks) eqn:Hland;
      intros H; injection H as <-;
      (split; [cbn; repeat split; auto|]); right; exists newBlocks;
      repeat split; auto.
  - rewrite Hcur, Hfix. intros H. injection H as <-.
    pose proof (same_state_with_current s Hcur) as Es. rewrite Hend in Es.
    rewrite Es. repeat split; auto.
Qed.

Lemma reachable_current_not_fixed (s : State) (cur : Shape) :
  reachable s -> currentShape s = Some cur -> fix_ cur = false.
Proof.
  intros Hreach Hcur.
  assert (Hinv : blocks_invariant s).
  { clear Hcur. induction Hreach as [|s0 action s1 _ IH Hstep].
    - apply blocks_invariant_initial.
    - exact (blocks_invariant_step _ IH Hstep). }
  destruct Hinv as (_ & Hc & _). now destruct (Hc cur Hcur).
Qed.

(** X21. A move or a rotation of a reached state that returns leaves the
    flags, the next shape, the statistics, the drop rate and the obstacles
    as they are.  Either it changes nothing at all, or the game is running
    and the displaced current shape was accepted: the accepted shape keeps
    the id, the type and the size of the current shape, carries its own
    rasterization as blocks, all inside the canvas and on no fixed block,
    and it either becomes the current shape (when it rests on nothing) or is
    appended to the fixed shapes, marked fixed, leaving no current shape
    (when one of its blocks is on the bottom row or directly above a fixed
    block). *)
Theorem move_or_rotate_outcome (s s' : State) (action : Action)
  (Hreach : reachable s)
  (Hkey : action = RotateAction \/ exists movement, action = MoveAction movement)
  (Hstep : reduceState s action = Ok s') :
  (gameEnd s' = gameEnd s /\ nextShape s' = nextShape s
   /\ stats s' = stats s /\ dropRate s' = dropRate s
   /\ obstacles s' = obstacles s /\ levelUp s' = levelUp s)
  /\ (s' = s
      \/ exists cur r,
           currentShape s = Some cur /\ gameEnd s = false
           /\ id r = id cur /\ type r = type cur
           /\ width r = width cur /\ height r = height cur
           /\ renderBlocksFromShape r = Ok (blocks r)
           /\ Forall in_canvas (blocks r)
           /\ (forall b fb, In b (blocks r) -> In fb (allBlocks s) ->
                            ~ coincide b fb)
           /\ ((fix_ r = false /\ ~ rests (allBlocks s) (blocks r)
                /\ currentShape s' = Some r
                /\ fixedShapes s' = fixedShapes s)
               \/ (fix_ r = true /\ rests (allBlocks s) (blocks r)
                   /\ currentShape s' = None
                   /\ fixedShapes s' = fixedShapes s ++ [r]))).
Proof.
  assert (Hupdate : forall cur c,
            currentShape s = Some cur ->
            fix_ c = fix_ cur -> id c = id cur -> type c = type cur ->
            width c = width cur -> height c = height cur ->
            updateStateWithNewShape s c = Ok s' ->
            (gameEnd s' = gameEnd s /\ nextShape s' = nextShape s
             /\ stats s' = stats s /\ dropRate s' = dropRate s
             /\ obstacles s' = obstacles s /\ levelUp s' = levelUp s)
            /\ (s' = s
                \/ exists cur r,
                     currentShape s = Some cur /\ gameEnd s = false
                     /\ id r = id cur /\ type r = type cur
                     /\ width r = width cur /\ height r = height cur
                     /\ renderBlocksFromShape r = Ok (blocks r)
                     /\ Forall in_canvas (blocks r)
                     /\ (forall b fb, In b (blocks r) -> In fb (allBlocks s) ->
                                      ~ coincide b fb)
                     /\ ((fix_ r = false /\ ~ rests (allBlocks s) (blocks r)
                          /\ currentShape s' = Some r
                          /\ fixedShapes s' = fixedShapes s)
                         \/ (fix_ r = true /\ rests (allBlocks s) (blocks r)
                             /\ currentShape s' = None
                             /\ fixedShapes s' = fixedShapes s ++ [r])))).
  { intros cur c Hcur Hf Hi Ht Hw Hh Hup.
    pose proof (reachable_current_not_fixed Hreach Hcur) as Hfix.
    rewrite Hfix in Hf.
    destruct (@updateStateWithNewShape_outcome s s' cur c Hcur Hfix Hf Hup)
      as [Hframe [Hsame|(newBlocks & Hend & Hrender & Hcan & Hcases)]].
    - split; [exact Hframe | now left].
    - split; [exact Hframe|]. right.
      destruct (canUpdate_true _ _ Hcan) as [Hin Hfree].
      destruct Hcases as [(Hland & Hc' & Hfs)|(Hland & Hc' & Hfs)].
      + exists cur, (withBlocksFix c newBlocks false).
        cbn [withBlocksFix id type width height blocks fix_].
        repeat split; try assumption.
        left. repeat split; try assumption.
        intros Hr. apply isFix_rests in Hr. congruence.
      + exists cur, (withBlocksFix c newBlocks true).
        cbn [withBlocksFix id type width height blocks fix_].
        repeat split; try assumption.
        right. repeat split; try assumption.
        now apply isFix_rests. }
  unfold reduceState in Hstep.
  destruct Hkey as [->|(movement & ->)]; cbn [apply] in Hstep.
  - unfold RotateAction_apply in Hstep.
    destruct (currentShape s) as [cur|] eqn:Hcur.
    + destruct (rotateKickShape_keeps
                  (withAngle cur (Z.rem (angle cur + 90) 360)))
        as (Hi & Hf & _ & Hw & Hh & _).
      refine (Hupdate cur _ eq_refl _ _ _ _ _ Hstep); try assumption.
      now rewrite rotateKickShape_type.
    + injection Hstep as <-. repeat split; auto.
  - unfold MoveAction_apply in Hstep.
    destruct (currentShape s) as [cur|] eqn:Hcur.
    + now refine (Hupdate cur _ eq_refl _ _ _ _ _ Hstep).
    + injection Hstep as <-. repeat split; auto.
Qed.

(** ** The actions of the streams *)

Ltac wellPlaced_parts := split; [|split; [|split; [|split]]].

Lemma wellPlaced_initial : wellPlaced INITIAL_STATE.
Proof.
  wellPlaced_parts; cbn [INITIAL_STATE nextShape currentShape allBlocks
                         fixedShapes obstacles dropRate flat_map].
  - split; [|reflexivity]. split; [|split; reflexivity].
    exact (proj1 shapes_fit_initial).
  - discriminate.
  - constructor.
  - constructor.
  - reflexivity.
Qed.

Lemma rendered_blocks_at (shape : Shape) (newBlocks : list SingleBlock) :
  renderBlocksFromShape shape = Ok newBlocks ->
  Forall (fun b => exists i j, b = blockAt shape i j) newBlocks.
Proof.
  unfold renderBlocksFromShape.
  destruct (rotateMatrixNTimes _ _) as [mx| |]; try discriminate.
  cbn [bind]. intros H. injection H as <-.
  apply Forall_forall. intros b Hb. apply rendered_In in Hb.
  destruct Hb as (i & j & _ & _ & _ & ->). eauto.
Qed.

Lemma accepted_blocks_cells (fixedBlocks newBlocks : list SingleBlock)
  (shape : Shape) :
  renderBlocksFromShape shape = Ok newBlocks ->
  canUpdate fixedBlocks newBlocks = true ->
  x shape mod Block.WIDTH = 0 -> 0 <= y shape ->
  y shape mod Block.HEIGHT = 0 ->
  Forall gridCell newBlocks.
Proof.
  intros Hrender Hcan Hx Hy0 Hy.
  destruct (canUpdate_true _ _ Hcan) as [Hin _].
  pose proof (@rendered_blocks_at _ _ Hrender) as Hat.
  rewrite Forall_forall in *. intros b Hb.
  destruct (Hat b Hb) as (i & j & ->). specialize (Hin _ Hb).
  unfold in_canvas in Hin. cbn [blockAt bx by_] in Hin.
  unfold gridCell, on_grid. cbn [blockAt bx by_ bwidth bheight].
  layout. rewrite !Z.mod_add by discriminate.
  repeat split; try assumption; try reflexivity; lia.
Qed.

Lemma updateStateWithNewShape_returns (s : State) (c : Shape) :
  rows_fit (matrix (type c)) -> exists s', updateStateWithNewShape s c = Ok s'.
Proof.
  intros Hfit. unfold updateStateWithNewShape.
  destruct (@updateShape_rows_fit s c Hfit) as [r ->]. cbn [bind].
  destruct (gameEnd s); [eauto|].
  destruct r as [r|]; [|eauto]. destruct (fix_ r); eauto.
Qed.

Lemma wellPlaced_update (s : State) (cur c : Shape) :
  wellPlaced s -> currentShape s = Some cur ->
  fits c -> x c mod Block.WIDTH = 0 -> 0 <= y c -> y c mod Block.HEIGHT = 0 ->
  exists s', updateStateWithNewShape s c = Ok s' /\ wellPlaced s'.
Proof.
  intros Hinv Hcur (Hfit & Hw & Hfix) Hx Hy0 Hy.
  pose proof Hinv as (Hnext & Hc & Hfixed & Hobs & Hdrop).
  destruct (Hc cur Hcur) as ((_ & _ & Hcurfix) & _).
  destruct (@updateStateWithNewShape_returns s c Hfit) as [s' Hs'].
  exists s'. split; [exact Hs'|].
  destruct (@updateStateWithNewShape_outcome s s' cur c Hcur Hcurfix Hfix Hs')
    as [(_ & En & _ & Ed & Eo & _)
          [->|(newBlocks & _ & Hrender & Hcan & Hcases)]];
    [exact Hinv|].
  pose proof (@accepted_blocks_cells _ _ _ Hrender Hcan Hx Hy0 Hy) as Hcells.
  unfold wellPlaced. rewrite En, Ed, Eo.
  destruct Hcases as [(_ & Ec & Ef)|(_ & Ec & Ef)];
    unfold allBlocks; rewrite Ec, Ef;
    (wellPlaced_parts; try assumption).
  - intros r Hr. injection Hr as <-.
    cbn [withBlocksFix x y blocks]. unfold fits.
    cbn [withBlocksFix type width fix_]. repeat split; assumption.
  - discriminate.
  - rewrite flat_map_app. apply Forall_app. split; [assumption|].
    cbn [flat_map withBlocksFix blocks]. now rewrite app_nil_r.
Qed.

Lemma wellPlaced_move (movement : Movement) (s : State) :
  wellPlaced s -> emitted (MoveAction movement) ->
  exists s', MoveAction_apply movement s = Ok s' /\ wellPlaced s'.
Proof.
  intros Hinv Hm. unfold MoveAction_apply.
  destruct (currentShape s) as [cur|] eqn:Hcur; [|eauto].
  pose proof Hinv as (_ & Hc & _).
  destruct (Hc cur Hcur) as (Hfits & Hx & Hy0 & Hy & _).
  apply (wellPlaced_update Hinv Hcur); cbn [withXY x y]; try exact Hfits;
    inversion Hm; subst; cbn [deltaX deltaY]; layout;
    rewrite ?Z.add_0_r; try assumption; try lia.
  - replace (x cur + -20) with (x cur + (-1) * 20) by lia.
    now rewrite Z.mod_add by discriminate.
  - replace (x cur + 20) with (x cur + 1 * 20) by lia.
    now rewrite Z.mod_add by discriminate.
  - replace (y cur + 20) with (y cur + 1 * 20) by lia.
    now rewrite Z.mod_add by discriminate.
Qed.

Lemma wellPlaced_rotate (s : State) :
  wellPlaced s ->
  exists s', RotateAction_apply s = Ok s' /\ wellPlaced s'.
Proof.
  intros Hinv. unfold RotateAction_apply.
  destruct (currentShape s) as [cur|] eqn:Hcur; [|eauto].
  pose proof Hinv as (_ & Hc & _).
  destruct (Hc cur Hcur) as ((Hfit & Hw & Hfix) & Hx & Hy0 & Hy & _).
  set (turned := withAngle cur (Z.rem (angle cur + 90) 360)).
  destruct (rotateKickShape_keeps turned) as (_ & Ef & Ey & Ew & _ & _ & Ex).
  apply (wellPlaced_update Hinv Hcur).
  - unfold fits. rewrite rotateKickShape_type, Ew, Ef. repeat split; assumption.
  - cbn [turned withAngle x width] in Ex. layout.
    destruct Ex as [Ex | [Ex | Ex]]; rewrite Ex; [assumption | reflexivity |].
    replace (200 - width cur) with (- width cur + 10 * 20) by lia.
    rewrite Z.mod_add by discriminate.
    apply Z.mod_divide; [discriminate|]. apply Z.divide_opp_r.
    apply Z.mod_divide; [discriminate | assumption].
  - now rewrite Ey.
  - now rewrite Ey.
Qed.

Lemma wellPlaced_score (s : State) :
  wellPlaced s ->
  exists s', ScoreAction_apply s = Ok s' /\ wellPlaced s'.
Proof.
  intros (Hnext & Hc & Hfixed & Hobs & Hdrop).
  rewrite (ScoreAction_fullRows s (gridCell_on_grid Hfixed)).
  eexists. split; [reflexivity|].
  wellPlaced_parts; try rewrite allBlocks_afterClearing;
    cbn [afterClearing nextShape currentShape obstacles dropRate];
    try assumption.
  apply Forall_forall. intros b' Hb'.
  now destruct (@adjustBlocks_cell _ _ _ (fullRows_rowsOfGrid (allBlocks s))
                  Hfixed Hb') as (b & _ & _ & _ & Hcell & _).
Qed.

Lemma wellPlaced_endGame (s : State) :
  wellPlaced s -> wellPlaced (EndGameAction_apply s).
Proof.
  intros Hinv. unfold EndGameAction_apply.
  destruct (currentShape s) as [cur|] eqn:Hcur; [|assumption].
  destruct Hinv as (Hnext & Hc & Hfixed & Hobs & Hdrop).
  wellPlaced_parts; cbn [withGameEnd nextShape currentShape obstacles dropRate];
    assumption.
Qed.

Lemma wellPlaced_checkLevelUp (s : State) :
  wellPlaced s -> wellPlaced (CheckLevelUpAction_apply s).
Proof. intros Hinv. exact Hinv. Qed.

Lemma wellPlaced_tick (s : State) :
  wellPlaced s -> exists s', TickAction_apply s = Ok s' /\ wellPlaced s'.
Proof.
  intros Hinv. unfold TickAction_apply.
  destruct (gameEnd s || levelUp s); [eauto|]. cbn [bind].
  pose proof (wellPlaced_checkLevelUp Hinv) as H1.
  assert (Hdrop : dropRate s = Block.HEIGHT) by apply Hinv.
  rewrite Hdrop.
  destruct (wellPlaced_move H1 emitted_down) as (s2 & -> & H2). cbn [bind].
  destruct (wellPlaced_score H2) as (s3 & -> & H3). cbn [bind].
  eexists. split; [reflexivity|]. now apply wellPlaced_endGame.
Qed.

Lemma wellPlaced_restart (s : State) :
  wellPlaced s -> wellPlaced (RestartGameAction_apply s).
Proof.
  intros Hinv. unfold RestartGameAction_apply.
  destruct (gameEnd s); [|assumption]. apply wellPlaced_initial.
Qed.

Lemma wellPlaced_nextLevel (n : nat) (s : State) :
  wellPlaced s ->
  exists s', NextLevelAction_apply (pairValue n) s = Ok s' /\ wellPlaced s'.
Proof.
  intros Hinv. destruct (pairValue_inUnitRange n) as [[L0 U0] [L1 U1]].
  set (randomPair := pairValue n) in *.
  unfold NextLevelAction_apply.
  destruct (levelUp s); [|eauto].
  unfold addObstacle. rewrite renderBlocksFromShape_obstacle. cbn [bind].
  eexists. split; [reflexivity|].
  destruct Hinv as (_ & _ & _ & Hobs & _).
  destruct (scaleToRange_bounds (fst randomPair) (from := 0) (to := GRID_WIDTH - 1)
              ltac:(layout; lia)) as (X1 & X2 & _).
  destruct (scaleToRange_bounds (snd randomPair) (from := GRID_HEIGHT / 2)
              (to := GRID_HEIGHT - 1) ltac:(vm_compute; discriminate))
    as (Y1 & Y2 & _).
  specialize (X1 L0). specialize (X2 U0).
  specialize (Y1 L1). specialize (Y2 U1).
  match goal with
  | |- wellPlaced ?st =>
      assert (Hnew : Forall gridCell (flat_map blocks (obstacles st)))
  end.
  { cbn [obstacles].
    rewrite flat_map_app. apply Forall_app. split; [assumption|].
    cbn [flat_map withBlocks blocks app]. constructor; [|constructor].
    unfold gridCell, on_grid. cbn [bx by_ bwidth bheight].
    change (GRID_HEIGHT / 2) with 10 in *. layout.
    rewrite !Z.mod_mul by discriminate.
    repeat split; try reflexivity; lia. }
  destruct wellPlaced_initial as (Hn & _).
  wellPlaced_parts;
    cbn [INITIAL_STATE nextShape currentShape allBlocks fixedShapes obstacles
         dropRate]; try assumption; try reflexivity.
  discriminate.
Qed.

Lemma wellPlaced_addShape (n : nat) (s : State) :
  wellPlaced s ->
  exists s', AddShapeAction_apply (pairValue n) s = Ok s' /\ wellPlaced s'.
Proof.
  intros (Hnext & Hc & Hfixed & Hobs & Hdrop).
  destruct (pairValue_inUnitRange n) as [H0 H1].
  set (randomPair := pairValue n) in *.
  unfold AddShapeAction_apply.
  destruct (@createShape_in_range randomPair
              (Z.of_nat (length (fixedShapes s))
               - Z.of_nat (length (obstacles s)) + 2) H0 H1)
    as (sh & E & _ & _ & _ & Hb & Hf & Hty & _ & Hw & _).
  rewrite E. cbn [bind]. eexists. split; [reflexivity|].
  wellPlaced_parts; cbn [nextShape currentShape allBlocks fixedShapes obstacles
                         dropRate]; try assumption.
  - unfold fits. cbn [withXY type width fix_ blocks].
    repeat split; try assumption.
    + exact (createShape_rows_fit _ _ E).
    + rewrite Hw, Z.mul_comm. apply Z.mod_mul. discriminate.
  - intros cur Hcur. injection Hcur as <-.
    destruct Hnext as [Hfits Hblocks].
    unfold fits in *. cbn [withXY type width fix_ blocks x y].
    rewrite Hblocks. repeat split; try apply Hfits; try reflexivity.
    constructor.
Qed.

Lemma wellPlaced_gameCycle (n : nat) (s : State) :
  wellPlaced s ->
  exists s', GameCycleAction_apply (pairValue n) s = Ok s' /\ wellPlaced s'.
Proof.
  intros Hinv. unfold GameCycleAction_apply.
  destruct (levelUp s) eqn:Hl.
  - now apply wellPlaced_nextLevel.
  - destruct (gameEnd s).
    + eexists. split; [reflexivity|]. now apply wellPlaced_restart.
    + now apply wellPlaced_addShape.
Qed.

Lemma wellPlaced_step (action : Action) (s : State) :
  wellPlaced s -> emitted action ->
  exists s', reduceState s action = Ok s' /\ wellPlaced s'.
Proof.
  intros Hinv Hem. unfold reduceState.
  destruct action; try (exfalso; inversion Hem; fail); cbn [apply].
  - now apply wellPlaced_move.
  - now apply wellPlaced_rotate.
  - now apply wellPlaced_tick.
  - inversion Hem; subst. now apply wellPlaced_gameCycle.
Qed.

Lemma action_emitted (e : Emission) : Forall emitted (action_ e).
Proof.
  destruct e as [code| |n]; cbn [action_].
  - unfold movement_, left_, right_, down_, rotate_, fromKey.
    repeat match goal with
           | |- context [if ?b then _ else _] => destruct b
           end; cbn [app]; repeat constructor.
  - repeat constructor.
  - constructor; [apply emitted_gameCycle | constructor].
Qed.

Lemma wellPlaced_scan (actions : list Action) :
  Forall emitted actions ->
  forall s, wellPlaced s ->
    exists states,
      scan s actions = Ok states
      /\ length states = length actions
      /\ Forall wellPlaced states.
Proof.
  induction 1 as [|action rest Hem _ IH]; intros s Hinv; cbn [scan].
  - exists []. repeat split. constructor.
  - destruct (wellPlaced_step Hinv Hem) as (s' & -> & Hinv'). cbn [bind].
    destruct (IH s' Hinv') as (states & -> & Hlen & Hall). cbn [bind].
    exists (s' :: states). split; [reflexivity|]. split.
    + cbn [length]. now rewrite Hlen.
    + now constructor.
Qed.

Lemma emissions_emitted (emissions : list Emission) :
  Forall emitted (flat_map action_ emissions).
Proof.
  induction emissions as [|e rest IH]; cbn [flat_map]; [constructor|].
  apply Forall_app. split; [apply action_emitted | exact IH].
Qed.

(** X22. The game loop never throws: whatever keys are pressed and however
    key presses, ticks and game cycles interleave, with the game cycles
    carrying pairs of the two random streams of the program, the reducer
    returns a state for every action of the merged stream, so that [main]
    has one state to render for each of them. *)
Theorem main_never_throws (emissions : list Emission) :
  exists states,
    main emissions = Ok states
    /\ length states = length (flat_map action_ emissions).
Proof.
  destruct (wellPlaced_scan (emissions_emitted emissions) wellPlaced_initial)
    as (states & E & Hlen & _).
  exists states. split; assumption.
Qed.

(** X23. Every state of the game loop is on the grid: in every state [main]
    renders, each block of a fixed shape, of an obstacle and of the current
    shape is a cell of the grid (inside the canvas, at multiples of the block
    size, of the size of a block), the next shape has no blocks yet, the
    current shape is not fixed and sits at a multiple of the block size at
    or below the top of the canvas, and the drop rate is one block
    height. *)
Theorem main_states_on_grid (emissions : list Emission) (states : list State)
  (Hmain : main emissions = Ok states) :
  Forall (fun s =>
            Forall gridCell (allBlocks s)
            /\ Forall gridCell (flat_map blocks (obstacles s))
            /\ (forall cur, currentShape s = Some cur ->
                  Forall gridCell (blocks cur)
                  /\ x cur mod Block.WIDTH = 0
                  /\ 0 <= y cur /\ y cur mod Block.HEIGHT = 0
                  /\ fix_ cur = false)
            /\ blocks (nextShape s) = []
            /\ dropRate s = Block.HEIGHT) states.
Proof.
  destruct (wellPlaced_scan (emissions_emitted emissions) wellPlaced_initial)
    as (states' & E & _ & Hall).
  unfold main in Hmain. rewrite E in Hmain. injection Hmain as <-.
  revert Hall. apply Forall_impl.
  intros s ((_ & Hnb) & Hc & Hfixed & Hobs & Hdrop).
  split; [exact Hfixed|]. split; [exact Hobs|]. split; [|split; assumption].
  intros cur Hcur.
  destruct (Hc cur Hcur) as ((_ & _ & Hf) & Hx & Hy0 & Hy & Hb).
  repeat split; assumption.
Qed.

(** ** Obstacles, ids and ticks *)

(** X24. On a level-up with a pair of the random streams of the program,
    [NextLevelAction] adds one obstacle that is a single cell of the lower
    half of the grid: the obstacle sits at the column and the row that the
    binary64 [scaleToRange] of the source computes from the pair, a column
    of 0 to 9 and a row of 10 to 19, its one block is at the position of the
    obstacle, and the obstacle is fixed and gets the next negative id. *)
Theorem next_level_obstacle_in_lower_half (n : nat) (s : State)
  (Hlvl : levelUp s = true) :
  exists s' ob b col row,
    NextLevelAction_apply (pairValue n) s = Ok s'
    /\ obstacles s' = obstacles s ++ [ob]
    /\ fixedShapes s' = obstacles s'
    /\ id ob = - (Z.of_nat (length (obstacles s)) + 1)
    /\ fix_ ob = true
    /\ blocks ob = [b] /\ bx b = x ob /\ by_ b = y ob
    /\ gridCell b
    /\ x ob = col * Block.WIDTH /\ y ob = row * Block.HEIGHT
    /\ 0 <= col <= 9 /\ 10 <= row <= 19
    /\ PrimFloat.eqb (RNG64.scaleToRange (fst (gameCyclePair n)) 0 9)
         (RNG64.ofInteger col) = true
    /\ PrimFloat.eqb (RNG64.scaleToRange (snd (gameCyclePair n)) 10 19)
         (RNG64.ofInteger row) = true.
Proof.
  destruct (pairValue_inUnitRange n) as [[L0 U0] [L1 U1]].
  destruct (stream_pair_exact n) as [(_ & _ & B0) (_ & _ & B1)].
  unfold NextLevelAction_apply, addObstacle. rewrite Hlvl.
  rewrite renderBlocksFromShape_obstacle. cbn [bind].
  destruct (scaleToRange_bounds (fst (pairValue n)) (from := 0)
              (to := GRID_WIDTH - 1) ltac:(layout; lia)) as (X1 & X2 & _).
  destruct (scaleToRange_bounds (snd (pairValue n)) (from := GRID_HEIGHT / 2)
              (to := GRID_HEIGHT - 1) ltac:(vm_compute; discriminate))
    as (Y1 & Y2 & _).
  specialize (X1 L0). specialize (X2 U0).
  specialize (Y1 L1). specialize (Y2 U1).
  eexists. eexists. eexists.
  exists (RNG.scaleToRange (fst (pairValue n)) 0 (GRID_WIDTH - 1)),
    (RNG.scaleToRange (snd (pairValue n)) (GRID_HEIGHT / 2) (GRID_HEIGHT - 1)).
  split; [reflexivity|].
  cbn [obstacles fixedShapes]. split; [reflexivity|]. split; [reflexivity|].
  cbn [withBlocks createObstacle id fix_ blocks x y bx by_].
  split; [reflexivity|]. split; [reflexivity|]. split; [reflexivity|].
  split; [reflexivity|]. split; [reflexivity|].
  split.
  { unfold gridCell, on_grid. cbn [bx by_ bwidth bheight].
    change (GRID_HEIGHT / 2) with 10 in *. layout.
    rewrite !Z.mod_mul by discriminate.
    repeat split; try reflexivity; lia. }
  split; [reflexivity|]. split; [reflexivity|].
  change (GRID_HEIGHT / 2) with 10 in *. layout.
  change (10 - 1) with 9 in *. change (20 - 1) with 19 in *.
  split; [lia|]. split; [lia|]. split; [exact B0 | exact B1].
Qed.

(** X25. Ids of shapes can repeat: the id of a new shape counts the landed
    shapes, so when two game cycles of the program follow each other on a
    running game with no shape landing in between, the shape that becomes
    current and the shape that becomes next carry the same id. *)
Theorem game_cycles_without_landing_share_id (n1 n2 : nat) (s : State)
  (Hrun : gameEnd s = false) (Hlvl : levelUp s = false) :
  exists s1 s2 cur,
    GameCycleAction_apply (pairValue n1) s = Ok s1
    /\ GameCycleAction_apply (pairValue n2) s1 = Ok s2
    /\ currentShape s2 = Some cur
    /\ id cur = id (nextShape s2)
    /\ id cur = Z.of_nat (length (fixedShapes s))
                - Z.of_nat (length (obstacles s)) + 2.
Proof.
  destruct (pairValue_inUnitRange n1) as [H1a H1b].
  destruct (pairValue_inUnitRange n2) as [H2a H2b].
  destruct (@createShape_in_range (pairValue n1)
              (Z.of_nat (length (fixedShapes s))
               - Z.of_nat (length (obstacles s)) + 2) H1a H1b)
    as (sh1 & E1 & Hid1 & _).
  destruct (@createShape_in_range (pairValue n2)
              (Z.of_nat (length (fixedShapes s))
               - Z.of_nat (length (obstacles s)) + 2) H2a H2b)
    as (sh2 & E2 & Hid2 & _).
  do 3 eexists. split.
  - unfold GameCycleAction_apply, AddShapeAction_apply.
    rewrite Hlvl, Hrun, E1. cbn [bind]. reflexivity.
  - unfold GameCycleAction_apply, AddShapeAction_apply.
    cbn [levelUp gameEnd fixedShapes obstacles nextShape].
    rewrite E2. cbn [bind].
    split; [reflexivity|]. cbn [currentShape nextShape].
    split; [reflexivity|]. cbn [withXY id]. split; congruence.
Qed.

(** X26. A tick on a game that is over or waiting for its level-up changes
    nothing.  Otherwise a tick of a reached state that returns keeps the
    level, the high score, the next shape, the obstacles and the drop rate,
    never lowers the score, and sets the level-up signal by the score the
    state had before the tick: rows cleared by this tick count for the next
    one. *)
Theorem tick_outcome (s s' : State)
  (Hreach : reachable s) (Htick : TickAction_apply s = Ok s') :
  (gameEnd s || levelUp s = true -> s' = s)
  /\ (gameEnd s || levelUp s = false ->
        level (stats s') = level (stats s)
        /\ highScore (stats s') = highScore (stats s)
        /\ score (stats s) <= score (stats s')
        /\ nextShape s' = nextShape s
        /\ obstacles s' = obstacles s
        /\ dropRate s' = dropRate s
        /\ levelUp s' = (score (stats s) >=? level (stats s) * 10)).
Proof.
  unfold TickAction_apply in Htick.
  destruct (gameEnd s || levelUp s) eqn:Hfrozen.
  - injection Htick as <-. split; [reflexivity | discriminate].
  - split; [discriminate|]. intros _.
    cbn [bind] in Htick.
    destruct (MoveAction_apply _ _) as [s2| |] eqn:E2; try discriminate.
    cbn [bind] in Htick.
    destruct (ScoreAction_apply s2) as [s3| |] eqn:E3; try discriminate.
    cbn [bind] in Htick. injection Htick as <-.
    assert (Hlevel : 1 <= level (stats s))
      by apply (reachable_bookkeeping Hreach).
    assert (F2 : stats s2 = stats s /\ nextShape s2 = nextShape s
                 /\ obstacles s2 = obstacles s /\ dropRate s2 = dropRate s
                 /\ levelUp s2 = (score (stats s) >=? level (stats s) * 10)).
    { unfold MoveAction_apply in E2.
      destruct (currentShape (CheckLevelUpAction_apply s)) as [cur|];
        [|injection E2 as <-; repeat split; reflexivity].
      unfold updateStateWithNewShape in E2.
      destruct (updateShape _ _) as [r| |]; try discriminate.
      cbn [bind] in E2.
      destruct (if gameEnd (CheckLevelUpAction_apply s) then None else r)
        as [r'|]; [destruct (fix_ r')|];
        injection E2 as <-; repeat split; reflexivity. }
    destruct F2 as (Es & En & Eo & Ed & El).
    assert (F3 : level (stats s3) = level (stats s2)
                 /\ highScore (stats s3) = highScore (stats s2)
                 /\ (0 <= level (stats s2) ->
                     score (stats s2) <= score (stats s3))
                 /\ nextShape s3 = nextShape s2
                 /\ obstacles s3 = obstacles s2 /\ dropRate s3 = dropRate s2
                 /\ levelUp s3 = levelUp s2).
    { unfold ScoreAction_apply in E3.
      destruct (constructGrid _ _ _) as [grid| |]; try discriminate.
      cbn [bind] in E3. injection E3 as <-.
      cbn [stats level highScore score nextShape obstacles dropRate levelUp].
      repeat split; try reflexivity. intros Hl. nia. }
    destruct F3 as (E3l & E3h & E3s & E3n & E3o & E3d & E3u).
    assert (F4 : stats (EndGameAction_apply s3) = stats s3
                 /\ nextShape (EndGameAction_apply s3) = nextShape s3
                 /\ obstacles (EndGameAction_apply s3) = obstacles s3
                 /\ dropRate (EndGameAction_apply s3) = dropRate s3
                 /\ levelUp (EndGameAction_apply s3) = levelUp s3).
    { unfold EndGameAction_apply.
      destruct (currentShape s3); repeat split; reflexivity. }
    destruct F4 as (E4s & E4n & E4o & E4d & E4u).
    rewrite E4s, E4n, E4o, E4d, E4u.
    rewrite E3l, E3h, E3n, E3o, E3d, E3u, Es, En, Eo, Ed, El.
    repeat split; try reflexivity.
    rewrite Es in E3s. apply E3s. lia.
Qed.

(** ** The properties at sample inputs *)

Lemma replace_inside_array_witness :
  (1 < length [10; 20; 30])%nat
  /\ (length (replace [10; 20; 30] 99 (inject_Z (Z.of_nat 1)))
      = length [10; 20; 30]
      /\ nth 1 (replace [10; 20; 30] 99 (inject_Z (Z.of_nat 1))) 0 = 99
      /\ forall i, i <> 1%nat ->
           nth i (replace [10; 20; 30] 99 (inject_Z (Z.of_nat 1))) 0
           = nth i [10; 20; 30] 0).
Proof.
  assert (Hk : (1 < length [10; 20; 30])%nat) by (simpl; lia).
  split; [exact Hk|].
  exact (@replace_inside_array Z [10; 20; 30] 99 0 1%nat Hk).
Defined.

Lemma constructGrid_without_positions_witness :
  0 <= GRID_WIDTH < 2 ^ 32 /\ GRID_HEIGHT < 2 ^ 32
  /\ exists grid,
       constructGrid GRID_WIDTH GRID_HEIGHT None = Ok grid
       /\ dims (Z.to_nat GRID_HEIGHT) (Z.to_nat GRID_WIDTH) grid
       /\ (forall i j, (i < Z.to_nat GRID_HEIGHT)%nat ->
             (j < Z.to_nat GRID_WIDTH)%nat -> cell grid i j = Num 0)
       /\ (0 < GRID_WIDTH -> findFullRowsOfGrid grid = [])
       /\ (GRID_WIDTH = 0 ->
             findFullRowsOfGrid grid
             = map Z.of_nat (seq 0 (Z.to_nat GRID_HEIGHT))).
Proof.
  assert (Hwidth : 0 <= GRID_WIDTH < 2 ^ 32) by (layout; lia).
  assert (Hheight : GRID_HEIGHT < 2 ^ 32) by (layout; lia).
  split; [exact Hwidth|]. split; [exact Hheight|].
  exact (@constructGrid_without_positions GRID_WIDTH GRID_HEIGHT
           Hwidth Hheight).
Defined.

Lemma rotateMatrixNTimes_adds_up_witness :
  square 3 matrixL /\ 0 <= 1 /\ 0 <= 2
  /\ ((m1 <- rotateMatrixNTimes (inject_Z 1) matrixL ;;
       rotateMatrixNTimes (inject_Z 2) m1)
      = rotateMatrixNTimes (inject_Z (1 + 2)) matrixL
      /\ rotateMatrixNTimes (inject_Z (1 + 4)) matrixL
         = rotateMatrixNTimes (inject_Z 1) matrixL).
Proof.
  assert (Hsq : square 3 matrixL)
    by (split; [reflexivity | repeat constructor]).
  assert (Ha : 0 <= 1) by lia.
  assert (Hb : 0 <= 2) by lia.
  split; [exact Hsq|]. split; [exact Ha|]. split; [exact Hb|].
  exact (@rotateMatrixNTimes_adds_up 3 matrixL 1 2 Hsq Ha Hb).
Defined.

Lemma hash_and_scale_ranges_witness :
  Z.abs (RNG.a * 1000 + RNG.c) < 2 ^ 53
  /\ ((0 <= 1000 ->
         0 <= RNG.hash 1000 < RNG.m
         /\ (-1 <= RNG.scale (RNG.hash 1000) <= 1)%Q)
      /\ (1000 < 0 ->
            - RNG.m < RNG.hash 1000 <= 0
            /\ (RNG.scale (RNG.hash 1000) <= -1)%Q)).
Proof.
  assert (Hexact : Z.abs (RNG.a * 1000 + RNG.c) < 2 ^ 53)
    by (vm_compute; reflexivity).
  split; [exact Hexact|].
  exact (@hash_and_scale_ranges 1000 Hexact).
Defined.

Lemma renderBlocksFromShape_cells_witness :
  square 3 (matrix (type spawnedShape))
  /\ angle spawnedShape = 90 * 2
  /\ (let rotatedMatrix :=
        Nat.iter (Z.to_nat (Z.rem 2 4)) rotated (matrix (type spawnedShape)) in
      exists newBlocks,
        renderBlocksFromShape spawnedShape = Ok newBlocks
        /\ (forall b,
              In b newBlocks <->
              exists i j, (i < 3)%nat /\ (j < 3)%nat
                          /\ cell rotatedMatrix i j = Num 1
                          /\ b = blockAt spawnedShape i j)
        /\ NoDup (map positionOf newBlocks)
        /\ Forall (fun b =>
                     x spawnedShape <= bx b
                     /\ bx b + bwidth b
                        <= x spawnedShape + Z.of_nat 3 * Block.WIDTH
                     /\ y spawnedShape <= by_ b
                     /\ by_ b + bheight b
                        <= y spawnedShape + Z.of_nat 3 * Block.HEIGHT)
                  newBlocks).
Proof.
  assert (Hsq : square 3 (matrix (type spawnedShape)))
    by (split; [reflexivity | repeat constructor]).
  assert (Hangle : angle spawnedShape = 90 * 2) by reflexivity.
  split; [exact Hsq|]. split; [exact Hangle|].
  exact (@renderBlocksFromShape_cells 3 spawnedShape 2 Hsq Hangle).
Defined.

Lemma ScoreAction_without_full_row_witness :
  Forall on_grid (allBlocks levelTwoBoard)
  /\ fullRows (allBlocks levelTwoBoard) = []
  /\ ScoreAction_apply levelTwoBoard = Ok levelTwoBoard.
Proof.
  assert (Hgrid : Forall on_grid (allBlocks levelTwoBoard))
    by (apply on_gridb_sound; vm_compute; reflexivity).
  assert (Hnone : fullRows (allBlocks levelTwoBoard) = [])
    by (vm_compute; reflexivity).
  split; [exact Hgrid|]. split; [exact Hnone|].
  exact (@ScoreAction_without_full_row levelTwoBoard Hgrid Hnone).
Defined.

Lemma ScoreAction_keeps_grid_cells_witness :
  Forall gridCell (allBlocks bottomRowBoard)
  /\ exists s',
       ScoreAction_apply bottomRowBoard = Ok s'
       /\ Forall gridCell (allBlocks s')
       /\ forall b', In b' (allBlocks s') ->
            exists b, In b (allBlocks bottomRowBoard)
                      /\ rowFull (allBlocks bottomRowBoard)
                           (by_ b / Block.HEIGHT) = false
                      /\ bx b' = bx b /\ by_ b <= by_ b'.
Proof.
  assert (Hcells : Forall gridCell (allBlocks bottomRowBoard))
    by (apply gridCellb_sound; vm_compute; reflexivity).
  split; [exact Hcells|].
  exact (@ScoreAction_keeps_grid_cells bottomRowBoard Hcells).
Defined.

Lemma ScoreAction_keeps_blocks_apart_witness :
  Forall gridCell (allBlocks bottomRowBoard)
  /\ NoDup (map positionOf (allBlocks bottomRowBoard))
  /\ exists s',
       ScoreAction_apply bottomRowBoard = Ok s'
       /\ NoDup (map positionOf (allBlocks s')).
Proof.
  assert (Hcells : Forall gridCell (allBlocks bottomRowBoard))
    by (apply gridCellb_sound; vm_compute; reflexivity).
  assert (Hapart : NoDup (map positionOf (allBlocks bottomRowBoard)))
    by (apply distinctb_sound; vm_compute; reflexivity).
  split; [exact Hcells|]. split; [exact Hapart|].
  exact (@ScoreAction_keeps_blocks_apart bottomRowBoard Hcells Hapart).
Defined.

Lemma ScoreAction_leaves_no_full_row_witness :
  Forall gridCell (allBlocks bottomRowBoard)
  /\ exists s',
       ScoreAction_apply bottomRowBoard = Ok s'
       /\ fullRows (allBlocks s') = []
       /\ ScoreAction_apply s' = Ok s'.
Proof.
  assert (Hcells : Forall gridCell (allBlocks bottomRowBoard))
    by (apply gridCellb_sound; vm_compute; reflexivity).
  split; [exact Hcells|].
  exact (@ScoreAction_leaves_no_full_row bottomRowBoard Hcells).
Defined.

Lemma constructGrid_marks_fixed_blocks_witness :
  Forall on_grid (allBlocks bottomRowBoard)
  /\ exists grid,
       constructGrid GRID_WIDTH GRID_HEIGHT
         (Some (getGridPositionsFromState bottomRowBoard)) = Ok grid
       /\ length grid = 20%nat
       /\ Forall (fun row => length row = 10%nat) grid
       /\ forall i j, (i < 20)%nat -> (j < 10)%nat ->
            cell grid i j
            = if occupied (allBlocks bottomRowBoard) (Z.of_nat j) (Z.of_nat i)
              then Num 1 else Num 0.
Proof.
  assert (Hgrid : Forall on_grid (allBlocks bottomRowBoard))
    by (apply on_gridb_sound; vm_compute; reflexivity).
  split; [exact Hgrid|].
  exact (@constructGrid_marks_fixed_blocks bottomRowBoard Hgrid).
Defined.

Lemma spawnedState_reachable : reachable spawnedState.
Proof.
  apply (@reach_step
           (fromOk (apply (GameCycleAction (0, 0)%Q) INITIAL_STATE))
           TickAction).
  - apply (@reach_step INITIAL_STATE (GameCycleAction (0, 0)%Q)).
    + apply reach_init.
    + vm_compute. reflexivity.
  - vm_compute. reflexivity.
Qed.

Lemma reachable_statistics_witness :
  reachable spawnedState
  /\ (1 <= level (stats spawnedState)
      /\ 0 <= score (stats spawnedState)
      /\ 0 <= highScore (stats spawnedState)
      /\ dropRate spawnedState = Block.HEIGHT
      /\ Z.of_nat (length (obstacles spawnedState))
         = level (stats spawnedState) - 1
      /\ (levelUp spawnedState = true ->
          level (stats spawnedState) * 10 <= score (stats spawnedState))).
Proof.
  split; [exact spawnedState_reachable|].
  exact (@reachable_statistics spawnedState spawnedState_reachable).
Defined.

Lemma reachable_ids_witness :
  reachable spawnedState
  /\ (map id (obstacles spawnedState)
      = obstacleIds (length (obstacles spawnedState))
      /\ (exists landed,
            map id (fixedShapes spawnedState)
            = map id (obstacles spawnedState) ++ landed
            /\ Forall (fun n => 1 <= n) landed)
      /\ 1 <= id (nextShape spawnedState)
      /\ (forall cur, currentShape spawnedState = Some cur -> 1 <= id cur)
      /\ (forall ob sh, In ob (obstacles spawnedState) ->
            sh = nextShape spawnedState \/ currentShape spawnedState = Some sh ->
            id ob <> id sh)).
Proof.
  split; [exact spawnedState_reachable|].
  exact (@reachable_ids spawnedState spawnedState_reachable).
Defined.

Lemma move_or_rotate_outcome_witness :
  reachable spawnedState
  /\ (MoveAction {| deltaX := -20; deltaY := 0 |} = RotateAction
      \/ exists movement,
           MoveAction {| deltaX := -20; deltaY := 0 |} = MoveAction movement)
  /\ reduceState spawnedState (MoveAction {| deltaX := -20; deltaY := 0 |})
     = Ok steppedState
  /\ ((gameEnd steppedState = gameEnd spawnedState
       /\ nextShape steppedState = nextShape spawnedState
       /\ stats steppedState = stats spawnedState
       /\ dropRate steppedState = dropRate spawnedState
       /\ obstacles steppedState = obstacles spawnedState
       /\ levelUp steppedState = levelUp spawnedState)
      /\ (steppedState = spawnedState
          \/ exists cur r,
               currentShape spawnedState = Some cur
               /\ gameEnd spawnedState = false
               /\ id r = id cur /\ type r = type cur
               /\ width r = width cur /\ height r = height cur
               /\ renderBlocksFromShape r = Ok (blocks r)
               /\ Forall in_canvas (blocks r)
               /\ (forall b fb, In b (blocks r) ->
                     In fb (allBlocks spawnedState) -> ~ coincide b fb)
               /\ ((fix_ r = false
                    /\ ~ rests (allBlocks spawnedState) (blocks r)
                    /\ currentShape steppedState = Some r
                    /\ fixedShapes steppedState = fixedShapes spawnedState)
                   \/ (fix_ r = true
                       /\ rests (allBlocks spawnedState) (blocks r)
                       /\ currentShape steppedState = None
                       /\ fixedShapes steppedState
                          = fixedShapes spawnedState ++ [r])))).
Proof.
  assert (Hkey : MoveAction {| deltaX := -20; deltaY := 0 |} = RotateAction
                 \/ exists movement,
                      MoveAction {| deltaX := -20; deltaY := 0 |}
                      = MoveAction movement)
    by (right; eexists; reflexivity).
  assert (Hstep : reduceState spawnedState
                    (MoveAction {| deltaX := -20; deltaY := 0 |})
                  = Ok steppedState)
    by (vm_compute; reflexivity).
  split; [exact spawnedState_reachable|]. split; [exact Hkey|].
  split; [exact Hstep|].
  exact (@move_or_rotate_outcome spawnedState steppedState
           (MoveAction {| deltaX := -20; deltaY := 0 |})
           spawnedState_reachable Hkey Hstep).
Defined.

Lemma main_states_on_grid_witness :
  main sampleEmissions = Ok sampleStates
  /\ Forall (fun s =>
               Forall gridCell (allBlocks s)
               /\ Forall gridCell (flat_map blocks (obstacles s))
               /\ (forall cur, currentShape s = Some cur ->
                     Forall gridCell (blocks cur)
                     /\ x cur mod Block.WIDTH = 0
                     /\ 0 <= y cur /\ y cur mod Block.HEIGHT = 0
                     /\ fix_ cur = false)
               /\ blocks (nextShape s) = []
               /\ dropRate s = Block.HEIGHT) sampleStates.
Proof.
  assert (Hmain : main sampleEmissions = Ok sampleStates)
    by (vm_compute; reflexivity).
  split; [exact Hmain|].
  exact (@main_states_on_grid sampleEmissions sampleStates Hmain).
Defined.

Lemma next_level_obstacle_in_lower_half_witness :
  levelUp levelTwoBoard = true
  /\ exists s' ob b col row,
       NextLevelAction_apply (pairValue 0) levelTwoBoard = Ok s'
       /\ obstacles s' = obstacles levelTwoBoard ++ [ob]
       /\ fixedShapes s' = obstacles s'
       /\ id ob = - (Z.of_nat (length (obstacles levelTwoBoard)) + 1)
       /\ fix_ ob = true
       /\ blocks ob = [b] /\ bx b = x ob /\ by_ b = y ob
       /\ gridCell b
       /\ x ob = col * Block.WIDTH /\ y ob = row * Block.HEIGHT
       /\ 0 <= col <= 9 /\ 10 <= row <= 19
       /\ PrimFloat.eqb (RNG64.scaleToRange (fst (gameCyclePair 0)) 0 9)
            (RNG64.ofInteger col) = true
       /\ PrimFloat.eqb (RNG64.scaleToRange (snd (gameCyclePair 0)) 10 19)
            (RNG64.ofInteger row) = true.
Proof.
  assert (Hlvl : levelUp levelTwoBoard = true) by reflexivity.
  split; [exact Hlvl|].
  exact (@next_level_obstacle_in_lower_half 0%nat levelTwoBoard Hlvl).
Defined.

Lemma game_cycles_without_landing_share_id_witness :
  gameEnd INITIAL_STATE = false /\ levelUp INITIAL_STATE = false
  /\ exists s1 s2 cur,
       GameCycleAction_apply (pairValue 0) INITIAL_STATE = Ok s1
       /\ GameCycleAction_apply (pairValue 1) s1 = Ok s2
       /\ currentShape s2 = Some cur
       /\ id cur = id (nextShape s2)
       /\ id cur = Z.of_nat (length (fixedShapes INITIAL_STATE))
                   - Z.of_nat (length (obstacles INITIAL_STATE)) + 2.
Proof.
  assert (Hrun : gameEnd INITIAL_STATE = false) by reflexivity.
  assert (Hlvl : levelUp INITIAL_STATE = false) by reflexivity.
  split; [exact Hrun|]. split; [exact Hlvl|].
  exact (@game_cycles_without_landing_share_id 0%nat 1%nat INITIAL_STATE
           Hrun Hlvl).
Defined.

Lemma tick_outcome_witness :
  reachable spawnedState
  /\ TickAction_apply spawnedState = Ok tickedState
  /\ ((gameEnd spawnedState || levelUp spawnedState = true ->
       tickedState = spawnedState)
      /\ (gameEnd spawnedState || levelUp spawnedState = false ->
            level (stats tickedState) = level (stats spawnedState)
            /\ highScore (stats tickedState) = highScore (stats spawnedState)
            /\ score (stats spawnedState) <= score (stats tickedState)
            /\ nextShape tickedState = nextShape spawnedState
            /\ obstacles tickedState = obstacles spawnedState
            /\ dropRate tickedState = dropRate spawnedState
            /\ levelUp tickedState
               = (score (stats spawnedState)
                  >=? level (stats spawnedState) * 10))).
Proof.
  assert (Htick : TickAction_apply spawnedState = Ok tickedState)
    by (vm_compute; reflexivity).
  split; [exact spawnedState_reachable|]. split; [exact Htick|].
  exact (@tick_outcome spawnedState tickedState spawnedState_reachable Htick).
Defined.
